(** * GeoDub: the timed dub-track synthesis engine

    A shallow embedding of the parts of the repository that merge caption
    fragments ([getYouTubeTranscript]), map translations back to their time
    ranges ([services/gemini.ts]), synthesize, time-fit and composite the
    clips ([services/tts.ts]), drive the run ([api/translate-stream/route.ts])
    and delete stored videos ([api/history/[videoId]/route.ts]).

    The code is read twice.

    The first reading computes with exact rationals.
    - A JavaScript number holding a time in seconds is an exact rational
      ([Q]); division keeps the JavaScript outcome for a zero divisor
      ([JS.div]).
    - A JavaScript string is a [string]; only ASCII white space and line
      terminators are recognised by [trim] and by the dot of a regular
      expression.
    - The file system is a finite map from path to file content; only the
      files are tracked, directories are not (except in the history route,
      which lists one directory by name).
    - The external collaborators (ffprobe, ffmpeg, the speech provider) are
      parameters: every theorem holds for all their behaviours.
    It carries the properties that do not depend on rounding: the
    arithmetic of the compression chain, the shape of the merged units, the
    cleanup of the compositor, the deletion of stored videos.

    The second reading ([F64], [Runtime]) follows the same source lines with
    the numbers of the engine: a time is an IEEE 754 binary64 value (the
    primitive [float]), subtracted, divided and compared as the processor
    does it; a value read from the model's JSON reply is any JavaScript
    value; [trim] removes every white space and line terminator of Unicode
    ([Utf8]); a path may name a directory; a child process may fail after
    it has written, or never exit.  The merging thresholds, the available
    time and the branches of the Timing Resolver, which turn on the last bit
    of a difference, and the Translation Mapper on arbitrary replies are
    stated on this reading. *)

From Stdlib Require Import PrimFloat FloatOps SpecFloat FloatAxioms.
From Stdlib Require Import QArith Qminmax Qround Lqa ZArith String Ascii DecimalString Sorted Lia.
From stdpp Require Import gmap strings list fin_maps.
Set Warnings "-inexact-float".

Local Open Scope Z_scope.
Local Open Scope Q_scope.
Local Open Scope string_scope.
Local Open Scope list_scope.
Local Open Scope stdpp_scope.

(** ** JavaScript numbers and strings *)

Module JS.

(** The value of an arithmetic expression: finite, or one of the three
    special values a division can produce. *)
Inductive number : Type :=
| Fin (q : Q)
| PosInf
| NegInf
| NaN.

(** [x < y] and [x <= y] on finite numbers. *)
Definition ltb (x y : Q) : bool := (Qnum x * QDen y <? Qnum y * QDen x)%Z.
Definition leb (x y : Q) : bool := (Qnum x * QDen y <=? Qnum y * QDen x)%Z.

(** [x / y]: a zero divisor gives an infinity of the sign of [x], or NaN. *)
Definition div (x y : Q) : number :=
  if Qeq_bool y 0 then
    if ltb 0 x then PosInf else if ltb x 0 then NegInf else NaN
  else Fin (x / y).

(** [n <= q] for a possibly special [n]; a comparison with NaN is false. *)
Definition num_leb (n : number) (q : Q) : bool :=
  match n with
  | Fin x => leb x q
  | NegInf => true
  | PosInf | NaN => false
  end.

(** [Math.floor] *)
Definition floor (x : Q) : Z := Qfloor x.

(** [x.toFixed(4)], as the integer number of ten-thousandths it prints:
    the nearest one, the larger on a tie. *)
Definition toFixed4 (x : Q) : Z := Qfloor (x * 10000 + (1 # 2)).

(** [String(i)] / template interpolation of a non-negative integer. *)
Definition of_nat (i : nat) : string := NilZero.string_of_uint (Nat.to_uint i).

(** [s.startsWith(p)] *)
Definition startsWith (s p : string) : bool := String.prefix p s.

Fixpoint drop (n : nat) (s : string) : string :=
  match n, s with
  | O, _ => s
  | S n', String _ s' => drop n' s'
  | S _, EmptyString => EmptyString
  end.

(** [s.replace(pat, rep)] with a string pattern: the first occurrence
    only ([rep] holds no dollar sign in this program). *)
Fixpoint replace (pat rep s : string) : string :=
  if String.prefix pat s then rep +:+ drop (String.length pat) s
  else match s with
       | EmptyString => EmptyString
       | String c s' => String c (replace pat rep s')
       end.

Definition is_space (c : ascii) : bool :=
  match c with
  | " "%char | "009"%char | "010"%char | "011"%char | "012"%char | "013"%char => true
  | _ => false
  end.

Definition is_line_terminator (c : ascii) : bool :=
  match c with
  | "010"%char | "013"%char => true
  | _ => false
  end.

Fixpoint trimStart (s : string) : string :=
  match s with
  | String c s' => if is_space c then trimStart s' else s
  | EmptyString => EmptyString
  end.

(** [trimEnd] drops a character when it is a space and everything after
    it has been dropped. *)
Fixpoint trimEnd (s : string) : string :=
  match s with
  | EmptyString => EmptyString
  | String c s' =>
      match trimEnd s' with
      | EmptyString => if is_space c then EmptyString else String c EmptyString
      | t => String c t
      end
  end.

Definition trim (s : string) : string := trimEnd (trimStart s).

(** [closes s]: after an opening bracket, a closing bracket is reached
    before any line terminator (the lazy [.*?] can be completed). *)
Fixpoint closes (s : string) : bool :=
  match s with
  | EmptyString => false
  | String c s' =>
      if Ascii.eqb c "]" then true
      else if is_line_terminator c then false
      else closes s'
  end.

(** [s.replace(/\[.*?\]/g, '')]; [inside] is true while the characters of
    a bracket annotation known to close are being skipped. *)
Fixpoint strip_brackets_from (inside : bool) (s : string) : string :=
  match s with
  | EmptyString => EmptyString
  | String c s' =>
      if inside then
        strip_brackets_from (negb (Ascii.eqb c "]")) s'
      else if Ascii.eqb c "[" && closes s' then strip_brackets_from true s'
      else String c (strip_brackets_from false s')
  end.

Definition strip_brackets (s : string) : string := strip_brackets_from false s.

(** [Array.prototype.sort] with the comparator [(a, b) => key a - key b]:
    the stable sort by [key]. *)
Section Sort.
Context {T : Type} (key : T -> Q).

Fixpoint sort_insert (x : T) (l : list T) : list T :=
  match l with
  | [] => [x]
  | y :: l' => if leb (key x) (key y) then x :: l else y :: sort_insert x l'
  end.

Fixpoint sort (l : list T) : list T :=
  match l with
  | [] => []
  | x :: l' => sort_insert x (sort l')
  end.
End Sort.

End JS.

(** ** Shared data model *)

(** [interface TranscriptSegment { start; end; text }] *)
Record TranscriptSegment : Type := mkSegment {
  start : Q;
  end_ : Q;
  text : string
}.

(** ** Segment Merger ([getYouTubeTranscript], the merging loop) *)

Module Youtube.

(** One iteration of [for (const seg of segments)]: the state is
    [mergedSegments] and [currentSegment]. *)
Definition merge_step (st : list TranscriptSegment * option TranscriptSegment)
    (seg : TranscriptSegment) : list TranscriptSegment * option TranscriptSegment :=
  match st.2 with
  | None => (st.1, Some seg)
  | Some currentSegment =>
      let gap := start seg - end_ currentSegment in
      let combinedDuration := end_ seg - start currentSegment in
      if JS.ltb gap 0.3 && JS.ltb combinedDuration 10 then
        (st.1, Some {| start := start currentSegment;
                       end_ := end_ seg;
                       text := text currentSegment +:+ " " +:+ text seg |})
      else (st.1 ++ [currentSegment], Some seg)
  end.

Definition mergeSegments (segments : list TranscriptSegment) : list TranscriptSegment :=
  let st := foldl merge_step ([], None) segments in
  match st.2 with
  | Some currentSegment => st.1 ++ [currentSegment]
  | None => st.1
  end.

(** *** The caption events ([getYouTubeTranscript], the parsing loop) *)

(** One element of [event.segs]; [utf8] may be absent. *)
Record Seg : Type := mkSeg {
  utf8 : option string
}.

(** One element of [subData.events] of the json3 subtitle file. *)
Record Event : Type := mkEvent {
  segs : option (list Seg);
  tStartMs : option Q;
  dDurationMs : option Q
}.

(** [for (const seg of event.segs) if (seg.utf8) text += seg.utf8] *)
Definition eventText (segs : list Seg) : string :=
  foldl (fun text seg =>
           match utf8 seg with
           | Some s => if String.eqb s "" then text else text +:+ s
           | None => text
           end) "" segs.

(** One iteration of [for (const event of subData.events)]. *)
Definition parse_step (segments : list TranscriptSegment) (event : Event)
    : list TranscriptSegment :=
  match segs event, tStartMs event with
  | Some eventSegs, Some startMs =>
      let durationMs :=
        match dDurationMs event with          (* [event.dDurationMs || 0] *)
        | Some d => if Qeq_bool d 0 then 0 else d
        | None => 0
        end in
      let text := JS.trim (eventText eventSegs) in
      if String.eqb text "" || String.eqb text (String "010" "") then segments
      else segments ++ [{| start := startMs / 1000;
                           end_ := (startMs + durationMs) / 1000;
                           text := text |}]
  | _, _ => segments
  end.

(** The fragments read from the subtitle data; [events] is [None] when
    [subData.events] is absent. *)
Definition parseEvents (events : option (list Event)) : list TranscriptSegment :=
  match events with
  | Some evs => foldl parse_step [] evs
  | None => []
  end.

(** What [getYouTubeTranscript] returns for the subtitle data it read. *)
Definition getYouTubeTranscript (events : option (list Event)) : list TranscriptSegment :=
  mergeSegments (parseEvents events).

End Youtube.

(** ** Outcomes of a call *)

(** What a JavaScript call can raise in this program. *)
Inductive exn : Type :=
| TypeError                       (* a property of [undefined] was read *)
| ENOENT (path : string)          (* fs: no such file *)
| ProbeFailed (path : string)     (* ffprobe rejected the file *)
| FfmpegExit                      (* "ffmpeg exited with code ..." *)
| NoJsonArray                     (* "Failed to parse Gemini translation response as JSON array" *)
| SynthesisFailed                 (* the speech provider rejected, or left no audio file *)
| NoAudioSegment                  (* the route's error: not one audio segment was created *)
| GeminiTranslationFailed (cause : exn) (* "Gemini Translation Failed: " + cause *)
| RangeError                      (* "Invalid array length": an array outgrew its bound *)
| EISDIR (path : string).         (* fs: the path names a directory *)

(** A call returns, throws, or never comes back. *)
Inductive outcome (X : Type) : Type :=
| Ok (x : X)
| Throw (e : exn)
| Hang.
Arguments Ok {X} x.
Arguments Throw {X} e.
Arguments Hang {X}.

(** ** Translation Mapper ([translateTranscript]) *)

Module Gemini.

(** One element of the array parsed from the model's reply; [index] is
    [None] when the property is absent. *)
Record Translation : Type := mkTranslation {
  index : option Z;
  translated : string
}.

(** [segments[originalIndex]]: [undefined] outside the array. *)
Definition at_index (segments : list TranscriptSegment) (originalIndex : Z)
    : option TranscriptSegment :=
  if (0 <=? originalIndex)%Z then segments !! Z.to_nat originalIndex else None.

(** [for (const trans of translations)] with its two locals. *)
Fixpoint mapLoop (segments : list TranscriptSegment) (translations : list Translation)
    (usedIndices : gset Z) (result : list TranscriptSegment)
    : outcome (list TranscriptSegment) :=
  match translations with
  | [] => Ok result
  | trans :: rest =>
      match index trans with
      | Some originalIndex =>
          if (originalIndex <? Z.of_nat (length segments))%Z
             && negb (bool_decide (originalIndex ∈ usedIndices))
          then
            match at_index segments originalIndex with
            | Some original =>
                mapLoop segments rest ({[originalIndex]} ∪ usedIndices)
                  (result ++ [{| start := start original;
                                 end_ := end_ original;
                                 text := translated trans |}])
            | None => Throw TypeError
            end
          else mapLoop segments rest usedIndices result
      | None => mapLoop segments rest usedIndices result
      end
  end.

(** The mapping and the final sort. *)
Definition mapTranslations (segments : list TranscriptSegment)
    (translations : list Translation) : outcome (list TranscriptSegment) :=
  match mapLoop segments translations ∅ [] with
  | Ok result => Ok (JS.sort start result)
  | Throw e => Throw e
  | Hang => Hang
  end.

(** [translateTranscript], from the reply on: [reply] is the array found
    in the model's text, [None] when there is none.  Whatever is thrown
    inside the [try] is rethrown wrapped. *)
Definition translateTranscript (segments : list TranscriptSegment)
    (reply : option (list Translation)) : outcome (list TranscriptSegment) :=
  match reply with
  | None => Throw (GeminiTranslationFailed NoJsonArray)
  | Some translations =>
      match mapTranslations segments translations with
      | Ok result => Ok result
      | Throw e => Throw (GeminiTranslationFailed e)
      | Hang => Hang
      end
  end.

End Gemini.

(** ** Files *)

(** The audio transcode/filter utility and the speech provider, over an
    abstract type [A] of audio contents.  [None] is a non-zero exit status
    (for [toFile]: a rejected promise). *)
Record External (A : Type) : Type := mkExternal {
  ffprobe : A -> Q;                       (* [metadata.format.duration || 0] *)
  atempo : list Z -> A -> option A;       (* [-filter:a atempo=..,atempo=..], stages in 1/10000 *)
  amix : list (A * Z) -> Q -> option A;   (* the delayed mix of the inputs, cut at [-t] *)
  loudnorm : A -> option A;               (* [-af loudnorm=I=-14:TP=-1:LRA=7] *)
  toFile : nat -> bool -> string -> option A (* speech for unit [i], first try or retry *)
}.
Arguments ffprobe {A}.
Arguments atempo {A}.
Arguments amix {A}.
Arguments loudnorm {A}.
Arguments toFile {A}.

(** What a tracked file holds. *)
Inductive file (A : Type) : Type :=
| Audio (a : A)
| FilterScript (delays : list Z)   (* the filter graph: one [adelay] per input, then [amix] *)
| Sidecar (duration : Q).           (* [<videoId>_meta.json] *)
Arguments Audio {A} a.
Arguments FilterScript {A} delays.
Arguments Sidecar {A} duration.

(** [path.join(dir, name)] for a plain file name. *)
Definition path_join (dir name : string) : string := dir +:+ "/" +:+ name.

(** The file names the stages agree on. *)
Definition segment_name (videoId : string) (i : nat) : string :=
  videoId +:+ "_segment_" +:+ JS.of_nat i +:+ ".mp3".
Definition georgian_name (videoId : string) : string := videoId +:+ "_georgian.mp3".
Definition meta_name (videoId : string) : string := videoId +:+ "_meta.json".

(** A computation over the file system. *)
Definition io (A X : Type) : Type :=
  gmap string (file A) -> outcome X * gmap string (file A).

Module IO.
Section Monad.
Context {A : Type}.

Definition ret {X} (x : X) : io A X := fun fs => (Ok x, fs).

Definition bind {X Y} (m : io A X) (k : X -> io A Y) : io A Y :=
  fun fs =>
    match m fs with
    | (Ok x, fs') => k x fs'
    | (Throw e, fs') => (Throw e, fs')
    | (Hang, fs') => (Hang, fs')
    end.

Definition throw {X} (e : exn) : io A X := fun fs => (Throw e, fs).

Definition hang {X} : io A X := fun fs => (Hang, fs).

(** [try { m } catch (e) { h e }] *)
Definition try_catch {X} (m : io A X) (h : exn -> io A X) : io A X :=
  fun fs =>
    match m fs with
    | (Throw e, fs') => h e fs'
    | r => r
    end.

(** [try { m } catch {}] *)
Definition attempt (m : io A unit) : io A unit :=
  try_catch m (fun _ => ret tt).

Definition existsSync (p : string) : io A bool :=
  fun fs => (Ok (bool_decide (is_Some (fs !! p))), fs).

Definition copyFileSync (src dst : string) : io A unit :=
  fun fs =>
    match fs !! src with
    | Some c => (Ok tt, <[dst := c]> fs)
    | None => (Throw (ENOENT src), fs)
    end.

Definition unlinkSync (p : string) : io A unit :=
  fun fs =>
    match fs !! p with
    | Some _ => (Ok tt, delete p fs)
    | None => (Throw (ENOENT p), fs)
    end.

Definition renameSync (old new : string) : io A unit :=
  fun fs =>
    match fs !! old with
    | Some c => (Ok tt, <[new := c]> (delete old fs))
    | None => (Throw (ENOENT old), fs)
    end.

Definition writeFileSync (p : string) (c : file A) : io A unit :=
  fun fs => (Ok tt, <[p := c]> fs).
End Monad.
End IO.

Notation "x <~ c1 ;; c2" := (IO.bind c1 (fun x => c2))
  (at level 100, c1 at next level, right associativity).
Notation "c1 ;;; c2" := (IO.bind c1 (fun _ => c2))
  (at level 100, right associativity).

(** ** Speech Synthesizer, Timing Resolver and Compositor ([services/tts.ts]) *)

(** A unit with the clip synthesized for it: [{ ...segment, audioPath }]. *)
Record Clip : Type := mkClip {
  unit_ : TranscriptSegment;
  audioPath : string
}.

(** An element of [adjustedSegments]: the clip spread, with [audioPath]
    overwritten by [adjustedPath]. *)
Record Adjusted : Type := mkAdjusted {
  source : TranscriptSegment;
  adjustedPath : string;
  originalPath : string;
  wasAdjusted : bool;
  audioDuration : Q;
  exactStart : Q
}.

Module Tts.

Definition maxSpeedup : Q := 3.0.

(** [while (remainingFactor > 2.0) { push('atempo=2.0'); remainingFactor /= 2.0 }]
    run for at most [fuel] rounds: the stages pushed and the factor left. *)
Fixpoint halving (fuel : nat) (remainingFactor : Q) : option (list Z * Q) :=
  if JS.ltb 2.0 remainingFactor then
    match fuel with
    | O => None
    | S fuel' =>
        match halving fuel' (remainingFactor / 2.0) with
        | Some (stages, r) => Some (20000%Z :: stages, r)
        | None => None
        end
    end
  else Some ([], remainingFactor).

(** The [atempoFilters] array built from [speedFactor]; [None] when the
    loop does not end (an infinite factor is never halved below 2). *)
Definition atempoFilters (speedFactor : JS.number) : option (list Z) :=
  match speedFactor with
  | JS.Fin q =>
      match halving (Z.to_nat (Qfloor q)) q with
      | Some (stages, remainingFactor) =>
          Some (stages ++
                (if JS.ltb 1.0 remainingFactor then [JS.toFixed4 remainingFactor] else []))
      | None => None
      end
  | JS.PosInf => None
  | JS.NegInf | JS.NaN => Some []
  end.

Section Engine.
Context {A : Type} (E : External A).

(** [getAudioDuration]: ffprobe rejects what is not an audio file. *)
Definition getAudioDuration (filePath : string) : io A Q :=
  fun fs =>
    match fs !! filePath with
    | Some (Audio a) => (Ok (ffprobe E a), fs)
    | _ => (Throw (ProbeFailed filePath), fs)
    end.

(** [spawnSync(FFMPEG_PATH, ['-i', input, '-filter:a', chain, '-y', output])]:
    whether the status is 0.  A failed run leaves the files as they were. *)
Definition ffmpeg_atempo (inputPath : string) (chain : list Z) (outputPath : string)
    : io A bool :=
  fun fs =>
    match fs !! inputPath with
    | Some (Audio a) =>
        match atempo E chain a with
        | Some a' => (Ok true, <[outputPath := Audio a']> fs)
        | None => (Ok false, fs)
        end
    | _ => (Ok false, fs)
    end.

(** [spawnSync(FFMPEG_PATH, ['-i', audioPath, '-af', 'loudnorm=...', '-y', tempPath])] *)
Definition ffmpeg_loudnorm (audioPath tempPath : string) : io A bool :=
  fun fs =>
    match fs !! audioPath with
    | Some (Audio a) =>
        match loudnorm E a with
        | Some a' => (Ok true, <[tempPath := Audio a']> fs)
        | None => (Ok false, fs)
        end
    | _ => (Ok false, fs)
    end.

Definition audio_at (fs : gmap string (file A)) (p : string) : option A :=
  match fs !! p with
  | Some (Audio a) => Some a
  | _ => None
  end.

(** The stitch command: the inputs, the filter script, [-t totalDuration]
    and the output. *)
Definition ffmpeg_mix (inputs : list string) (filterScriptPath : string)
    (totalDuration : Q) (outputPath : string) : io A bool :=
  fun fs =>
    match fs !! filterScriptPath, mapM (audio_at fs) inputs with
    | Some (FilterScript delays), Some clips =>
        match amix E (zip clips delays) totalDuration with
        | Some mixed => (Ok true, <[outputPath := Audio mixed]> fs)
        | None => (Ok false, fs)
        end
    | _, _ => (Ok false, fs)
    end.

(** [generateSpeechEdge(text, outputPath)] for unit [i]: the clip is left
    at [outputPath], or the call throws.  The scratch directory
    [temp_<baseName>] it goes through is emptied again and not tracked. *)
Definition generateSpeechEdge (i : nat) (retry : bool) (cleanText outputPath : string)
    : io A string :=
  match toFile E i retry cleanText with
  | Some a => IO.writeFileSync outputPath (Audio a) ;;; IO.ret outputPath
  | None => IO.throw SynthesisFailed
  end.

(** The body of the loop of [generateGeorgianAudio] for unit [i]: the
    file pushed to [segmentFiles], if any. *)
Definition synthesizeSegment (outputDir videoId : string) (i : nat)
    (segment : TranscriptSegment) : io A (option string) :=
  if String.eqb (text segment) "" || String.eqb (JS.trim (text segment)) "" then
    IO.ret None
  else
    let cleanText := JS.trim (JS.strip_brackets (text segment)) in
    if String.eqb cleanText "" then IO.ret None
    else
      let fileName := path_join outputDir (segment_name videoId i) in
      IO.try_catch
        (f <~ generateSpeechEdge i false cleanText fileName ;; IO.ret (Some f))
        (fun _ =>
           IO.try_catch
             (f <~ generateSpeechEdge i true cleanText fileName ;; IO.ret (Some f))
             (fun _ => IO.ret None)).

Fixpoint generateLoop (outputDir videoId : string) (i : nat)
    (segments : list TranscriptSegment) : io A (list string) :=
  match segments with
  | [] => IO.ret []
  | segment :: rest =>
      r <~ synthesizeSegment outputDir videoId i segment ;;
      files <~ generateLoop outputDir videoId (S i) rest ;;
      IO.ret (match r with Some f => f :: files | None => files end)
  end.

Definition generateGeorgianAudio (segments : list TranscriptSegment)
    (outputDir videoId : string) : io A (list string) :=
  generateLoop outputDir videoId 0 segments.

(** [normalizeAudio] *)
Definition normalizeAudio (audioPath : string) : io A unit :=
  let tempPath := JS.replace ".mp3" "_temp_norm.mp3" audioPath in
  ok <~ ffmpeg_loudnorm audioPath tempPath ;;
  if negb ok then IO.ret tt
  else IO.unlinkSync audioPath ;;; IO.renameSync tempPath audioPath.

(** [adjustAudioSpeed] *)
Definition adjustAudioSpeed (inputPath outputPath : string) (targetDuration : Q)
    : io A unit :=
  actualDuration <~ getAudioDuration inputPath ;;
  if JS.leb actualDuration targetDuration then IO.copyFileSync inputPath outputPath
  else
    let speedFactor := JS.div actualDuration targetDuration in
    match atempoFilters speedFactor with
    | None => IO.hang
    | Some [] => IO.copyFileSync inputPath outputPath
    | Some chain =>
        ok <~ ffmpeg_atempo inputPath chain outputPath ;;
        if negb ok then IO.copyFileSync inputPath outputPath else IO.ret tt
    end.

(** The time unit [i] of [sortedSegments] has before the next one starts. *)
Definition availableTime (sortedSegments : list Clip) (i : nat) (segment : Clip) : Q :=
  let targetDuration := end_ (unit_ segment) - start (unit_ segment) in
  if (S i <? length sortedSegments)%nat then
    match sortedSegments !! S i with
    | Some next =>
        let nextStart := start (unit_ next) in
        Qmax (Qmin targetDuration (nextStart - start (unit_ segment))) 0.5
    | None => targetDuration
    end
  else targetDuration.

(** The body of the timing loop of [stitchAudioWithTiming] for position
    [i]; [None] when the clip's file is missing and the unit is skipped. *)
Definition resolveSegment (sortedSegments : list Clip) (i : nat) (segment : Clip)
    : io A (option Adjusted) :=
  present <~ IO.existsSync (audioPath segment) ;;
  if negb present then IO.ret None
  else
    ttsDuration <~ getAudioDuration (audioPath segment) ;;
    let availableTime := availableTime sortedSegments i segment in
    r <~ (if JS.ltb availableTime ttsDuration then
            let speedFactor := JS.div ttsDuration availableTime in
            let adjustedPath := JS.replace ".mp3" "_adjusted.mp3" (audioPath segment) in
            if JS.num_leb speedFactor maxSpeedup then
              adjustAudioSpeed (audioPath segment) adjustedPath availableTime ;;;
              finalDuration <~ getAudioDuration adjustedPath ;;
              IO.ret (adjustedPath, finalDuration)
            else
              let cappedDuration := ttsDuration / maxSpeedup in
              adjustAudioSpeed (audioPath segment) adjustedPath cappedDuration ;;;
              finalDuration <~ getAudioDuration adjustedPath ;;
              IO.ret (adjustedPath, finalDuration)
          else IO.ret (audioPath segment, ttsDuration)) ;;
    IO.ret (Some {| source := unit_ segment;
                    adjustedPath := r.1;
                    originalPath := audioPath segment;
                    wasAdjusted := negb (String.eqb r.1 (audioPath segment));
                    audioDuration := r.2;
                    exactStart := start (unit_ segment) |}).

Fixpoint resolveLoop (sortedSegments : list Clip) (i : nat) (todo : list Clip)
    : io A (list Adjusted) :=
  match todo with
  | [] => IO.ret []
  | segment :: rest =>
      r <~ resolveSegment sortedSegments i segment ;;
      adjustedSegments <~ resolveLoop sortedSegments (S i) rest ;;
      IO.ret (match r with Some a => a :: adjustedSegments | None => adjustedSegments end)
  end.

(** The Timing Resolver: the sort and the timing loop. *)
Definition resolveTiming (segments : list Clip) : io A (list Adjusted) :=
  let sortedSegments := JS.sort (fun c => start (unit_ c)) segments in
  resolveLoop sortedSegments 0 sortedSegments.

(** [for (const segment of adjustedSegments) if (segment.wasAdjusted) try { unlink } catch {}] *)
Fixpoint cleanupAdjusted (adjustedSegments : list Adjusted) : io A unit :=
  match adjustedSegments with
  | [] => IO.ret tt
  | segment :: rest =>
      (if wasAdjusted segment then IO.attempt (IO.unlinkSync (adjustedPath segment))
       else IO.ret tt) ;;;
      cleanupAdjusted rest
  end.

(** The Compositor: the rest of [stitchAudioWithTiming]. *)
Definition composite (adjustedSegments : list Adjusted) (outputPath : string)
    (totalDuration : Q) : io A unit :=
  let delays := map (fun s => JS.floor (exactStart s * 1000)) adjustedSegments in
  let filterScriptPath := JS.replace ".mp3" "_filter.txt" outputPath in
  IO.writeFileSync filterScriptPath (FilterScript delays) ;;;
  IO.try_catch
    (ok <~ ffmpeg_mix (map adjustedPath adjustedSegments) filterScriptPath
             totalDuration outputPath ;;
     if negb ok then IO.throw FfmpegExit
     else
       IO.unlinkSync filterScriptPath ;;;
       cleanupAdjusted adjustedSegments ;;;
       normalizeAudio outputPath)
    (fun error =>
       IO.attempt (IO.unlinkSync filterScriptPath) ;;;
       cleanupAdjusted adjustedSegments ;;;
       IO.throw error).

Definition stitchAudioWithTiming (segments : list Clip) (outputPath : string)
    (totalDuration : Q) : io A unit :=
  adjustedSegments <~ resolveTiming segments ;;
  composite adjustedSegments outputPath totalDuration.

End Engine.
End Tts.

(** ** The run ([POST /api/translate-stream], stages 3 and 4) *)

Module Route.

(** The last event sent on the progress stream. *)
Inductive event : Type :=
| Done (translatedAudioUrl : string)
| Failed (error : exn).

Section Run.
Context {A : Type} (E : External A).

(** [for (let i = 0; i < translationSegments.length; i++)]: the units
    whose expected clip file exists. *)
Fixpoint collectLoop (outputDir videoId : string) (i : nat)
    (translationSegments : list TranscriptSegment) : io A (list Clip) :=
  match translationSegments with
  | [] => IO.ret []
  | segment :: rest =>
      let expectedFileName := path_join outputDir (segment_name videoId i) in
      present <~ IO.existsSync expectedFileName ;;
      segmentsWithPaths <~ collectLoop outputDir videoId (S i) rest ;;
      IO.ret (if present
              then {| unit_ := segment; audioPath := expectedFileName |} :: segmentsWithPaths
              else segmentsWithPaths)
  end.

(** Stage 3 (TTS) and stage 4 (stitch), then the sidecar record. *)
Definition synthesizeAndStitch (translationSegments : list TranscriptSegment)
    (outputDir videoId : string) (duration : Q) : io A string :=
  _ <~ Tts.generateGeorgianAudio E translationSegments outputDir videoId ;;
  segmentsWithPaths <~ collectLoop outputDir videoId 0 translationSegments ;;
  if (length segmentsWithPaths =? 0)%nat then IO.throw NoAudioSegment
  else
    let finalAudioName := georgian_name videoId in
    let finalAudioPath := path_join outputDir finalAudioName in
    Tts.stitchAudioWithTiming E segmentsWithPaths finalAudioPath duration ;;;
    IO.writeFileSync (path_join outputDir (meta_name videoId)) (Sidecar duration) ;;;
    IO.ret ("/temp/" +:+ finalAudioName).

(** The [try { ... } catch (error) { sendProgress({ stage: 'error' }) }]
    around the stages. *)
Definition POST (translationSegments : list TranscriptSegment)
    (outputDir videoId : string) (duration : Q) : io A event :=
  IO.try_catch
    (url <~ synthesizeAndStitch translationSegments outputDir videoId duration ;;
     IO.ret (Done url))
    (fun error => IO.ret (Failed error)).

End Run.
End Route.

(** ** The history route ([DELETE /api/history/[videoId]]) *)

Module History.

(** What a name in the temp directory denotes. *)
Inductive entry : Type :=
| RegularFile
| Directory.

Inductive response : Type :=
| BadRequest                                       (* status 400 *)
| Success (videoId : string) (deletedFiles : list string).

(** [fs.readdirSync(TEMP_DIR)] *)
Definition readdirSync (dir : gmap string entry) : list string :=
  (map_to_list dir).*1.

(** First loop: [unlinkSync] succeeds on a regular file only; its error
    is caught and logged. *)
Definition unlink_step (videoId : string) (st : gmap string entry * list string)
    (file : string) : gmap string entry * list string :=
  if JS.startsWith file videoId then
    match st.1 !! file with
    | Some RegularFile => (delete file st.1, st.2 ++ [file])
    | _ => st
    end
  else st.

(** Second loop: the scratch directories [temp_<videoId>...];
    [statSync] throws on a missing name, which is caught. *)
Definition rmdir_step (videoId : string) (st : gmap string entry * list string)
    (file : string) : gmap string entry * list string :=
  if JS.startsWith file ("temp_" +:+ videoId) then
    match st.1 !! file with
    | Some Directory => (delete file st.1, st.2 ++ [file])
    | _ => st
    end
  else st.

(** [DELETE]; [temp] is [None] when the temp directory does not exist. *)
Definition DELETE (videoId : string) (temp : option (gmap string entry))
    : response * option (gmap string entry) :=
  if String.eqb videoId "" then (BadRequest, temp)
  else
    match temp with
    | None => (Success videoId [], None)
    | Some dir =>
        let files := readdirSync dir in
        let st1 := foldl (unlink_step videoId) (dir, []) files in
        let st2 := foldl (rmdir_step videoId) st1 files in
        (Success videoId st2.2, Some st2.1)
    end.

End History.

(** ** Test doubles for the external collaborators

    Audio content is reduced to its duration.  [exact] is a compressor that
    hits the target of the chain, a mixer whose output lasts as long as the
    longest delayed input (cut at the total), and a speech provider that
    speaks four characters a second; [broken] fails every external call. *)

Module Doubles.

Definition chain_factor (chain : list Z) : Q :=
  foldr (fun stage acc => (stage # 10000) * acc) 1 chain.

Definition mix_length (inputs : list (Q * Z)) (totalDuration : Q) : Q :=
  Qmin totalDuration
    (foldr (fun '(d, delayMs) acc => Qmax ((delayMs # 1000) + d) acc) 0 inputs).

Definition exact : External Q := {|
  ffprobe := fun a => a;
  atempo := fun chain a => Some (Qred (a / chain_factor chain));
  amix := fun inputs totalDuration => Some (Qred (mix_length inputs totalDuration));
  loudnorm := fun a => Some a;
  toFile := fun _ _ cleanText => Some (Z.of_nat (String.length cleanText) # 4)
|}.


(** The provider is down, the audio utility works. *)
Definition mute : External Q := {|
  ffprobe := ffprobe exact;
  atempo := atempo exact;
  amix := amix exact;
  loudnorm := loudnorm exact;
  toFile := fun _ _ _ => None
|}.

End Doubles.

(** ** Vocabulary of the statements *)

Definition sorted_by_start (l : list TranscriptSegment) : Prop :=
  StronglySorted (fun a b => start a <= start b) l.

(** A group of consecutive fragments: its first fragment and the others. *)
Definition group : Type := TranscriptSegment * list TranscriptSegment.

Definition fragments (g : group) : list TranscriptSegment := g.1 :: g.2.

(** The last fragment of a group. *)
Definition closing (g : group) : TranscriptSegment := List.last g.2 g.1.

(** The unit a group stands for: from the start of its first fragment to
    the end of its last, the texts joined by single spaces. *)
Definition merged_unit (g : group) : TranscriptSegment :=
  {| start := start g.1;
     end_ := end_ (closing g);
     text := String.concat " " (map text (fragments g)) |}.

(** The merge test for fragment [b] arriving after fragment [a] in a unit
    that started with [h]. *)
Definition joins (h a b : TranscriptSegment) : bool :=
  JS.ltb (start b - end_ a) 0.3 && JS.ltb (end_ b - start h) 10.

(** The grouping the merging loop goes through, with the open group
    [(h, t)] and the fragments still to come. *)
Fixpoint group_from (h : TranscriptSegment) (t : list TranscriptSegment)
    (segments : list TranscriptSegment) : list group :=
  match segments with
  | [] => [(h, t)]
  | s :: rest =>
      if joins h (closing (h, t)) s then group_from h (t ++ [s]) rest
      else (h, t) :: group_from s [] rest
  end.

(** No element of the model's reply carries a negative [index]. *)
Definition non_negative_indices (translations : list Gemini.Translation) : Prop :=
  forall t k, In t translations -> Gemini.index t = Some k -> (0 <= k)%Z.

(** What [adjustAudioSpeed] leaves at the output path for a clip [a] and
    the chain it built: the compressed clip, or a copy of [a] when the chain
    is empty or ffmpeg exits with a non-zero status. *)
Definition compressed {A : Type} (E : External A) (chain : list Z) (a : A) : A :=
  match chain with
  | [] => a
  | _ :: _ => match atempo E chain a with Some a' => a' | None => a end
  end.

(** The path holds the extension the derived names are built from. *)
Definition has_mp3 (p : string) : Prop :=
  exists pre post : string, p = pre +:+ ".mp3" +:+ post.

(** The target the Timing Resolver hands to [adjustAudioSpeed] for a clip
    of [ttsDuration] seconds with [availableTime] seconds to fit in. *)
Definition compression_target (ttsDuration availableTime : Q) : Q :=
  if JS.num_leb (JS.div ttsDuration availableTime) Tts.maxSpeedup
  then availableTime
  else ttsDuration / Tts.maxSpeedup.

(** The paths [cleanupAdjusted] unlinks. *)
Definition derived_paths (adjustedSegments : list Adjusted) : list string :=
  map adjustedPath (filter (fun s => wasAdjusted s = true) adjustedSegments).

(** The unit at position [i] yields no clip: it is skipped for its text, or
    both the first synthesis call and the retry fail. *)
Definition dropped {A : Type} (E : External A) (i : nat) (segment : TranscriptSegment)
    : Prop :=
  text segment = "" \/
  JS.trim (text segment) = "" \/
  JS.trim (JS.strip_brackets (text segment)) = "" \/
  (toFile E i false (JS.trim (JS.strip_brackets (text segment))) = None /\
   toFile E i true (JS.trim (JS.strip_brackets (text segment))) = None).

(** The text the model's reply gives first for index [k]. *)
Definition first_text (translations : list Gemini.Translation) (k : Z) : option string :=
  Gemini.translated <$>
    List.find (fun t => bool_decide (Gemini.index t = Some k)) translations.

(** Unit [u] is input unit [k] with the first text given for [k]. *)
Definition translates (segments : list TranscriptSegment)
    (translations : list Gemini.Translation) (k : Z) (u : TranscriptSegment) : Prop :=
  exists original txt,
    segments !! Z.to_nat k = Some original /\
    first_text translations k = Some txt /\
    u = {| start := start original; end_ := end_ original; text := txt |}.

(** The caption events come in the order of their start times. *)
Definition ordered_events (events : list Youtube.Event) : Prop :=
  StronglySorted
    (fun a b => forall x y, Youtube.tStartMs a = Some x -> Youtube.tStartMs b = Some y ->
                            x <= y)
    events.

(** No caption event has a negative duration. *)
Definition durations_non_negative (events : list Youtube.Event) : Prop :=
  forall event d, In event events -> Youtube.dDurationMs event = Some d -> 0 <= d.

(** The text survives the cleaning of [generateGeorgianAudio]: the unit
    is handed to the speech provider. *)
Definition speakable (segment : TranscriptSegment) : Prop :=
  text segment <> "" /\ JS.trim (text segment) <> "" /\
  JS.trim (JS.strip_brackets (text segment)) <> "".


(** The clip paths of the units of a video. *)
Definition clip_path (outputDir videoId : string) (i : nat) : string :=
  path_join outputDir (segment_name videoId i).

(** The overall tempo factor of a chain of [atempo] stages given in
    ten-thousandths. *)
Definition tempo (chain : list Z) : Q :=
  foldr (fun stage acc => (stage # 10000) * acc) 1 chain.

(** The derived name of a clip path. *)
Definition derived_name (p : string) : string := JS.replace ".mp3" "_adjusted.mp3" p.

(** The entries are in the order of their anchors. *)
Definition sorted_by_anchor (l : list Adjusted) : Prop :=
  StronglySorted (fun a b => exactStart a <= exactStart b) l.

(** Entry [e] stands for clip [c]: it keeps the unit, its start as the
    anchor and the clip's path as the original path, and it names either the
    clip itself (not adjusted) or the clip's derived file (adjusted). *)
Definition stands_for (e : Adjusted) (c : Clip) : Prop :=
  source e = unit_ c /\ exactStart e = start (unit_ c) /\
  originalPath e = audioPath c /\
  ((wasAdjusted e = false /\ adjustedPath e = audioPath c) \/
   (wasAdjusted e = true /\ adjustedPath e = derived_name (audioPath c) /\
    derived_name (audioPath c) <> audioPath c)).

(** What [DELETE videoId] makes of the entry under [name]. *)
Definition after_delete (videoId name : string) (e : option History.entry)
    : option History.entry :=
  match e with
  | Some History.RegularFile =>
      if JS.startsWith name videoId then None else Some History.RegularFile
  | Some History.Directory =>
      if JS.startsWith name ("temp_" +:+ videoId) then None else Some History.Directory
  | None => None
  end.

(** ** Concrete runs *)

Module Scenario.

(** Scenario A and C of the specification: three units of two seconds. *)
Definition three_units : list TranscriptSegment :=
  [mkSegment 0 2 "a"; mkSegment 2 4 "b"; mkSegment 4 6 "c"].

(** Scenario B: a one-second unit whose clip lasts four seconds, and a
    successor that starts at 1.2s. *)
Definition tight : list Clip :=
  [mkClip (mkSegment 0 1 "a") "d/V_segment_0.mp3";
   mkClip (mkSegment 1.2 3 "b") "d/V_segment_1.mp3"].

Definition tight_files : gmap string (file Q) :=
  <["d/V_segment_0.mp3" := Audio 4]> (<["d/V_segment_1.mp3" := Audio 1]> ∅).

(** A clip left in the temp directory by an earlier run of the same video. *)
Definition stale_files : gmap string (file Q) :=
  <["d/V_segment_0.mp3" := Audio 2]> ∅.

(** The temp directory with two stored videos, [abc] and [abcd]. *)
Definition two_videos : gmap string History.entry :=
  list_to_map
    [("abc_georgian.mp3", History.RegularFile); ("abc_meta.json", History.RegularFile);
     ("abcd_georgian.mp3", History.RegularFile); ("abcd_meta.json", History.RegularFile);
     ("abcd_segment_0.mp3", History.RegularFile); ("abd_georgian.mp3", History.RegularFile)].

(** Two caption events that overlap, one event without text and one
    without a start. *)
Definition captions : list Youtube.Event :=
  [Youtube.mkEvent (Some [Youtube.mkSeg (Some " hello"); Youtube.mkSeg (Some " world ")])
     (Some 0) (Some 2000);
   Youtube.mkEvent (Some [Youtube.mkSeg (Some " ")]) (Some 1000) (Some 500);
   Youtube.mkEvent (Some [Youtube.mkSeg (Some "again")]) None (Some 500);
   Youtube.mkEvent (Some [Youtube.mkSeg None; Youtube.mkSeg (Some "there")])
     (Some 1900) None].

(** A temp directory with a leftover scratch directory and a directory
    that merely starts with the id. *)
Definition cluttered : gmap string History.entry :=
  list_to_map
    [("abc_georgian.mp3", History.RegularFile); ("abc.mp3", History.RegularFile);
     ("temp_abc_segment_3", History.Directory); ("abc_dir", History.Directory);
     ("temp_abc_note", History.RegularFile); ("xyz_georgian.mp3", History.RegularFile)].

End Scenario.

(** * The code as the JavaScript engine runs it

    The definitions above compute with exact rationals and a flat map of
    files; they carry the properties that rounding and directories do not
    touch.  The definitions of this part follow the same source lines with
    the numbers of the engine, IEEE 754 binary64 (the primitive [float]),
    with the outcomes of a child process that fails or does not exit, and
    with directories in the file system.  The properties that depend on a
    boundary case (a gap of exactly 300 ms, a clip that fits its window to
    the last bit) are proved on them. *)

(** ** Doubles *)

Module F64.

(** The value of the finite double with sign [s], mantissa [m] and
    exponent [e]: plus or minus [m * 2^e]. *)
Definition finite_value (s : bool) (m : positive) (e : Z) : Q :=
  if (0 <=? e)%Z then inject_Z (cond_Zopp s (Zpos m) * 2 ^ e)
  else cond_Zopp s (Zpos m) # 2 ^ Z.to_pos (- e).

(** The same value counted in units of [2^-1074], the smallest positive
    double. *)
Definition scaled (s : bool) (m : positive) (e : Z) : Z :=
  (cond_Zopp s (Zpos m) * 2 ^ (e + 1074))%Z.

(** The exact value of a double; both zeros have the value 0. *)
Definition value (x : float) : JS.number :=
  match Prim2SF x with
  | S754_zero _ => JS.Fin 0
  | S754_infinity s => if s then JS.NegInf else JS.PosInf
  | S754_nan => JS.NaN
  | S754_finite s m e => JS.Fin (finite_value s m e)
  end.

(** [a < b] and [a <= b] on values: false as soon as one side is NaN. *)
Definition number_ltb (a b : JS.number) : bool :=
  match a, b with
  | JS.Fin x, JS.Fin y => JS.ltb x y
  | JS.NegInf, JS.Fin _ | JS.NegInf, JS.PosInf | JS.Fin _, JS.PosInf => true
  | _, _ => false
  end.

Definition number_leb (a b : JS.number) : bool :=
  match a, b with
  | JS.Fin x, JS.Fin y => JS.leb x y
  | JS.NegInf, JS.Fin _ | JS.NegInf, JS.PosInf | JS.Fin _, JS.PosInf => true
  | JS.NegInf, JS.NegInf | JS.PosInf, JS.PosInf => true
  | _, _ => false
  end.

(** [x < y] and [x <= y]: the comparison of two doubles is the comparison
    of their values; it is the comparison of the processor ([ltb_native],
    [leb_native]). *)
Definition ltb (x y : float) : bool := number_ltb (value x) (value y).
Definition leb (x y : float) : bool := number_leb (value x) (value y).

(** [Math.min(x, y)] and [Math.max(x, y)]: NaN when one argument is, and
    [-0] below [+0]. *)
Definition min (x y : float) : float :=
  if PrimFloat.is_nan x || PrimFloat.is_nan y then PrimFloat.nan
  else if ltb x y then x
  else if ltb y x then y
  else if PrimFloat.get_sign x then x else y.

Definition max (x y : float) : float :=
  if PrimFloat.is_nan x || PrimFloat.is_nan y then PrimFloat.nan
  else if ltb y x then x
  else if ltb x y then y
  else if PrimFloat.get_sign x then y else x.

(** [x || 0] for a number, or for a property that is absent: [0], [-0]
    and NaN are falsy. *)
Definition or_zero (x : option float) : float :=
  match x with
  | Some d => if PrimFloat.is_nan d || PrimFloat.is_zero d then 0%float else d
  | None => 0%float
  end.

End F64.

(** ** Strings

    A JavaScript string is kept as the bytes of its UTF-8 encoding. *)

Module Utf8.

(** [is_white_space s]: [s] is exactly one character that [trim] removes,
    a WhiteSpace or a LineTerminator of ECMAScript: U+0009 to U+000D,
    U+0020, U+00A0, U+1680, U+2000 to U+200A, U+2028, U+2029, U+202F,
    U+205F, U+3000 and U+FEFF. *)
Definition is_white_space (s : string) : bool :=
  match s with
  | String a EmptyString => JS.is_space a
  | String a (String b EmptyString) =>
      Ascii.eqb a "194" && Ascii.eqb b "160"                       (* U+00A0 *)
  | String a (String b (String c EmptyString)) =>
      (Ascii.eqb a "225" && Ascii.eqb b "154" && Ascii.eqb c "128")   (* U+1680 *)
      || (Ascii.eqb a "226" && Ascii.eqb b "128" &&
          ((128 <=? N_of_ascii c)%N && (N_of_ascii c <=? 138)%N    (* U+2000 to U+200A *)
           || Ascii.eqb c "168" || Ascii.eqb c "169"               (* U+2028, U+2029 *)
           || Ascii.eqb c "175"))                                  (* U+202F *)
      || (Ascii.eqb a "226" && Ascii.eqb b "129" && Ascii.eqb c "159")   (* U+205F *)
      || (Ascii.eqb a "227" && Ascii.eqb b "128" && Ascii.eqb c "128")   (* U+3000 *)
      || (Ascii.eqb a "239" && Ascii.eqb b "187" && Ascii.eqb c "191")   (* U+FEFF *)
  | _ => false
  end.

(** [s.trimStart()]: the characters to remove are taken off the front. *)
Fixpoint trimStart (s : string) : string :=
  match s with
  | String a s1 =>
      if is_white_space (String a "") then trimStart s1
      else
        match s1 with
        | String b s2 =>
            if is_white_space (String a (String b "")) then trimStart s2
            else
              match s2 with
              | String c s3 =>
                  if is_white_space (String a (String b (String c ""))) then trimStart s3
                  else s
              | EmptyString => s
              end
        | EmptyString => s
        end
  | EmptyString => s
  end.

(** [s.trimEnd()]: going back from the end, a character is dropped when
    it is one to remove and everything after it has been dropped. *)
Fixpoint trimEnd (s : string) : string :=
  match s with
  | EmptyString => EmptyString
  | String a s' =>
      let t := String a (trimEnd s') in
      if is_white_space t then EmptyString else t
  end.

(** [s.trim()] *)
Definition trim (s : string) : string := trimEnd (trimStart s).

End Utf8.

Module Runtime.

(** *** Translation Mapper *)

Module Gemini.

(** A value of the parsed reply, as far as the mapper looks at it.  A
    number is given by its exact value; an array or an object by the string
    it converts to. *)
Inductive value : Type :=
| Undefined                       (* the property is absent *)
| Null
| Boolean (b : bool)
| Number (n : JS.number)
| Str (s : string)
| Object (toString : string).

(** One element of the array parsed from the model's reply that is an
    object; [translated] is its [text]. *)
Record Translation : Type := mkTranslation {
  index : value;
  translated : string
}.

(** [Set.prototype.has] compares with SameValueZero: NaN is itself, the
    two zeros are one, an object is only itself (and every element of the
    parsed reply is a fresh one). *)
Definition sameNumber (a b : JS.number) : bool :=
  match a, b with
  | JS.Fin x, JS.Fin y => Qeq_bool x y
  | JS.PosInf, JS.PosInf | JS.NegInf, JS.NegInf | JS.NaN, JS.NaN => true
  | _, _ => false
  end.

Definition sameValueZero (x y : value) : bool :=
  match x, y with
  | Undefined, Undefined | Null, Null => true
  | Boolean a, Boolean b => Bool.eqb a b
  | Number a, Number b => sameNumber a b
  | Str s, Str t => String.eqb s t
  | _, _ => false
  end.

(** The digits of a decimal numeral. *)
Definition digit (c : ascii) : option nat :=
  let n := nat_of_ascii c in
  if (48 <=? n)%nat && (n <=? 57)%nat then Some (n - 48)%nat else None.

Fixpoint digits (acc : nat) (s : string) : option nat :=
  match s with
  | EmptyString => Some acc
  | String c s' =>
      match digit c with
      | Some d => digits (10 * acc + d)%nat s'
      | None => None
      end
  end.

(** The array index a property key denotes: the key is the canonical
    numeral of a natural number. *)
Definition arrayIndex (key : string) : option nat :=
  match key with
  | EmptyString => None
  | _ =>
      match digits 0 key with
      | Some n => if String.eqb (JS.of_nat n) key then Some n else None
      | None => None
      end
  end.

(** The array index that [segments[v]] reads, if the key of [v] is one:
    a number converts to a canonical numeral when it is a natural number. *)
Definition elementIndex (v : value) : option nat :=
  match v with
  | Number (JS.Fin q) =>
      if Qeq_bool (inject_Z (Qfloor q)) q && (0 <=? Qfloor q)%Z
      then Some (Z.to_nat (Qfloor q)) else None
  | Str s | Object s => arrayIndex s
  | _ => None
  end.

Section Mapper.

(** The conversion of a string to a number (white space, signs, decimal,
    hexadecimal and exponent forms) is not interpreted. *)
Variable StringToNumber : string -> JS.number.

(** [ToNumber], as the relational operator applies it. *)
Definition toNumber (v : value) : JS.number :=
  match v with
  | Undefined => JS.NaN
  | Null => JS.Fin 0
  | Boolean b => JS.Fin (if b then 1 else 0)
  | Number n => n
  | Str s | Object s => StringToNumber s
  end.

(** [segments[originalIndex]]: [undefined] unless the key is an index
    inside the array. *)
Definition at_index (segments : list TranscriptSegment) (originalIndex : value)
    : option TranscriptSegment :=
  match elementIndex originalIndex with
  | Some k => segments !! k
  | None => None
  end.

(** The guard of the loop. *)
Definition accepted (segments : list TranscriptSegment) (usedIndices : list value)
    (originalIndex : value) : bool :=
  match originalIndex with
  | Undefined => false
  | _ =>
      F64.number_ltb (toNumber originalIndex)
        (JS.Fin (inject_Z (Z.of_nat (length segments))))
      && negb (existsb (sameValueZero originalIndex) usedIndices)
  end.

(** [for (const trans of translations)] with its two locals; an element
    of the reply is [None] when it is [null], whose [index] cannot be
    read. *)
Fixpoint mapLoop (segments : list TranscriptSegment)
    (translations : list (option Translation))
    (usedIndices : list value) (result : list TranscriptSegment)
    : outcome (list TranscriptSegment) :=
  match translations with
  | [] => Ok result
  | None :: _ => Throw TypeError
  | Some trans :: rest =>
      let originalIndex := index trans in
      if accepted segments usedIndices originalIndex then
        match at_index segments originalIndex with
        | Some original =>
            mapLoop segments rest (originalIndex :: usedIndices)
              (result ++ [{| start := start original;
                             end_ := end_ original;
                             text := translated trans |}])
        | None => Throw TypeError
        end
      else mapLoop segments rest usedIndices result
  end.

(** The mapping and the final sort. *)
Definition mapTranslations (segments : list TranscriptSegment)
    (translations : list (option Translation)) : outcome (list TranscriptSegment) :=
  match mapLoop segments translations [] [] with
  | Ok result => Ok (JS.sort start result)
  | Throw e => Throw e
  | Hang => Hang
  end.

(** [translateTranscript], from the reply on: [reply] is the array found
    in the model's text, [None] when there is none.  Whatever is thrown
    inside the [try] is rethrown wrapped. *)
Definition translateTranscript (segments : list TranscriptSegment)
    (reply : option (list (option Translation)))
    : outcome (list TranscriptSegment) :=
  match reply with
  | None => Throw (GeminiTranslationFailed NoJsonArray)
  | Some translations =>
      match mapTranslations segments translations with
      | Ok result => Ok result
      | Throw e => Throw (GeminiTranslationFailed e)
      | Hang => Hang
      end
  end.

End Mapper.
End Gemini.

(** [interface TranscriptSegment { start; end; text }] *)
Record TranscriptSegment : Type := mkSegment {
  start : float;
  end_ : float;
  text : string
}.

(** *** Segment Merger *)

Module Youtube.

(** One element of [subData.events] of the json3 subtitle file, with the
    times in milliseconds. *)
Record Event : Type := mkEvent {
  segs : option (list Youtube.Seg);
  tStartMs : option float;
  dDurationMs : option float
}.

(** One iteration of [for (const event of subData.events)]. *)
Definition parse_step (segments : list TranscriptSegment) (event : Event)
    : list TranscriptSegment :=
  match segs event, tStartMs event with
  | Some eventSegs, Some startMs =>
      let durationMs := F64.or_zero (dDurationMs event) in
      let text := Utf8.trim (Youtube.eventText eventSegs) in
      if String.eqb text "" || String.eqb text (String "010" "") then segments
      else segments ++ [{| start := (startMs / 1000)%float;
                           end_ := ((startMs + durationMs) / 1000)%float;
                           text := text |}]
  | _, _ => segments
  end.

(** The fragments read from the subtitle data; [events] is [None] when
    [subData.events] is absent. *)
Definition parseEvents (events : option (list Event)) : list TranscriptSegment :=
  match events with
  | Some evs => foldl parse_step [] evs
  | None => []
  end.

(** One iteration of [for (const seg of segments)]: the state is
    [mergedSegments] and [currentSegment]. *)
Definition merge_step (st : list TranscriptSegment * option TranscriptSegment)
    (seg : TranscriptSegment) : list TranscriptSegment * option TranscriptSegment :=
  match st.2 with
  | None => (st.1, Some seg)
  | Some currentSegment =>
      let gap := (start seg - end_ currentSegment)%float in
      let combinedDuration := (end_ seg - start currentSegment)%float in
      if F64.ltb gap 0.3 && F64.ltb combinedDuration 10 then
        (st.1, Some {| start := start currentSegment;
                       end_ := end_ seg;
                       text := text currentSegment +:+ " " +:+ text seg |})
      else (st.1 ++ [currentSegment], Some seg)
  end.

Definition mergeSegments (segments : list TranscriptSegment) : list TranscriptSegment :=
  let st := foldl merge_step ([], None) segments in
  match st.2 with
  | Some currentSegment => st.1 ++ [currentSegment]
  | None => st.1
  end.

(** What [getYouTubeTranscript] returns for the subtitle data it read. *)
Definition getYouTubeTranscript (events : option (list Event)) : list TranscriptSegment :=
  mergeSegments (parseEvents events).

End Youtube.

(** *** Files and child processes *)

(** What a path names. *)
Inductive node (A : Type) : Type :=
| File (content : A)
| Folder.
Arguments File {A} content.
Arguments Folder {A}.

(** What a promise does. *)
Inductive reply (X : Type) : Type :=
| Returns (x : X)
| Rejects
| Never.
Arguments Returns {X} x.
Arguments Rejects {X}.
Arguments Never {X}.

(** What [spawnSync] of the audio utility with [-y outputPath] does: exit
    status 0 with the output written; another status (or no status) with
    whatever the process left at the output path, if anything; or a child
    that never exits. *)
Inductive exit (A : Type) : Type :=
| Exit0 (output : A)
| ExitN (left : option A)
| NoExit.
Arguments Exit0 {A} output.
Arguments ExitN {A} left.
Arguments NoExit {A}.

(** ffprobe and the tempo filter of ffmpeg, over an abstract type [A] of
    file contents.  [ffprobe] gives [metadata.format.duration], [None] when
    the property is absent; the stages of [atempo] are in 1/10000. *)
Record Tools (A : Type) : Type := mkTools {
  ffprobe : A -> reply (option float);
  atempo : list Z -> A -> exit A
}.
Arguments ffprobe {A}.
Arguments atempo {A}.

(** The directory a path lies in: what comes before its last separator;
    [None] for a bare name, which lies in the working directory. *)
Fixpoint parent (p : string) : option string :=
  match p with
  | EmptyString => None
  | String c p' =>
      match parent p' with
      | Some d => Some (String c d)
      | None => if Ascii.eqb c "/" then Some EmptyString else None
      end
  end.

(** A file can be created or replaced at [p]: its directory exists (the
    working directory and the root always do) and [p] is no directory. *)
Definition writable {A : Type} (fs : gmap string (node A)) (p : string) : bool :=
  match parent p with
  | None | Some EmptyString => true
  | Some d => match fs !! d with Some Folder => true | _ => false end
  end
  && match fs !! p with Some Folder => false | _ => true end.

(** A computation over the file system. *)
Definition io (A X : Type) : Type :=
  gmap string (node A) -> outcome X * gmap string (node A).

Module IO.
Section Monad.
Context {A : Type}.

Definition ret {X} (x : X) : io A X := fun fs => (Ok x, fs).

Definition bind {X Y} (m : io A X) (k : X -> io A Y) : io A Y :=
  fun fs =>
    match m fs with
    | (Ok x, fs') => k x fs'
    | (Throw e, fs') => (Throw e, fs')
    | (Hang, fs') => (Hang, fs')
    end.

Definition throw {X} (e : exn) : io A X := fun fs => (Throw e, fs).

(** [try { m } catch {}] *)
Definition attempt (m : io A unit) : io A unit :=
  fun fs =>
    match m fs with
    | (Throw _, fs') => (Ok tt, fs')
    | r => r
    end.

Definition existsSync (p : string) : io A bool :=
  fun fs => (Ok (bool_decide (is_Some (fs !! p))), fs).

(** Copying a file onto itself changes nothing. *)
Definition copyFileSync (src dst : string) : io A unit :=
  fun fs =>
    match fs !! src with
    | Some (File c) =>
        if writable fs dst then (Ok tt, <[dst := File c]> fs)
        else (Throw (match fs !! dst with Some Folder => EISDIR dst | _ => ENOENT dst end), fs)
    | Some Folder => (Throw (EISDIR src), fs)
    | None => (Throw (ENOENT src), fs)
    end.

Definition unlinkSync (p : string) : io A unit :=
  fun fs =>
    match fs !! p with
    | Some (File _) => (Ok tt, delete p fs)
    | Some Folder => (Throw (EISDIR p), fs)
    | None => (Throw (ENOENT p), fs)
    end.
End Monad.
End IO.

Declare Scope runtime_scope.
Notation "x <~ c1 ;; c2" := (IO.bind c1 (fun x => c2))
  (at level 100, c1 at next level, right associativity) : runtime_scope.
Notation "c1 ;;; c2" := (IO.bind c1 (fun _ => c2))
  (at level 100, right associativity) : runtime_scope.
Local Open Scope runtime_scope.

(** *** Timing Resolver *)

(** A unit with the clip synthesized for it: [{ ...segment, audioPath }]. *)
Record Clip : Type := mkClip {
  unit_ : TranscriptSegment;
  audioPath : string
}.

(** An element of [adjustedSegments]: the clip spread, with [audioPath]
    overwritten by [adjustedPath]. *)
Record Adjusted : Type := mkAdjusted {
  source : TranscriptSegment;
  adjustedPath : string;
  originalPath : string;
  wasAdjusted : bool;
  audioDuration : float;
  exactStart : float
}.

Module Tts.

Section Engine.
Context {A : Type} (E : Tools A).

(** [getAudioDuration]: [metadata.format.duration || 0], or the error of
    ffprobe, which also rejects a path that names no file. *)
Definition getAudioDuration (filePath : string) : io A float :=
  fun fs =>
    match fs !! filePath with
    | Some (File a) =>
        match ffprobe E a with
        | Returns duration => (Ok (F64.or_zero duration), fs)
        | Rejects => (Throw (ProbeFailed filePath), fs)
        | Never => (Hang, fs)
        end
    | _ => (Throw (ProbeFailed filePath), fs)
    end.

(** [spawnSync(FFMPEG_PATH, ['-i', input, '-filter:a', chain, '-y', output])]:
    whether the status is 0.  ffmpeg refuses to write onto its input, and
    fails when it cannot open the input or create the output. *)
Definition ffmpeg_atempo (inputPath : string) (chain : list Z) (outputPath : string)
    : io A bool :=
  fun fs =>
    match fs !! inputPath with
    | Some (File a) =>
        if String.eqb inputPath outputPath || negb (writable fs outputPath)
        then (Ok false, fs)
        else
          match atempo E chain a with
          | Exit0 a' => (Ok true, <[outputPath := File a']> fs)
          | ExitN (Some junk) => (Ok false, <[outputPath := File junk]> fs)
          | ExitN None => (Ok false, fs)
          | NoExit => (Hang, fs)
          end
    | _ => (Ok false, fs)
    end.

(** [adjustAudioSpeed].  The chain is built from the exact value of the
    quotient: halving a double above 2.0 is exact, and the tests and
    [toFixed(4)] read the value.  With an infinite quotient the loop pushes
    until the array cannot grow, and [push] throws. *)
Definition adjustAudioSpeed (inputPath outputPath : string) (targetDuration : float)
    : io A unit :=
  actualDuration <~ getAudioDuration inputPath ;;
  if F64.leb actualDuration targetDuration then IO.copyFileSync inputPath outputPath
  else
    let speedFactor := (actualDuration / targetDuration)%float in
    match Tts.atempoFilters (F64.value speedFactor) with
    | None => IO.throw RangeError
    | Some [] => IO.copyFileSync inputPath outputPath
    | Some chain =>
        ok <~ ffmpeg_atempo inputPath chain outputPath ;;
        if negb ok then IO.copyFileSync inputPath outputPath else IO.ret tt
    end.

(** The time unit [i] of [sortedSegments] has before the next one starts. *)
Definition availableTime (sortedSegments : list Clip) (i : nat) (segment : Clip) : float :=
  let targetDuration := (end_ (unit_ segment) - start (unit_ segment))%float in
  if (S i <? length sortedSegments)%nat then
    match sortedSegments !! S i with
    | Some next =>
        let nextStart := start (unit_ next) in
        F64.max (F64.min targetDuration (nextStart - start (unit_ segment))%float) 0.5
    | None => targetDuration
    end
  else targetDuration.

(** The body of the timing loop of [stitchAudioWithTiming] for position
    [i]; [None] when the clip's file is missing and the unit is skipped. *)
Definition resolveSegment (sortedSegments : list Clip) (i : nat) (segment : Clip)
    : io A (option Adjusted) :=
  present <~ IO.existsSync (audioPath segment) ;;
  if negb present then IO.ret None
  else
    ttsDuration <~ getAudioDuration (audioPath segment) ;;
    let availableTime := availableTime sortedSegments i segment in
    r <~ (if F64.ltb availableTime ttsDuration then
            let speedFactor := (ttsDuration / availableTime)%float in
            let adjustedPath := JS.replace ".mp3" "_adjusted.mp3" (audioPath segment) in
            if F64.leb speedFactor 3.0 then
              adjustAudioSpeed (audioPath segment) adjustedPath availableTime ;;;
              finalDuration <~ getAudioDuration adjustedPath ;;
              IO.ret (adjustedPath, finalDuration)
            else
              let cappedDuration := (ttsDuration / 3.0)%float in
              adjustAudioSpeed (audioPath segment) adjustedPath cappedDuration ;;;
              finalDuration <~ getAudioDuration adjustedPath ;;
              IO.ret (adjustedPath, finalDuration)
          else IO.ret (audioPath segment, ttsDuration)) ;;
    IO.ret (Some {| source := unit_ segment;
                    adjustedPath := r.1;
                    originalPath := audioPath segment;
                    wasAdjusted := negb (String.eqb r.1 (audioPath segment));
                    audioDuration := r.2;
                    exactStart := start (unit_ segment) |}).

(** [for (const segment of adjustedSegments) if (segment.wasAdjusted) try { unlink } catch {}] *)
Fixpoint cleanupAdjusted (adjustedSegments : list Adjusted) : io A unit :=
  match adjustedSegments with
  | [] => IO.ret tt
  | segment :: rest =>
      (if wasAdjusted segment then IO.attempt (IO.unlinkSync (adjustedPath segment))
       else IO.ret tt) ;;;
      cleanupAdjusted rest
  end.

End Engine.
End Tts.

End Runtime.

(** ** Vocabulary and concrete runs of the engine's reading *)

Module Rt.

(** What [adjustAudioSpeed] leaves at the output path for a clip [a] and
    the chain it built: the compressed clip, or a copy of [a] when the chain
    is empty or ffmpeg exits with a non-zero status (whatever that run left
    behind is overwritten); nothing when ffmpeg does not exit. *)
Definition compressed {A : Type} (E : Runtime.Tools A) (chain : list Z) (a : A) : option A :=
  match chain with
  | [] => Some a
  | _ :: _ =>
      match Runtime.atempo E chain a with
      | Runtime.Exit0 a' => Some a'
      | Runtime.ExitN _ => Some a
      | Runtime.NoExit => None
      end
  end.


Definition sorted_by_start (l : list Runtime.TranscriptSegment) : Prop :=
  StronglySorted (fun a b => F64.leb (Runtime.start a) (Runtime.start b) = true) l.

(** A group of consecutive fragments: its first fragment and the others. *)
Definition group : Type := Runtime.TranscriptSegment * list Runtime.TranscriptSegment.

Definition fragments (g : group) : list Runtime.TranscriptSegment := g.1 :: g.2.

(** The last fragment of a group. *)
Definition closing (g : group) : Runtime.TranscriptSegment := List.last g.2 g.1.

(** The unit a group stands for: from the start of its first fragment to
    the end of its last, the texts joined by single spaces. *)
Definition merged_unit (g : group) : Runtime.TranscriptSegment :=
  {| Runtime.start := Runtime.start g.1;
     Runtime.end_ := Runtime.end_ (closing g);
     Runtime.text := String.concat " " (map Runtime.text (fragments g)) |}.

(** The merge test for fragment [b] arriving after fragment [a] in a unit
    that started with [h]: the gap and the span as the doubles the code
    subtracts, against the doubles [0.3] and [10]. *)
Definition joins (h a b : Runtime.TranscriptSegment) : bool :=
  F64.ltb (Runtime.start b - Runtime.end_ a)%float 0.3
  && F64.ltb (Runtime.end_ b - Runtime.start h)%float 10.

(** Every two adjacent fragments of the group passed the merge test. *)
Fixpoint joined_from (h a : Runtime.TranscriptSegment) (rest : list Runtime.TranscriptSegment)
    : Prop :=
  match rest with
  | [] => True
  | b :: rest' => joins h a b = true /\ joined_from h b rest'
  end.

Definition joined (g : group) : Prop := joined_from g.1 g.1 g.2.

(** Between two consecutive groups the merge test failed. *)
Fixpoint split_between (gs : list group) : Prop :=
  match gs with
  | g1 :: ((g2 :: _) as gs') =>
      joins g1.1 (closing g1) g2.1 = false /\ split_between gs'
  | _ => True
  end.

(** The grouping the merging loop goes through, with the open group
    [(h, t)] and the fragments still to come. *)
Fixpoint group_from (h : Runtime.TranscriptSegment) (t : list Runtime.TranscriptSegment)
    (segments : list Runtime.TranscriptSegment) : list group :=
  match segments with
  | [] => [(h, t)]
  | s :: rest =>
      if joins h (closing (h, t)) s then group_from h (t ++ [s]) rest
      else (h, t) :: group_from s [] rest
  end.

(** The units of a list do not overlap: each ends before the next starts. *)
Fixpoint non_overlapping (l : list Runtime.TranscriptSegment) : Prop :=
  match l with
  | u :: ((v :: _) as l') =>
      F64.leb (Runtime.end_ u) (Runtime.start v) = true /\ non_overlapping l'
  | _ => True
  end.

(** The index of a reply element is absent or a natural number. *)
Definition natural_index (v : Runtime.Gemini.value) : Prop :=
  v = Runtime.Gemini.Undefined \/
  exists q, v = Runtime.Gemini.Number (JS.Fin q) /\ inject_Z (Qfloor q) == q /\ 0 <= q.

(** Every element of the reply is an object whose index is absent or a
    natural number. *)
Definition natural_indices (translations : list (option Runtime.Gemini.Translation)) : Prop :=
  Forall (fun t => exists trans, t = Some trans /\ natural_index (Runtime.Gemini.index trans))
    translations.

(** On a reply whose indices are natural numbers the mapper looks at
    nothing but the array index each element denotes. *)
Definition denoted (t : option Runtime.Gemini.Translation) : Gemini.Translation :=
  match t with
  | Some trans =>
      Gemini.mkTranslation
        (Z.of_nat <$> Runtime.Gemini.elementIndex (Runtime.Gemini.index trans))
        (Runtime.Gemini.translated trans)
  | None => Gemini.mkTranslation None ""
  end.

Definition denoted_set (usedIndices : list Runtime.Gemini.value) : gset Z :=
  list_to_set (omap (fun v => Z.of_nat <$> Runtime.Gemini.elementIndex v) usedIndices).

(** The text the reply gives first for the array index [k]. *)
Definition first_text (translations : list (option Runtime.Gemini.Translation)) (k : nat)
    : option string :=
  match List.find (fun t => match t with
                            | Some trans =>
                                bool_decide (Runtime.Gemini.elementIndex
                                               (Runtime.Gemini.index trans) = Some k)
                            | None => false
                            end) translations with
  | Some (Some trans) => Some (Runtime.Gemini.translated trans)
  | _ => None
  end.

(** Unit [u] is input unit [k] with the first text given for [k]. *)
Definition translates (segments : list TranscriptSegment)
    (translations : list (option Runtime.Gemini.Translation)) (k : nat)
    (u : TranscriptSegment) : Prop :=
  exists original txt,
    segments !! k = Some original /\
    first_text translations k = Some txt /\
    u = {| start := start original; end_ := end_ original; text := txt |}.

(** A reply element with the number [k] as its index. *)
Definition entry (k : Z) (text : string) : option Runtime.Gemini.Translation :=
  Some (Runtime.Gemini.mkTranslation (Runtime.Gemini.Number (JS.Fin (inject_Z k))) text).

(** Scenario C: the reply gives index 2 twice and leaves index 1 out. *)
Definition reply_C : list (option Runtime.Gemini.Translation) :=
  [entry 2 "C"; entry 0 "A"; entry 2 "C again"].

(** A complete reply, out of order and with a repeated and a foreign index. *)
Definition reply_full : list (option Runtime.Gemini.Translation) :=
  [entry 1 "B"; entry 2 "C"; entry 7 "X"; entry 0 "A"; entry 1 "B again"].

(** The conversion of a string to a number in the test runs: right on the
    decimal numerals without sign, and on strings that hold a character no
    numeric literal holds; the test runs use no other string. *)
Definition numeral (s : string) : JS.number :=
  match s, Runtime.Gemini.digits 0 s with
  | String _ _, Some n => JS.Fin (inject_Z (Z.of_nat n))
  | _, _ => JS.NaN
  end.

(** The audio utility of the test runs: audio content is its duration; the
    compressor divides it by each stage of the chain. *)
Definition stage_factor (stage : Z) : float :=
  (PrimFloat.of_uint63 (Uint63Axioms.of_Z stage) / 10000)%float.

Definition exact : Runtime.Tools float := {|
  Runtime.ffprobe := fun a => Runtime.Returns (Some a);
  Runtime.atempo := fun chain a =>
    Runtime.Exit0 (foldl (fun d stage => (d / stage_factor stage)%float) a chain)
|}.

(** The compressor fails and leaves a truncated output behind. *)
Definition stuck : Runtime.Tools float := {|
  Runtime.ffprobe := Runtime.ffprobe exact;
  Runtime.atempo := fun _ _ => Runtime.ExitN (Some 0%float)
|}.

(** Scenario B: a one-second unit whose clip lasts four seconds, and a
    successor that starts at 1.2s. *)
Definition tight : list Runtime.Clip :=
  [Runtime.mkClip (Runtime.mkSegment 0 1 "a") "d/V_segment_0.mp3";
   Runtime.mkClip (Runtime.mkSegment 1.2 3 "b") "d/V_segment_1.mp3"].

Definition tight_files : gmap string (Runtime.node float) :=
  <["d" := Runtime.Folder]>
    (<["d/V_segment_0.mp3" := Runtime.File 4%float]>
       (<["d/V_segment_1.mp3" := Runtime.File 1%float]> ∅)).

(** A last unit from 2.0s to 2.3s with a clip of 0.3s: the window is
    computed as 0.29999999999999982. *)
Definition brim : list Runtime.Clip :=
  [Runtime.mkClip (Runtime.mkSegment 2 2.3 "c") "d/V_segment_0.mp3"].


(** Three overlapping caption fragments, as automatic captions have them. *)
Definition rolling : list Runtime.TranscriptSegment :=
  [Runtime.mkSegment 0 4 "a"; Runtime.mkSegment 3.5 8 "b"; Runtime.mkSegment 7.5 11 "c"].

(** Two fragments 300 ms apart. *)
Definition apart : list Runtime.TranscriptSegment :=
  [Runtime.mkSegment 1 2 "a"; Runtime.mkSegment 2.3 3 "b"].

End Rt.

(** * Properties *)

(** ** JavaScript numbers and strings *)

Lemma ltb_lt (x y : Q) : JS.ltb x y = true <-> x < y.
Proof. unfold JS.ltb, Qlt. apply Z.ltb_lt. Qed.

Lemma leb_le (x y : Q) : JS.leb x y = true <-> x <= y.
Proof. unfold JS.leb, Qle. apply Z.leb_le. Qed.

Lemma ltb_ge (x y : Q) : JS.ltb x y = false <-> y <= x.
Proof. unfold JS.ltb, Qle. rewrite Z.ltb_ge. reflexivity. Qed.

Lemma leb_gt (x y : Q) : JS.leb x y = false <-> y < x.
Proof. unfold JS.leb, Qlt. rewrite Z.leb_gt. reflexivity. Qed.

Section SortFacts.
Context {T : Type} (key : T -> Q).

Lemma sort_insert_perm (x : T) (l : list T) : JS.sort_insert key x l ≡ₚ x :: l.
Proof.
  induction l as [|y l IH]; simpl; [done|].
  destruct (JS.leb (key x) (key y)); [done|].
  rewrite IH. apply Permutation_swap.
Qed.

Lemma sort_perm (l : list T) : JS.sort key l ≡ₚ l.
Proof.
  induction l as [|x l IH]; simpl; [done|].
  rewrite sort_insert_perm. by rewrite IH.
Qed.

Lemma sort_insert_sorted (x : T) (l : list T) :
  StronglySorted (fun a b => key a <= key b) l ->
  StronglySorted (fun a b => key a <= key b) (JS.sort_insert key x l).
Proof.
  induction 1 as [|y l Hl IH Hy]; simpl.
  - repeat constructor.
  - destruct (JS.leb (key x) (key y)) eqn:Hxy.
    + apply leb_le in Hxy. constructor; [by constructor|].
      constructor; [done|].
      eapply Forall_impl; [exact Hy|]. intros z Hz. simpl in Hz.
      by eapply Qle_trans.
    + apply leb_gt in Hxy. constructor; [done|].
      rewrite sort_insert_perm. constructor; [by apply Qlt_le_weak | done].
Qed.

Lemma sort_sorted (l : list T) :
  StronglySorted (fun a b => key a <= key b) (JS.sort key l).
Proof.
  induction l as [|x l IH]; simpl; [constructor|]. by apply sort_insert_sorted.
Qed.

Lemma sort_length (l : list T) : length (JS.sort key l) = length l.
Proof. apply Permutation_length, sort_perm. Qed.
End SortFacts.

(** ** Segment Merger *)

Lemma append_assoc3 (a b c : string) : (a +:+ b) +:+ c = a +:+ (b +:+ c).
Proof.
  induction a as [|x a IH]; [done|].
  change (String x ((a +:+ b) +:+ c) = String x (a +:+ (b +:+ c))). by rewrite IH.
Qed.

Lemma concat_snoc (l : list string) (x : string) :
  l <> [] -> String.concat " " (l ++ [x]) = String.concat " " l +:+ " " +:+ x.
Proof.
  induction l as [|y l IH]; [done|]. intros _.
  destruct l as [|z l]; [done|].
  change (String.concat " " ((y :: z :: l) ++ [x]))
    with (y +:+ " " +:+ String.concat " " ((z :: l) ++ [x])).
  rewrite IH by done.
  change (String.concat " " (y :: z :: l)) with (y +:+ " " +:+ String.concat " " (z :: l)).
  by rewrite !append_assoc3.
Qed.

Lemma closing_snoc (h s : TranscriptSegment) (t : list TranscriptSegment) :
  closing (h, t ++ [s]) = s.
Proof. unfold closing. simpl. apply last_last. Qed.

Lemma merged_unit_snoc (h s : TranscriptSegment) (t : list TranscriptSegment) :
  merged_unit (h, t ++ [s]) =
  {| start := start (merged_unit (h, t));
     end_ := end_ s;
     text := text (merged_unit (h, t)) +:+ " " +:+ text s |}.
Proof.
  unfold merged_unit, fragments. rewrite closing_snoc. cbn [fst snd start end_ text].
  f_equal. rewrite app_comm_cons, map_app. by apply concat_snoc.
Qed.

Lemma merged_unit_single (s : TranscriptSegment) : merged_unit (s, []) = s.
Proof. by destruct s. Qed.

(** [merge_step] on an open group is the merge test of the vocabulary. *)
Lemma merge_step_group (merged : list TranscriptSegment) (h s : TranscriptSegment)
    (t : list TranscriptSegment) :
  Youtube.merge_step (merged, Some (merged_unit (h, t))) s =
  if joins h (closing (h, t)) s
  then (merged, Some (merged_unit (h, t ++ [s])))
  else (merged ++ [merged_unit (h, t)], Some (merged_unit (s, []))).
Proof.
  unfold Youtube.merge_step, joins. cbn [fst snd].
  change (end_ (merged_unit (h, t))) with (end_ (closing (h, t))).
  change (start (merged_unit (h, t))) with (start h).
  destruct (_ && _).
  - by rewrite merged_unit_snoc.
  - by rewrite merged_unit_single.
Qed.

Lemma merge_loop_groups (segments merged : list TranscriptSegment)
    (h : TranscriptSegment) (t : list TranscriptSegment) :
  let st := foldl Youtube.merge_step (merged, Some (merged_unit (h, t))) segments in
  match st.2 with
  | Some currentSegment => st.1 ++ [currentSegment]
  | None => st.1
  end = merged ++ map merged_unit (group_from h t segments).
Proof.
  revert merged h t. induction segments as [|s rest IH]; intros merged h t; [done|].
  cbn [foldl group_from]. rewrite merge_step_group.
  destruct (joins h (closing (h, t)) s).
  - apply IH.
  - cbn zeta in IH. rewrite IH. by rewrite <- app_assoc.
Qed.

Lemma mergeSegments_groups (s : TranscriptSegment) (rest : list TranscriptSegment) :
  Youtube.mergeSegments (s :: rest) = map merged_unit (group_from s [] rest).
Proof.
  unfold Youtube.mergeSegments. cbn [foldl].
  change (Youtube.merge_step ([], None) s) with (@nil TranscriptSegment, Some s).
  pose proof (merge_loop_groups rest [] s []) as H.
  rewrite merged_unit_single in H. exact H.
Qed.

Lemma group_from_fragments (segments : list TranscriptSegment) (h : TranscriptSegment)
    (t : list TranscriptSegment) :
  concat (map fragments (group_from h t segments)) = h :: t ++ segments.
Proof.
  revert h t. induction segments as [|s rest IH]; intros h t; cbn [group_from].
  - cbn. by rewrite app_nil_r.
  - destruct (joins _ _ _).
    + rewrite IH. by rewrite <- app_assoc.
    + cbn [map concat]. rewrite IH. done.
Qed.

Lemma last_default {T : Type} (l : list T) (x a b : T) :
  List.last (x :: l) a = List.last (x :: l) b.
Proof. revert x. induction l as [|y l IH]; intros x; [done|]. apply (IH y). Qed.

Lemma group_from_heads (segments : list TranscriptSegment) (h : TranscriptSegment)
    (t : list TranscriptSegment) (g : group) :
  In g (group_from h t segments) -> In g.1 (h :: t ++ segments).
Proof.
  intros Hg. rewrite <- group_from_fragments.
  apply in_concat. exists (fragments g). split; [by apply in_map | by left].
Qed.

Lemma sorted_by_start_drop (t rest : list TranscriptSegment) :
  sorted_by_start (t ++ rest) -> sorted_by_start rest.
Proof.
  induction t as [|x t IHt]; [done|]. intros H.
  apply IHt. by apply StronglySorted_inv in H as [? _].
Qed.

Lemma group_from_sorted (segments : list TranscriptSegment) (h : TranscriptSegment)
    (t : list TranscriptSegment) :
  sorted_by_start (h :: t ++ segments) ->
  sorted_by_start (map merged_unit (group_from h t segments)).
Proof.
  revert h t. induction segments as [|s rest IH]; intros h t Hs; cbn [group_from].
  - repeat constructor.
  - destruct (joins _ _ _).
    + apply IH. by rewrite <- app_assoc.
    + cbn [map]. apply StronglySorted_inv in Hs as [Htail Hh].
      constructor.
      * apply (IH s []). by apply sorted_by_start_drop in Htail.
      * apply List.Forall_forall. intros u Hu.
        apply List.in_map_iff in Hu as (g & <- & Hg).
        apply group_from_heads in Hg.
        rewrite List.Forall_forall in Hh. apply (Hh g.1).
        apply in_or_app. by right.
Qed.

(** ** Translation Mapper *)




(** C3 at the input where the code departs from it: an index of 3 or more
    is dropped without effect, but an index of -1 passes the range test
    [originalIndex < segments.length], [segments[-1]] is [undefined], and
    the whole mapping is lost in a TypeError. *)
Theorem negative_index_throws :
  Gemini.translateTranscript Scenario.three_units
    (Some [Gemini.mkTranslation (Some 0%Z) "A"; Gemini.mkTranslation (Some 3%Z) "X"])
  = Ok [mkSegment 0 2 "A"] /\
  Gemini.translateTranscript Scenario.three_units
    (Some [Gemini.mkTranslation (Some 0%Z) "A"; Gemini.mkTranslation (Some (-1)%Z) "X"])
  = Throw (GeminiTranslationFailed TypeError).
Proof. split; reflexivity. Qed.

(** *** The mapping away from negative indices *)

Lemma first_text_skip (t : Gemini.Translation) (rest : list Gemini.Translation) (k : Z) :
  Gemini.index t <> Some k -> first_text (t :: rest) k = first_text rest k.
Proof.
  intros H. unfold first_text. cbn [List.find]. by rewrite bool_decide_eq_false_2.
Qed.

Lemma first_text_here (t : Gemini.Translation) (rest : list Gemini.Translation) (k : Z) :
  Gemini.index t = Some k -> first_text (t :: rest) k = Some (Gemini.translated t).
Proof.
  intros H. unfold first_text. cbn [List.find]. by rewrite bool_decide_eq_true_2.
Qed.

Lemma translates_skip (segments : list TranscriptSegment) (t : Gemini.Translation)
    (rest : list Gemini.Translation) (kept : list Z) (units : list TranscriptSegment) :
  (forall k, k ∈ kept -> Gemini.index t <> Some k) ->
  Forall2 (translates segments rest) kept units ->
  Forall2 (translates segments (t :: rest)) kept units.
Proof.
  intros Hne H. induction H as [|k u kept units (o & txt & Ho & Htxt & ->) _ IH];
    constructor.
  - exists o, txt. split; [done|]. split; [|done].
    rewrite first_text_skip; [done|]. apply Hne. by left.
  - apply IH. intros j Hj. apply Hne. by right.
Qed.

(** The loop keeps, in the order of the reply, the first occurrence of
    every index of [0, N) not used before, and appends its unit. *)
Lemma mapLoop_first_wins (segments : list TranscriptSegment)
    (translations : list Gemini.Translation) (usedIndices : gset Z)
    (result : list TranscriptSegment) :
  non_negative_indices translations ->
  exists (kept : list Z) (units : list TranscriptSegment),
    Gemini.mapLoop segments translations usedIndices result = Ok (result ++ units) /\
    NoDup kept /\
    (forall k, k ∈ kept <->
       (0 <= k < Z.of_nat (length segments))%Z /\ (k ∉ usedIndices) /\
       exists t, t ∈ translations /\ Gemini.index t = Some k) /\
    Forall2 (translates segments translations) kept units.
Proof.
  revert usedIndices result.
  induction translations as [|trans rest IH]; intros used result Hnn.
  - exists [], []. cbn. rewrite app_nil_r. split; [done|]. split; [constructor|].
    split; [|constructor]. intros k. split; [by intros ?%elem_of_nil|].
    by intros (_ & _ & t & ?%elem_of_nil & _).
  - assert (non_negative_indices rest) as Hrest.
    { intros t k Ht. apply Hnn. by right. }
    cbn [Gemini.mapLoop].
    destruct (Gemini.index trans) as [k|] eqn:Hk.
    + destruct (_ && _) eqn:Hguard.
      * apply andb_true_iff in Hguard as [HltN Hfresh].
        apply Z.ltb_lt in HltN. apply negb_true_iff, bool_decide_eq_false in Hfresh.
        assert (0 <= k)%Z as H0 by (apply (Hnn trans); [by left | done]).
        unfold Gemini.at_index. destruct (0 <=? k)%Z eqn:H0b; [|lia].
        destruct (lookup_lt_is_Some_2 segments (Z.to_nat k)) as [original Ho]; [lia|].
        rewrite Ho.
        destruct (IH ({[k]} ∪ used)
                    (result ++ [{| start := start original; end_ := end_ original;
                                   text := Gemini.translated trans |}]) Hrest)
          as (kept & units & -> & Hnd & Hkept & Hunits).
        exists (k :: kept),
          ({| start := start original; end_ := end_ original;
              text := Gemini.translated trans |} :: units).
        rewrite <- app_assoc.
        split; [done|]. split; [|split].
        -- constructor; [|done]. intros Hin. apply Hkept in Hin as (_ & Hin & _).
           apply Hin. apply elem_of_union. left. by apply elem_of_singleton.
        -- intros j. rewrite elem_of_cons, Hkept. split.
           ++ intros [->|(Hr & Hu & t & Ht & Hj)].
              ** split; [lia|]. split; [done|]. exists trans. split; [by left|done].
              ** split; [done|]. split.
                 { intros ?. apply Hu. apply elem_of_union. by right. }
                 exists t. split; [by right|done].
           ++ intros (Hr & Hu & t & Ht & Hj).
              destruct (decide (j = k)) as [->|Hjk]; [by left|]. right.
              split; [done|]. split.
              { intros [?%elem_of_singleton|?]%elem_of_union; done. }
              apply elem_of_cons in Ht as [->|Ht]; [congruence|]. by exists t.
        -- constructor.
           ++ exists original, (Gemini.translated trans).
              split; [done|]. split; [by apply first_text_here|done].
           ++ apply translates_skip; [|done]. intros j Hj Heq.
              apply Hkept in Hj as (_ & Hj & _). apply Hj.
              apply elem_of_union. left. apply elem_of_singleton. congruence.
      * destruct (IH used result Hrest) as (kept & units & -> & Hnd & Hkept & Hunits).
        exists kept, units. split; [done|]. split; [done|]. split.
        -- intros j. rewrite Hkept. split.
           ++ intros (Hr & Hu & t & Ht & Hj). split; [done|]. split; [done|].
              exists t. split; [by right|done].
           ++ intros (Hr & Hu & t & Ht & Hj). split; [done|]. split; [done|].
              apply elem_of_cons in Ht as [->|Ht]; [|by exists t].
              exfalso. rewrite Hk in Hj. injection Hj as ->.
              apply andb_false_iff in Hguard as [Hge|Hused].
              ** apply Z.ltb_ge in Hge. lia.
              ** apply negb_false_iff, bool_decide_eq_true in Hused. done.
        -- apply translates_skip; [|done]. intros j Hj Heq.
           rewrite Hk in Heq. injection Heq as ->.
           apply Hkept in Hj as (Hr & Hu & _).
           apply andb_false_iff in Hguard as [Hge|Hused].
           ++ apply Z.ltb_ge in Hge. lia.
           ++ apply negb_false_iff, bool_decide_eq_true in Hused. done.
    + destruct (IH used result Hrest) as (kept & units & -> & Hnd & Hkept & Hunits).
      exists kept, units. split; [done|]. split; [done|]. split.
      * intros j. rewrite Hkept. split.
        -- intros (Hr & Hu & t & Ht & Hj). split; [done|]. split; [done|].
           exists t. split; [by right|done].
        -- intros (Hr & Hu & t & Ht & Hj). split; [done|]. split; [done|].
           apply elem_of_cons in Ht as [->|Ht]; [congruence|]. by exists t.
      * apply translates_skip; [|done]. intros j _. by rewrite Hk.
Qed.

(** Scenario C: index 2 comes twice and index 1 is missing; the result
    holds the units of indices 0 and 2, in that order, with the first text
    given for index 2. *)
Example scenario_C :
  Gemini.translateTranscript Scenario.three_units
    (Some [Gemini.mkTranslation (Some 2%Z) "C"; Gemini.mkTranslation (Some 0%Z) "A";
           Gemini.mkTranslation (Some 2%Z) "C again"])
  = Ok [mkSegment 0 2 "A"; mkSegment 4 6 "C"].
Proof. reflexivity. Qed.

(** ** Timing Resolver *)

Section EngineFacts.
Context {A : Type} (E : External A).

Lemma getAudioDuration_audio (fs : gmap string (file A)) (p : string) (a : A) :
  fs !! p = Some (Audio a) -> Tts.getAudioDuration E p fs = (Ok (ffprobe E a), fs).
Proof. intros H. unfold Tts.getAudioDuration. by rewrite H. Qed.

Lemma existsSync_present (fs : gmap string (file A)) (p : string) (c : file A) :
  fs !! p = Some c -> IO.existsSync p fs = (Ok true, fs).
Proof.
  intros H. unfold IO.existsSync. rewrite H.
  by rewrite bool_decide_eq_true_2.
Qed.

Lemma existsSync_absent (fs : gmap string (file A)) (p : string) :
  fs !! p = None -> @IO.existsSync A p fs = (Ok false, fs).
Proof.
  intros H. unfold IO.existsSync. rewrite H.
  rewrite bool_decide_eq_false_2; [done|]. by intros [? ?].
Qed.

End EngineFacts.

(** *** The chain of compression stages *)

Lemma ltb_proper (x x' y y' : Q) : x == x' -> y == y' -> JS.ltb x y = JS.ltb x' y'.
Proof.
  intros Hx Hy. destruct (JS.ltb x' y') eqn:H.
  - apply ltb_lt. apply ltb_lt in H. by rewrite Hx, Hy.
  - apply ltb_ge. apply ltb_ge in H. by rewrite Hx, Hy.
Qed.

Lemma half_floor (q : Q) : 2.0 < q -> (Qfloor (q / 2.0) < Qfloor q)%Z.
Proof.
  intros Hq. rewrite Zlt_Qlt.
  assert (q / 2.0 == q * (1 # 2)) as Hhalf by field.
  assert (2 < q) as Hq2 by (unfold Qlt in *; cbn in *; lia).
  pose proof (Qfloor_le (q / 2.0)) as Hlo.
  pose proof (Qlt_floor q) as Hhi.
  rewrite inject_Z_plus in Hhi. change (inject_Z 1) with 1 in Hhi.
  generalize dependent (inject_Z (Qfloor (q / 2.0))).
  generalize dependent (inject_Z (Qfloor q)).
  generalize dependent (q / 2.0).
  intros h Hhalf lo Hhi hi Hlo. lra.
Qed.

(** The halving loop ends within [Qfloor q] rounds. *)
Lemma halving_total (fuel : nat) (q : Q) :
  (Qfloor q <= Z.of_nat fuel)%Z -> is_Some (Tts.halving fuel q).
Proof.
  revert q. induction fuel as [|fuel IH]; intros q Hfuel; cbn [Tts.halving];
    destruct (JS.ltb 2.0 q) eqn:Hq; try done; apply ltb_lt in Hq.
  - pose proof (Qfloor_resp_le 2.0 q (Qlt_le_weak _ _ Hq)) as H2.
    change (Qfloor 2.0) with 2%Z in H2. lia.
  - pose proof (half_floor q Hq) as Hhalf.
    destruct (IH (q / 2.0)) as [[stages r] ->]; [lia | done].
Qed.

Lemma halving_proper (fuel : nat) (q q' : Q) :
  q == q' ->
  match Tts.halving fuel q, Tts.halving fuel q' with
  | Some (stages, r), Some (stages', r') => stages = stages' /\ r == r'
  | None, None => True
  | _, _ => False
  end.
Proof.
  revert q q'. induction fuel as [|fuel IH]; intros q q' Hq; cbn [Tts.halving];
    rewrite (ltb_proper 2.0 2.0 q q' (Qeq_refl _) Hq); destruct (JS.ltb 2.0 q'); try done.
  assert (q / 2.0 == q' / 2.0) as Hhalf by (by rewrite Hq).
  specialize (IH _ _ Hhalf).
  destruct (Tts.halving fuel (q / 2.0)) as [[stages r]|],
           (Tts.halving fuel (q' / 2.0)) as [[stages' r']|]; try done.
  destruct IH as [-> Hr]. done.
Qed.

Lemma atempoFilters_proper (q q' : Q) :
  q == q' -> Tts.atempoFilters (JS.Fin q) = Tts.atempoFilters (JS.Fin q').
Proof.
  intros Hq. unfold Tts.atempoFilters. rewrite (Qfloor_comp _ _ Hq).
  pose proof (halving_proper (Z.to_nat (Qfloor q')) q q' Hq) as H.
  destruct (Tts.halving _ q) as [[stages r]|], (Tts.halving _ q') as [[stages' r']|];
    try done.
  destruct H as [-> Hr].
  rewrite (ltb_proper 1.0 1.0 r r' (Qeq_refl _) Hr).
  unfold JS.toFixed4. by rewrite Hr.
Qed.

(** For a finite factor the chain is always built. *)
Lemma atempoFilters_finite (q : Q) : is_Some (Tts.atempoFilters (JS.Fin q)).
Proof.
  unfold Tts.atempoFilters.
  destruct (halving_total (Z.to_nat (Qfloor q)) q) as [[stages r] ->]; [lia | done].
Qed.

(** A factor of three is one stage of 2.0 and one of 1.5. *)
Lemma atempoFilters_three (q : Q) :
  q == 3 -> Tts.atempoFilters (JS.Fin q) = Some [20000; 15000]%Z.
Proof. intros Hq. by rewrite (atempoFilters_proper q 3 Hq). Qed.

Lemma div_nonzero (x y : Q) : ~ y == 0 -> JS.div x y = JS.Fin (x / y).
Proof.
  intros Hy. unfold JS.div. destruct (Qeq_bool y 0) eqn:H; [|done].
  by apply Qeq_bool_eq in H.
Qed.

(** A clip that needs more than the speed ceiling has a positive length. *)
Lemma over_ceiling_positive (ttsDuration availableTime : Q) :
  availableTime < ttsDuration ->
  JS.num_leb (JS.div ttsDuration availableTime) Tts.maxSpeedup = false ->
  0 < ttsDuration.
Proof.
  intros Hover Hcap.
  destruct (Qeq_dec availableTime 0) as [H0|H0]; [by rewrite <- H0|].
  rewrite (div_nonzero _ _ H0) in Hcap. cbn [JS.num_leb] in Hcap.
  apply leb_gt in Hcap.
  assert (Tts.maxSpeedup == 3) as H3 by reflexivity. rewrite H3 in Hcap.
  assert (ttsDuration == (ttsDuration / availableTime) * availableTime) as Hmul
    by (field; exact H0).
  destruct (Qlt_le_dec 0 availableTime) as [Hpos|Hneg]; [lra|].
  assert (availableTime < 0) as Hlt by (apply Qle_lteq in Hneg as [?|?]; [done|by symmetry in H]).
  nra.
Qed.

(** *** Derived file names *)

Lemma length_append (a b : string) :
  String.length (a +:+ b) = (String.length a + String.length b)%nat.
Proof.
  induction a as [|c a IH]; [done|].
  change (String c a +:+ b) with (String c (a +:+ b)). cbn [String.length]. by rewrite IH.
Qed.

Lemma prefix_append (pat post : string) : String.prefix pat (pat +:+ post) = true.
Proof.
  induction pat as [|c pat IH]; [by destruct post|].
  change (String c pat +:+ post) with (String c (pat +:+ post)). cbn [String.prefix].
  destruct (ascii_dec c c); [exact IH | done].
Qed.

Lemma prefix_drop (pat s : string) :
  String.prefix pat s = true -> s = pat +:+ JS.drop (String.length pat) s.
Proof.
  revert s. induction pat as [|c pat IH]; intros s H; [done|].
  destruct s as [|d s]; [done|]. cbn [String.prefix] in H.
  destruct (ascii_dec c d) as [->|]; [|done].
  cbn [String.length JS.drop].
  change (String d pat +:+ JS.drop (String.length pat) s)
    with (String d (pat +:+ JS.drop (String.length pat) s)).
  f_equal. by apply IH.
Qed.

Lemma replace_here (pat rep s : string) :
  String.prefix pat s = true ->
  JS.replace pat rep s = rep +:+ JS.drop (String.length pat) s.
Proof. intros H. destruct s; cbn [JS.replace]; by rewrite H. Qed.

Lemma replace_later (pat rep : string) (c : ascii) (s : string) :
  String.prefix pat (String c s) = false ->
  JS.replace pat rep (String c s) = String c (JS.replace pat rep s).
Proof. intros H. cbn [JS.replace]. by rewrite H. Qed.

(** Replacing an occurrence changes the length by the difference of the
    lengths of the replacement and of the pattern. *)
Lemma replace_length (pat rep pre post : string) :
  (String.length (JS.replace pat rep (pre +:+ pat +:+ post)) + String.length pat
   = String.length (pre +:+ pat +:+ post) + String.length rep)%nat.
Proof.
  induction pre as [|c pre IH].
  - change ("" +:+ pat +:+ post) with (pat +:+ post).
    rewrite (replace_here _ _ _ (prefix_append pat post)).
    rewrite (prefix_drop pat (pat +:+ post) (prefix_append pat post)) at 2.
    rewrite !length_append. lia.
  - change (String c pre +:+ pat +:+ post) with (String c (pre +:+ pat +:+ post)).
    destruct (String.prefix pat (String c (pre +:+ pat +:+ post))) eqn:H.
    + rewrite (replace_here _ _ _ H). rewrite (prefix_drop _ _ H) at 2.
      rewrite !length_append. lia.
    + rewrite (replace_later _ _ _ _ H). cbn [String.length]. lia.
Qed.

(** The derived name of a path with the extension differs from it. *)
Lemma derived_differs (rep p : string) :
  has_mp3 p -> String.length rep <> 4%nat -> JS.replace ".mp3" rep p <> p.
Proof.
  intros (pre & post & ->) Hrep Heq.
  pose proof (replace_length ".mp3" rep pre post) as H. rewrite Heq in H.
  cbn [String.length] in H. lia.
Qed.

Lemma segment_path_has_mp3 (outputDir videoId : string) (i : nat) :
  has_mp3 (path_join outputDir (segment_name videoId i)).
Proof.
  exists (outputDir +:+ "/" +:+ videoId +:+ "_segment_" +:+ JS.of_nat i), "".
  unfold path_join, segment_name. by rewrite !append_assoc3.
Qed.

(** *** Compression of one clip *)

Section CompressionFacts.
Context {A : Type} (E : External A).

Lemma adjustAudioSpeed_compresses (fs : gmap string (file A)) (inputPath outputPath : string)
    (targetDuration : Q) (a : A) (chain : list Z) :
  fs !! inputPath = Some (Audio a) ->
  targetDuration < ffprobe E a ->
  Tts.atempoFilters (JS.div (ffprobe E a) targetDuration) = Some chain ->
  Tts.adjustAudioSpeed E inputPath outputPath targetDuration fs =
  (Ok tt, <[outputPath := Audio (compressed E chain a)]> fs).
Proof.
  intros Hfile Hover Hchain. unfold Tts.adjustAudioSpeed, IO.bind.
  rewrite (getAudioDuration_audio E _ _ _ Hfile).
  apply leb_gt in Hover. rewrite Hover, Hchain.
  destruct chain as [|stage chain]; cbn [compressed].
  - unfold IO.copyFileSync. by rewrite Hfile.
  - unfold Tts.ffmpeg_atempo. rewrite Hfile.
    destruct (atempo E (stage :: chain) a); cbn [negb]; [done|].
    unfold IO.copyFileSync. by rewrite Hfile.
Qed.

(** The chain exists for the target the resolver chooses, and above the
    ceiling it is the chain of factor three. *)
Lemma compression_chain (ttsDuration availableTime : Q) :
  availableTime < ttsDuration ->
  exists chain : list Z,
    Tts.atempoFilters (JS.div ttsDuration (compression_target ttsDuration availableTime))
    = Some chain /\
    (JS.num_leb (JS.div ttsDuration availableTime) Tts.maxSpeedup = false ->
     chain = [20000; 15000]%Z).
Proof.
  intros Hover. unfold compression_target.
  destruct (JS.num_leb (JS.div ttsDuration availableTime) Tts.maxSpeedup) eqn:Hfits.
  - destruct (JS.div ttsDuration availableTime) as [q| | |] eqn:Hdiv; try done.
    + destruct (atempoFilters_finite q) as [chain Hchain]. by exists chain.
    + by exists [].
  - pose proof (over_ceiling_positive _ _ Hover Hfits) as Hpos.
    assert (Tts.maxSpeedup == 3) as H3 by reflexivity.
    assert (~ ttsDuration / Tts.maxSpeedup == 0) as Hnz.
    { intros H0.
      assert (ttsDuration == (ttsDuration / Tts.maxSpeedup) * 3) as Hmul
        by (unfold Tts.maxSpeedup; field).
      generalize dependent (ttsDuration / Tts.maxSpeedup). intros third. lra. }
    exists [20000; 15000]%Z. split; [|done].
    rewrite (div_nonzero _ _ Hnz). apply atempoFilters_three.
    unfold Tts.maxSpeedup. field. lra.
Qed.

Lemma compression_target_below (ttsDuration availableTime : Q) :
  availableTime < ttsDuration ->
  compression_target ttsDuration availableTime < ttsDuration.
Proof.
  intros Hover. unfold compression_target.
  destruct (JS.num_leb _ _) eqn:Hfits; [done|].
  pose proof (over_ceiling_positive _ _ Hover Hfits) as Hpos.
  assert (ttsDuration / Tts.maxSpeedup == ttsDuration * (1 # 3)) as Hthird
    by (unfold Tts.maxSpeedup; field).
  generalize dependent (ttsDuration / Tts.maxSpeedup). intros third. lra.
Qed.

(** The compressing branch of the timing loop, for the chain built from
    the chosen target. *)
Lemma resolveSegment_compresses (fs : gmap string (file A)) (sortedSegments : list Clip)
    (i : nat) (segment : Clip) (a : A) (chain : list Z) :
  fs !! audioPath segment = Some (Audio a) ->
  Tts.availableTime sortedSegments i segment < ffprobe E a ->
  Tts.atempoFilters
    (JS.div (ffprobe E a)
       (compression_target (ffprobe E a) (Tts.availableTime sortedSegments i segment)))
  = Some chain ->
  let derived := JS.replace ".mp3" "_adjusted.mp3" (audioPath segment) in
  Tts.resolveSegment E sortedSegments i segment fs =
  (Ok (Some {| source := unit_ segment;
               adjustedPath := derived;
               originalPath := audioPath segment;
               wasAdjusted := negb (String.eqb derived (audioPath segment));
               audioDuration := ffprobe E (compressed E chain a);
               exactStart := start (unit_ segment) |}),
   <[derived := Audio (compressed E chain a)]> fs).
Proof.
  intros Hfile Hover Hchain derived.
  pose proof (compression_target_below _ _ Hover) as Hbelow.
  pose proof (adjustAudioSpeed_compresses fs (audioPath segment) derived _ a chain
                Hfile Hbelow Hchain) as Hadjust.
  unfold Tts.resolveSegment, IO.bind.
  rewrite (existsSync_present _ _ _ Hfile). cbn [negb].
  rewrite (getAudioDuration_audio E _ _ _ Hfile).
  apply ltb_lt in Hover. rewrite Hover.
  unfold compression_target in Hadjust. fold derived.
  destruct (JS.num_leb _ _); unfold IO.bind; rewrite Hadjust;
    rewrite (getAudioDuration_audio E _ derived (compressed E chain a))
      by apply lookup_insert_eq; done.
Qed.

End CompressionFacts.

(** *** Cleanup of the derived clips *)

Section CleanupFacts.
Context {A : Type}.

Lemma attempt_unlink (fs : gmap string (file A)) (p : string) :
  IO.attempt (IO.unlinkSync p) fs = (Ok tt, delete p fs).
Proof.
  unfold IO.attempt, IO.try_catch, IO.unlinkSync, IO.ret.
  destruct (fs !! p) eqn:H; [done|]. by rewrite delete_id.
Qed.

(** [cleanupAdjusted] never throws; it removes exactly the derived paths. *)
Lemma cleanupAdjusted_removes (adjustedSegments : list Adjusted) (fs : gmap string (file A)) :
  exists fs' : gmap string (file A),
    Tts.cleanupAdjusted adjustedSegments fs = (Ok tt, fs') /\
    (forall p, In p (derived_paths adjustedSegments) -> fs' !! p = None) /\
    (forall p, ~ In p (derived_paths adjustedSegments) -> fs' !! p = fs !! p).
Proof.
  revert fs. induction adjustedSegments as [|s rest IH]; intros fs.
  - exists fs. by repeat split.
  - cbn [Tts.cleanupAdjusted]. unfold IO.bind, derived_paths.
    destruct (wasAdjusted s) eqn:Hs.
    + rewrite attempt_unlink. rewrite filter_cons_True by done. cbn [map].
      destruct (IH (delete (adjustedPath s) fs)) as (fs' & -> & Hin & Hout).
      exists fs'. split; [done|]. split.
      * intros p Hp. destruct (in_dec string_dec p (derived_paths rest)) as [Hr|Hr];
          [by apply Hin|].
        destruct Hp as [<-|Hp]; [|done].
        rewrite (Hout _ Hr). apply lookup_delete_eq.
      * intros p Hp. rewrite Hout by (intros ?; apply Hp; by right).
        apply lookup_delete_ne. intros Heq. apply Hp. by left.
    + rewrite filter_cons_False by (by rewrite Hs). unfold IO.ret at 1.
      destruct (IH fs) as (fs' & -> & Hin & Hout). by exists fs'.
Qed.


Lemma derived_paths_inv (adjustedSegments : list Adjusted) (p : string) :
  In p (derived_paths adjustedSegments) ->
  exists s, In s adjustedSegments /\ wasAdjusted s = true /\ adjustedPath s = p.
Proof.
  unfold derived_paths. intros Hp. apply List.in_map_iff in Hp as (s & <- & Hs).
  apply list_elem_of_In, list_elem_of_filter in Hs as [Hadj Hs].
  exists s. split; [by apply list_elem_of_In|done].
Qed.

End CleanupFacts.

(** ** Compositor *)

Lemma replace_absent_or_occurs (pat s : string) :
  (forall rep, JS.replace pat rep s = s) \/
  (exists pre post : string, s = pre +:+ pat +:+ post).
Proof.
  induction s as [|c s IH].
  - destruct (String.prefix pat "") eqn:H.
    + right. exists "", (JS.drop (String.length pat) ""). by apply prefix_drop.
    + left. intros rep. cbn [JS.replace]. by rewrite H.
  - destruct (String.prefix pat (String c s)) eqn:H.
    + right. exists "", (JS.drop (String.length pat) (String c s)). by apply prefix_drop.
    + destruct IH as [IH|(pre & post & ->)].
      * left. intros rep. rewrite (replace_later _ _ _ _ H). by rewrite IH.
      * right. by exists (String c pre), post.
Qed.

(** The three names built from the output path are all equal to it, or
    pairwise different. *)
Lemma output_names (outputPath : string) :
  let script := JS.replace ".mp3" "_filter.txt" outputPath in
  let temp := JS.replace ".mp3" "_temp_norm.mp3" outputPath in
  (script = outputPath /\ temp = outputPath) \/
  (script <> outputPath /\ temp <> outputPath /\ script <> temp).
Proof.
  intros script temp. subst script temp.
  destruct (replace_absent_or_occurs ".mp3" outputPath) as [H|(pre & post & ->)].
  - left. by rewrite !H.
  - right.
    pose proof (replace_length ".mp3" "_filter.txt" pre post) as H1.
    pose proof (replace_length ".mp3" "_temp_norm.mp3" pre post) as H2.
    cbn [String.length] in H1, H2.
    repeat split; intros Heq; rewrite Heq in *; lia.
Qed.

Section CompositorFacts.
Context {A : Type} (E : External A).

(** The three ways [normalizeAudio] can end. *)
Lemma normalizeAudio_cases (audioPath : string) (fs : gmap string (file A)) :
  let temp := JS.replace ".mp3" "_temp_norm.mp3" audioPath in
  Tts.normalizeAudio E audioPath fs = (Ok tt, fs) \/
  (exists m' : A,
     temp <> audioPath /\ is_Some (fs !! audioPath) /\
     Tts.normalizeAudio E audioPath fs =
     (Ok tt, <[audioPath := Audio m']> (delete temp (delete audioPath
                                                      (<[temp := Audio m']> fs))))) \/
  (exists m' : A,
     temp = audioPath /\
     Tts.normalizeAudio E audioPath fs =
     (Throw (ENOENT temp), delete audioPath (<[temp := Audio m']> fs))).
Proof.
  intros temp. unfold Tts.normalizeAudio, IO.bind, Tts.ffmpeg_loudnorm. fold temp.
  destruct (fs !! audioPath) as [[m| |]|] eqn:Hfile; try by left.
  destruct (loudnorm E m) as [m'|]; [|by left]. cbn [negb].
  unfold IO.unlinkSync, IO.renameSync.
  destruct (decide (temp = audioPath)) as [Heq|Hne].
  - right. right. exists m'. split; [done|].
    rewrite Heq. rewrite lookup_insert_eq. by rewrite lookup_delete_eq.
  - right. left. exists m'. split; [done|]. split; [done|].
    rewrite lookup_insert_ne by done. rewrite Hfile.
    rewrite lookup_delete_ne by done. by rewrite lookup_insert_eq.
Qed.

(** What the [catch] block of [composite] leaves. *)
Lemma composite_handler (adjustedSegments : list Adjusted) (script : string) (error : exn)
    (fs : gmap string (file A)) :
  exists fs' : gmap string (file A),
    (IO.attempt (IO.unlinkSync script) ;;;
     Tts.cleanupAdjusted adjustedSegments ;;;
     @IO.throw A unit error) fs = (Throw error, fs') /\
    fs' !! script = None /\
    (forall p, In p (derived_paths adjustedSegments) -> fs' !! p = None) /\
    (forall p, p <> script -> ~ In p (derived_paths adjustedSegments) ->
               fs' !! p = fs !! p).
Proof.
  unfold IO.bind. rewrite attempt_unlink.
  destruct (cleanupAdjusted_removes adjustedSegments (delete script fs))
    as (fs' & -> & Hgone & Hkept).
  exists fs'. split; [done|]. split; [|split; [done|]].
  - destruct (in_dec string_dec script (derived_paths adjustedSegments)) as [Hin|Hout];
      [by apply Hgone|].
    rewrite (Hkept _ Hout). apply lookup_delete_eq.
  - intros p Hp Hout. rewrite (Hkept _ Hout). by apply lookup_delete_ne.
Qed.

End CompositorFacts.

Section CompositorProperties.
Context {A : Type} (E : External A).

Lemma ffmpeg_mix_cases (inputs : list string) (script : string) (totalDuration : Q)
    (outputPath : string) (fs : gmap string (file A)) :
  Tts.ffmpeg_mix E inputs script totalDuration outputPath fs = (Ok false, fs) \/
  exists mixed : A,
    Tts.ffmpeg_mix E inputs script totalDuration outputPath fs
    = (Ok true, <[outputPath := Audio mixed]> fs).
Proof.
  unfold Tts.ffmpeg_mix.
  destruct (fs !! script) as [[| delays |]|]; try by left.
  destruct (mapM _ _) as [clips|]; [|by left].
  destruct (amix E _ _) as [mixed|]; [|by left].
  right. by exists mixed.
Qed.


End CompositorProperties.



(** ** The run *)

(** C8: the run does not always abort when no clip survives synthesis.
    Here every synthesis call fails, also the retry, so
    [generateGeorgianAudio] returns the empty list; but the route does not
    look at that list: it collects the clips by testing the expected file
    names, finds the clip an earlier run of the same video left in the
    shared temp directory, goes through the stitch stage and reports a
    DubTrack made of the stale clip. *)
Theorem stale_clip_reaches_composite :
  let run := Route.POST Doubles.mute Scenario.three_units "d" "V" 6 Scenario.stale_files in
  (forall i segment, Scenario.three_units !! i = Some segment ->
                     dropped Doubles.mute i segment) /\
  (Tts.generateGeorgianAudio Doubles.mute Scenario.three_units "d" "V"
     Scenario.stale_files).1 = Ok [] /\
  run.1 = Ok (Route.Done "/temp/V_georgian.mp3") /\
  run.2 !! "d/V_georgian.mp3" = Some (Audio 2).
Proof.
  split; [|split].
  - intros i segment _. right. right. right. split; reflexivity.
  - vm_compute. reflexivity.
  - vm_compute. split; reflexivity.
Qed.

(** ** The history route *)

Lemma startsWith_append (videoId longer suffix : string) :
  String.prefix videoId longer = true ->
  JS.startsWith (longer +:+ suffix) videoId = true.
Proof.
  intros H. unfold JS.startsWith. rewrite (prefix_drop _ _ H).
  rewrite append_assoc3. apply prefix_append.
Qed.

Lemma unlink_loop_keeps_absent (videoId : string) (files : list string)
    (dir : gmap string History.entry) (deleted : list string) (name : string) :
  dir !! name = None ->
  (foldl (History.unlink_step videoId) (dir, deleted) files).1 !! name = None.
Proof.
  revert dir deleted. induction files as [|file rest IH]; intros dir deleted Hname; [done|].
  cbn [foldl]. unfold History.unlink_step at 2. cbn [fst snd].
  destruct (JS.startsWith file _); [|by apply IH].
  destruct (dir !! file) as [[|]|]; try by apply IH.
  apply IH. destruct (decide (file = name)) as [->|Hne];
    [apply lookup_delete_eq | by rewrite lookup_delete_ne].
Qed.

Lemma unlink_loop_removes (videoId : string) (files : list string)
    (dir : gmap string History.entry) (deleted : list string) (name : string) :
  name ∈ files ->
  JS.startsWith name videoId = true ->
  dir !! name = Some History.RegularFile ->
  (foldl (History.unlink_step videoId) (dir, deleted) files).1 !! name = None.
Proof.
  revert dir deleted.
  induction files as [|file rest IH]; intros dir deleted Hin Hstart Hfile.
  - by apply elem_of_nil in Hin.
  - cbn [foldl]. unfold History.unlink_step at 2. cbn [fst snd].
    destruct (decide (name = file)) as [<-|Hne].
    + rewrite Hstart, Hfile. apply unlink_loop_keeps_absent, lookup_delete_eq.
    + apply elem_of_cons in Hin as [?|Hin]; [done|].
      destruct (JS.startsWith file videoId); [|by apply IH].
      destruct (dir !! file) as [[|]|]; try by apply IH.
      apply IH; [done..|]. by rewrite lookup_delete_ne.
Qed.

Lemma rmdir_loop_keeps_absent (videoId : string) (files : list string)
    (dir : gmap string History.entry) (deleted : list string) (name : string) :
  dir !! name = None ->
  (foldl (History.rmdir_step videoId) (dir, deleted) files).1 !! name = None.
Proof.
  revert dir deleted. induction files as [|file rest IH]; intros dir deleted Hname; [done|].
  cbn [foldl]. unfold History.rmdir_step at 2. cbn [fst snd].
  destruct (JS.startsWith file _); [|by apply IH].
  destruct (dir !! file) as [[|]|]; try by apply IH.
  apply IH. destruct (decide (file = name)) as [->|Hne];
    [apply lookup_delete_eq | by rewrite lookup_delete_ne].
Qed.

(** C10: deleting the video [videoId] (the route refuses an empty id)
    removes every regular file of the temp directory whose name starts with
    it, hence the DubTrack, the sidecar and the segment files of any stored
    video whose id [longer] has [videoId] as a prefix. *)
Theorem delete_takes_longer_ids (videoId : string) (dir : gmap string History.entry) :
  videoId <> "" ->
  exists (deletedFiles : list string) (dir' : gmap string History.entry),
    History.DELETE videoId (Some dir) = (History.Success videoId deletedFiles, Some dir') /\
    (forall name : string,
       JS.startsWith name videoId = true ->
       dir !! name = Some History.RegularFile -> dir' !! name = None) /\
    (forall longer name : string,
       String.prefix videoId longer = true ->
       (name = georgian_name longer \/ name = meta_name longer \/
        exists i : nat, name = segment_name longer i) ->
       dir !! name = Some History.RegularFile -> dir' !! name = None).
Proof.
  intros Hid. unfold History.DELETE.
  apply String.eqb_neq in Hid. rewrite Hid.
  eexists _, _. split; [reflexivity|]. cbn [fst snd].
  assert (forall name : string,
            JS.startsWith name videoId = true ->
            dir !! name = Some History.RegularFile ->
            (foldl (History.rmdir_step videoId)
               (foldl (History.unlink_step videoId) (dir, []) (History.readdirSync dir))
               (History.readdirSync dir)).1 !! name = None) as Hgone.
  { intros name Hstart Hfile.
    destruct (foldl (History.unlink_step videoId) (dir, []) (History.readdirSync dir))
      as [dir1 deleted1] eqn:Hloop.
    apply rmdir_loop_keeps_absent.
    replace dir1 with (foldl (History.unlink_step videoId) (dir, [])
                         (History.readdirSync dir)).1 by (by rewrite Hloop).
    apply unlink_loop_removes; [|done..].
    unfold History.readdirSync. apply list_elem_of_fmap.
    exists (name, History.RegularFile). split; [done|]. by apply elem_of_map_to_list. }
  split; [exact Hgone|].
  intros longer name Hprefix Hname. apply Hgone.
  destruct Hname as [->|[->|[i ->]]]; by apply startsWith_append.
Qed.

Lemma delete_takes_longer_ids_witness :
  exists (deletedFiles : list string) (dir' : gmap string History.entry),
    History.DELETE "abc" (Some Scenario.two_videos)
    = (History.Success "abc" deletedFiles, Some dir') /\
    dir' !! "abcd_georgian.mp3" = None /\
    dir' !! "abcd_meta.json" = None /\
    dir' !! "abcd_segment_0.mp3" = None.
Proof.
  destruct (delete_takes_longer_ids "abc" Scenario.two_videos)
    as (deletedFiles & dir' & Hrun & _ & Hlonger).
  - discriminate.
  - exists deletedFiles, dir'. split; [exact Hrun|].
    split; [|split]; apply (Hlonger "abcd"); try reflexivity.
    + left. reflexivity.
    + right. left. reflexivity.
    + right. right. exists 0%nat. reflexivity.
Defined.

(** * Further properties of the code *)

(** ** Caption events and merged units *)

Lemma trimEnd_idempotent (s : string) : JS.trimEnd (JS.trimEnd s) = JS.trimEnd s.
Proof.
  induction s as [|c s IH]; [done|]. cbn [JS.trimEnd].
  destruct (JS.trimEnd s) as [|d t] eqn:Ht.
  - destruct (JS.is_space c) eqn:Hc; [done|]. cbn [JS.trimEnd]. by rewrite Hc.
  - cbn [JS.trimEnd] in IH |- *. by rewrite IH.
Qed.

Lemma trimStart_head (s : string) :
  JS.trimStart s = "" \/
  exists c r, JS.trimStart s = String c r /\ JS.is_space c = false.
Proof.
  induction s as [|c s IH]; [by left|]. cbn [JS.trimStart].
  destruct (JS.is_space c) eqn:Hc; [exact IH|]. right. by exists c, s.
Qed.

Lemma trimEnd_head (c : ascii) (r : string) :
  JS.is_space c = false -> exists t, JS.trimEnd (String c r) = String c t.
Proof.
  intros Hc. cbn [JS.trimEnd]. destruct (JS.trimEnd r) as [|d t].
  - rewrite Hc. by exists "".
  - by exists (String d t).
Qed.

Lemma trim_idempotent (s : string) : JS.trim (JS.trim s) = JS.trim s.
Proof.
  unfold JS.trim. destruct (trimStart_head s) as [->|(c & r & -> & Hc)]; [done|].
  destruct (trimEnd_head c r Hc) as [t Ht]. rewrite Ht.
  cbn [JS.trimStart]. rewrite Hc. rewrite <- Ht. apply trimEnd_idempotent.
Qed.

Lemma parse_step_fragments (segments : list TranscriptSegment) (event : Youtube.Event) :
  Youtube.parse_step segments event = segments \/
  exists startMs durationMs txt,
    Youtube.tStartMs event = Some startMs /\
    (durationMs = 0 \/ Youtube.dDurationMs event = Some durationMs) /\
    txt <> "" /\ txt <> String "010" "" /\ JS.trim txt = txt /\
    Youtube.parse_step segments event =
    segments ++ [{| start := startMs / 1000;
                    end_ := (startMs + durationMs) / 1000;
                    text := txt |}].
Proof.
  unfold Youtube.parse_step.
  destruct (Youtube.segs event) as [eventSegs|]; [|by left].
  destruct (Youtube.tStartMs event) as [startMs|]; [|by left].
  destruct (String.eqb (JS.trim _) "") eqn:H1; [by left|].
  destruct (String.eqb (JS.trim _) (String "010" "")) eqn:H2; [by left|].
  right. cbn [orb]. apply String.eqb_neq in H1, H2.
  pose proof (trim_idempotent (Youtube.eventText eventSegs)) as Htrim.
  destruct (Youtube.dDurationMs event) as [d|]; [destruct (Qeq_bool d 0)|].
  - exists startMs, 0, (JS.trim (Youtube.eventText eventSegs)).
    split; [done|]. split; [by left|]. done.
  - exists startMs, d, (JS.trim (Youtube.eventText eventSegs)).
    split; [done|]. split; [by right|]. done.
  - exists startMs, 0, (JS.trim (Youtube.eventText eventSegs)).
    split; [done|]. split; [by left|]. done.
Qed.

Lemma parse_loop_app (events : list Youtube.Event) (acc : list TranscriptSegment) :
  foldl Youtube.parse_step acc events = acc ++ foldl Youtube.parse_step [] events.
Proof.
  revert acc. induction events as [|event rest IH]; intros acc; cbn [foldl].
  - by rewrite app_nil_r.
  - rewrite (IH (Youtube.parse_step acc event)), (IH (Youtube.parse_step [] event)).
    rewrite app_assoc. f_equal.
    destruct (parse_step_fragments acc event) as [Hacc|(sm & d & txt & _ & _ & _ & _ & _ & Hacc)];
      destruct (parse_step_fragments [] event) as [Hnil|(sm' & d' & txt' & _ & _ & _ & _ & _ & Hnil)];
      unfold Youtube.parse_step in *;
      destruct (Youtube.segs event), (Youtube.tStartMs event); try by rewrite app_nil_r.
    all: destruct (_ || _); [by rewrite app_nil_r | done].
Qed.

(** Where a parsed fragment comes from. *)
Lemma parsed_from_event (events : list Youtube.Event) (f : TranscriptSegment) :
  In f (foldl Youtube.parse_step [] events) ->
  exists event startMs durationMs,
    In event events /\ Youtube.tStartMs event = Some startMs /\
    (durationMs = 0 \/ Youtube.dDurationMs event = Some durationMs) /\
    start f = startMs / 1000 /\ end_ f = (startMs + durationMs) / 1000 /\
    text f <> "".
Proof.
  induction events as [|event rest IH]; [done|]. cbn [foldl].
  rewrite parse_loop_app. intros [Hf|Hf]%in_app_or.
  - destruct (parse_step_fragments [] event)
      as [Heq|(sm & d & txt & Hsm & Hd & Hne & _ & _ & Heq)]; rewrite Heq in Hf; [done|].
    destruct Hf as [<-|[]]. exists event, sm, d. split; [by left|]. done.
  - destruct (IH Hf) as (e & sm & d & He & Hrest). exists e, sm, d. split; [by right|done].
Qed.

Lemma thousandth_le (x y : Q) : x <= y -> x / 1000 <= y / 1000.
Proof. intros H. unfold Qdiv. change (/ 1000) with (1 # 1000). lra. Qed.

Lemma parsed_sorted (events : list Youtube.Event) :
  ordered_events events -> sorted_by_start (foldl Youtube.parse_step [] events).
Proof.
  induction 1 as [|event rest Hrest IH Hfirst]; [constructor|].
  cbn [foldl]. rewrite parse_loop_app.
  destruct (parse_step_fragments [] event)
    as [->|(sm & d & txt & Hsm & _ & _ & _ & _ & ->)]; [done|].
  constructor; [done|]. apply List.Forall_forall. intros f Hf.
  destruct (parsed_from_event rest f Hf) as (e & sm' & d' & He & Hsm' & _ & -> & _).
  cbn [start]. apply thousandth_le.
  rewrite List.Forall_forall in Hfirst. by apply (Hfirst e He).
Qed.

Lemma sorted_by_start_take (l1 l2 : list TranscriptSegment) :
  sorted_by_start (l1 ++ l2) -> sorted_by_start l1.
Proof.
  induction l1 as [|x l1 IH]; [constructor|]. intros H.
  apply StronglySorted_inv in H as [Htail Hx]. constructor; [by apply IH|].
  apply List.Forall_forall. intros y Hy. rewrite List.Forall_forall in Hx.
  apply Hx, in_or_app. by left.
Qed.

Lemma sorted_group (gs : list group) (g : group) :
  sorted_by_start (concat (map fragments gs)) -> In g gs -> sorted_by_start (fragments g).
Proof.
  induction gs as [|g' gs IH]; [done|]. cbn [map concat]. intros Hs [->|Hg].
  - by apply sorted_by_start_take in Hs.
  - apply IH; [|done]. by apply sorted_by_start_drop in Hs.
Qed.

Lemma last_in {T : Type} (t : list T) (h : T) : In (List.last t h) (h :: t).
Proof.
  revert h. induction t as [|x t IH]; intros h; [by left|].
  right. destruct t as [|y t]; [by left|].
  change (List.last (x :: y :: t) h) with (List.last (y :: t) h).
  rewrite (last_default t y h x). apply (IH x).
Qed.

Lemma merged_text_nonempty (g : group) : text g.1 <> "" -> text (merged_unit g) <> "".
Proof.
  destruct g as [h t]. unfold merged_unit, fragments. cbn [fst snd text map].
  intros Hh. destruct t as [|b t]; [done|].
  change (String.concat " " (text h :: map text (b :: t)))
    with (text h +:+ " " +:+ String.concat " " (map text (b :: t))).
  destruct (text h); [done|]. done.
Qed.

(** The transcript handed to the translation: when the caption events are
    in start order and have no negative duration, the units are in start
    order, none ends before it starts and none has an empty text. *)
Theorem transcript_units_well_formed (events : list Youtube.Event) :
  ordered_events events ->
  durations_non_negative events ->
  sorted_by_start (Youtube.getYouTubeTranscript (Some events)) /\
  forall u, In u (Youtube.getYouTubeTranscript (Some events)) ->
            start u <= end_ u /\ text u <> "".
Proof.
  intros Hordered Hdur. unfold Youtube.getYouTubeTranscript, Youtube.parseEvents.
  pose proof (parsed_sorted events Hordered) as Hsorted.
  pose proof (parsed_from_event events) as Hfrom.
  destruct (foldl Youtube.parse_step [] events) as [|s rest] eqn:Hparse.
  { split; [constructor|]. intros u []. }
  rewrite mergeSegments_groups. split; [by apply group_from_sorted|].
  intros u (g & <- & Hg)%List.in_map_iff.
  pose proof (group_from_fragments rest s []) as Hall. cbn [app] in Hall.
  assert (forall f, In f (fragments g) -> In f (s :: rest)) as Hsub.
  { intros f Hf. rewrite <- Hall. apply in_concat. exists (fragments g).
    split; [by apply in_map | done]. }
  assert (sorted_by_start (fragments g)) as Hg_sorted.
  { apply (sorted_group (group_from s [] rest)); [by rewrite Hall | done]. }
  split.
  - unfold merged_unit. cbn [start end_].
    pose proof (last_in g.2 g.1) as Hlast. fold (closing g) in Hlast.
    assert (start g.1 <= start (closing g)) as Hhead.
    { apply StronglySorted_inv in Hg_sorted as [_ Hh].
      destruct Hlast as [<-|Hlast]; [apply Qle_refl|].
      rewrite List.Forall_forall in Hh. by apply Hh. }
    destruct (Hfrom (closing g)) as (e & sm & d & He & _ & Hd & Hs & He' & _).
    { apply Hsub. exact Hlast. }
    eapply Qle_trans; [exact Hhead|]. rewrite Hs, He'. apply thousandth_le.
    assert (0 <= d) as Hd0.
    { destruct Hd as [->|Hd]; [apply Qle_refl | by apply (Hdur e)]. }
    lra.
  - apply merged_text_nonempty.
    destruct (Hfrom g.1) as (_ & _ & _ & _ & _ & _ & _ & _ & Hne); [|done].
    apply Hsub. by left.
Qed.

Lemma transcript_units_well_formed_witness :
  sorted_by_start (Youtube.getYouTubeTranscript (Some Scenario.captions)) /\
  forall u, In u (Youtube.getYouTubeTranscript (Some Scenario.captions)) ->
            start u <= end_ u /\ text u <> "".
Proof.
  apply (transcript_units_well_formed Scenario.captions).
  - repeat constructor; intros x y [= <-] [= <-]; apply leb_le; vm_compute; reflexivity.
  - intros event d [<-|[<-|[<-|[<-|[]]]]] [= <-]; apply leb_le; vm_compute; reflexivity.
Defined.

(** ** Speech Synthesizer *)

Section SynthesizerProperties.
Context {A : Type} (E : External A).

Lemma synthesizeSegment_speakable (outputDir videoId : string) (i : nat)
    (segment : TranscriptSegment) (fs : gmap string (file A)) :
  speakable segment ->
  let cleanText := JS.trim (JS.strip_brackets (text segment)) in
  let fileName := clip_path outputDir videoId i in
  Tts.synthesizeSegment E outputDir videoId i segment fs =
  match toFile E i false cleanText with
  | Some a => (Ok (Some fileName), <[fileName := Audio a]> fs)
  | None =>
      match toFile E i true cleanText with
      | Some a => (Ok (Some fileName), <[fileName := Audio a]> fs)
      | None => (Ok None, fs)
      end
  end.
Proof.
  intros (H1 & H2 & H3) cleanText fileName. unfold Tts.synthesizeSegment.
  apply String.eqb_neq in H1, H2, H3. rewrite H1, H2, H3. cbn [orb].
  fold cleanText. fold (clip_path outputDir videoId i). fold fileName.
  unfold IO.try_catch, IO.bind, Tts.generateSpeechEdge.
  destruct (toFile E i false cleanText); [done|].
  unfold IO.throw at 1. by destruct (toFile E i true cleanText).
Qed.

Lemma synthesizeSegment_outcome (outputDir videoId : string) (i : nat)
    (segment : TranscriptSegment) (fs : gmap string (file A)) :
  Tts.synthesizeSegment E outputDir videoId i segment fs = (Ok None, fs) \/
  exists a, Tts.synthesizeSegment E outputDir videoId i segment fs =
            (Ok (Some (clip_path outputDir videoId i)),
             <[clip_path outputDir videoId i := Audio a]> fs).
Proof.
  destruct (decide (text segment = "")) as [H1|H1].
  { left. unfold Tts.synthesizeSegment. by rewrite H1. }
  destruct (decide (JS.trim (text segment) = "")) as [H2|H2].
  { left. unfold Tts.synthesizeSegment. rewrite H2. by rewrite orb_true_r. }
  destruct (decide (JS.trim (JS.strip_brackets (text segment)) = "")) as [H3|H3].
  { left. unfold Tts.synthesizeSegment. rewrite H3. by destruct (_ || _). }
  rewrite (synthesizeSegment_speakable outputDir videoId i segment fs) by done.
  destruct (toFile E i false _) as [a|]; [right; by exists a|].
  destruct (toFile E i true _) as [a|]; [right; by exists a | by left].
Qed.

(** The synthesis loop from position [i] on: it returns, its files are
    clip paths of positions it went through, they hold audio afterwards, and
    no other path is touched. *)
Lemma generateLoop_outcome (outputDir videoId : string) (i : nat)
    (segments : list TranscriptSegment) (fs : gmap string (file A)) :
  exists (files : list string) (fs' : gmap string (file A)),
    Tts.generateLoop E outputDir videoId i segments fs = (Ok files, fs') /\
    (length files <= length segments)%nat /\
    (forall f, In f files ->
       exists k, (i <= k < i + length segments)%nat /\ f = clip_path outputDir videoId k /\
                 exists a, fs' !! f = Some (Audio a)) /\
    (forall p, (forall k, (i <= k < i + length segments)%nat ->
                          p <> clip_path outputDir videoId k) ->
               fs' !! p = fs !! p) /\
    (forall p a, fs !! p = Some (Audio a) -> exists a', fs' !! p = Some (Audio a')).
Proof.
  revert i fs. induction segments as [|segment rest IH]; intros i fs.
  - exists [], fs. cbn. split; [done|]. split; [lia|]. split; [by intros f []|].
    split; [done|]. intros p a Hp. by exists a.
  - cbn [Tts.generateLoop]. unfold IO.bind.
    destruct (synthesizeSegment_outcome outputDir videoId i segment fs) as [->|[a ->]].
    + destruct (IH (S i) fs) as (files & fs' & -> & Hlen & Hfiles & Hframe & Haudio).
      exists files, fs'. cbn [length]. split; [done|]. split; [lia|]. split; [|split; [|done]].
      * intros f Hf. destruct (Hfiles f Hf) as (k & Hk & Hrest). exists k. split; [lia|done].
      * intros p Hp. apply Hframe. intros k Hk. apply Hp. lia.
    + destruct (IH (S i) (<[clip_path outputDir videoId i := Audio a]> fs))
        as (files & fs' & -> & Hlen & Hfiles & Hframe & Haudio).
      exists (clip_path outputDir videoId i :: files), fs'. cbn [length].
      split; [done|]. split; [lia|]. split; [|split].
      * intros f [<-|Hf].
        -- exists i. split; [lia|]. split; [done|].
           apply (Haudio _ a). apply lookup_insert_eq.
        -- destruct (Hfiles f Hf) as (k & Hk & Hrest). exists k. split; [lia|done].
      * intros p Hp. rewrite Hframe by (intros k Hk; apply Hp; lia).
        apply lookup_insert_ne. intros Heq. apply (Hp i); [lia|done].
      * intros p b Hp. destruct (decide (p = clip_path outputDir videoId i)) as [->|Hne].
        -- apply (Haudio _ a). apply lookup_insert_eq.
        -- apply (Haudio _ b). by rewrite lookup_insert_ne.
Qed.

(** Every file [generateGeorgianAudio] returns is the clip path of one
    of the units and holds audio when the call is over. *)
Theorem synthesized_files_on_disk (segments : list TranscriptSegment)
    (outputDir videoId : string) (fs fs' : gmap string (file A)) (files : list string)
    (f : string) :
  Tts.generateGeorgianAudio E segments outputDir videoId fs = (Ok files, fs') ->
  In f files ->
  exists k a, (k < length segments)%nat /\ f = clip_path outputDir videoId k /\
              fs' !! f = Some (Audio a).
Proof.
  unfold Tts.generateGeorgianAudio. intros Hrun Hf.
  destruct (generateLoop_outcome outputDir videoId 0 segments fs)
    as (files0 & fs0 & Hrun0 & _ & Hfiles & _).
  rewrite Hrun0 in Hrun. injection Hrun as <- <-.
  destruct (Hfiles f Hf) as (k & Hk & -> & a & Ha).
  exists k, a. split; [lia|done].
Qed.




End SynthesizerProperties.

Lemma synthesized_files_on_disk_witness :
  exists k a, (k < 3)%nat /\ "d/V_segment_1.mp3" = clip_path "d" "V" k /\
    (Tts.generateGeorgianAudio Doubles.exact Scenario.three_units "d" "V" ∅).2
      !! "d/V_segment_1.mp3" = Some (Audio a).
Proof.
  apply (synthesized_files_on_disk Doubles.exact Scenario.three_units "d" "V" ∅ _
           ["d/V_segment_0.mp3"; "d/V_segment_1.mp3"; "d/V_segment_2.mp3"]).
  - vm_compute. reflexivity.
  - right. left. reflexivity.
Defined.


(** ** The chain of compression stages *)

Lemma halving_factor (fuel : nat) (q : Q) (stages : list Z) (r : Q) :
  Tts.halving fuel q = Some (stages, r) ->
  q == r * tempo stages /\ 0 < tempo stages /\
  Forall (fun stage => stage = 20000%Z) stages /\
  r <= 2 /\ (1 < q -> 1 < r).
Proof.
  revert q stages r. induction fuel as [|fuel IH]; intros q stages r; cbn [Tts.halving];
    destruct (JS.ltb 2.0 q) eqn:Hq; try done.
  - intros [= <- <-]. apply ltb_ge in Hq.
    assert (q <= 2) by (unfold Qle in *; cbn in *; lia). clear Hq.
    change (tempo []) with 1.
    split; [lra|]. split; [lra|]. split; [constructor|]. split; [done|done].
  - destruct (Tts.halving fuel (q / 2.0)) as [[stages' r']|] eqn:Hrec; [|done].
    intros [= <- <-]. apply ltb_lt in Hq.
    assert (2 < q) as Hq2 by (unfold Qlt in *; cbn in *; lia).
    assert (q / 2.0 == q * (1 # 2)) as Hhalf by field.
    destruct (IH _ _ _ Hrec) as (Hfac & Hpos & Hall & Hle & Hgt).
    cbn [tempo foldr]. fold (tempo stages').
    assert ((20000 # 10000) == 2) as H2 by reflexivity.
    split; [|split; [|split; [|split]]].
    + rewrite H2. rewrite Hhalf in Hfac.
      generalize dependent (tempo stages'). intros P HP Hfac. lra.
    + rewrite H2. generalize dependent (tempo stages'). intros P HP Hfac. lra.
    + by constructor.
    + done.
    + intros _. apply Hgt. rewrite Hhalf. lra.
  - intros [= <- <-]. apply ltb_ge in Hq.
    assert (q <= 2) by (unfold Qle in *; cbn in *; lia). clear Hq.
    change (tempo []) with 1.
    split; [lra|]. split; [lra|]. split; [constructor|]. split; [done|done].
Qed.

Lemma tempo_app (l1 l2 : list Z) : tempo (l1 ++ l2) == tempo l1 * tempo l2.
Proof.
  induction l1 as [|x l1 IH]; cbn [app tempo foldr].
  - fold (tempo l2). lra.
  - fold (tempo (l1 ++ l2)) (tempo l1). rewrite IH. lra.
Qed.

Lemma toFixed4_near (r : Q) :
  inject_Z (JS.toFixed4 r) <= r * 10000 + (1 # 2) /\
  r * 10000 - (1 # 2) < inject_Z (JS.toFixed4 r).
Proof.
  unfold JS.toFixed4.
  pose proof (Qfloor_le (r * 10000 + (1 # 2))) as Hlo.
  pose proof (Qlt_floor (r * 10000 + (1 # 2))) as Hhi.
  rewrite inject_Z_plus in Hhi. change (inject_Z 1) with 1 in Hhi.
  generalize dependent (inject_Z (Qfloor (r * 10000 + (1 # 2)))). intros n Hlo Hhi.
  split; lra.
Qed.

Lemma stage_as_Q (n : Z) : (n # 10000) == inject_Z n * (1 # 10000).
Proof. unfold Qeq, inject_Z. cbn. lia. Qed.

(** Every stage of a chain is a tempo ffmpeg's [atempo] accepts, between
    1.0000 and 2.0000, whatever the speed factor. *)
Theorem chain_stages_in_range (speedFactor : JS.number) (chain : list Z) :
  Tts.atempoFilters speedFactor = Some chain ->
  Forall (fun stage => (10000 <= stage <= 20000)%Z) chain.
Proof.
  destruct speedFactor as [q| | |]; cbn [Tts.atempoFilters]; try done;
    try (intros [= <-]; constructor).
  destruct (Tts.halving _ q) as [[stages r]|] eqn:Hhalving; [|done].
  intros [= <-].
  destruct (halving_factor _ _ _ _ Hhalving) as (_ & _ & Hall & Hle & _).
  apply Forall_app. split.
  - eapply Forall_impl; [exact Hall|]. intros stage ->. lia.
  - destruct (JS.ltb 1.0 r) eqn:Hr; [|constructor].
    apply ltb_lt in Hr. assert (1 < r) as Hr1 by (unfold Qlt in *; cbn in *; lia).
    constructor; [|constructor].
    destruct (toFixed4_near r) as [Hlo Hhi].
    split.
    + assert (inject_Z 9999 < inject_Z (JS.toFixed4 r)) as H.
      { change (inject_Z 9999) with 9999. lra. }
      rewrite <- Zlt_Qlt in H. lia.
    + assert (inject_Z (JS.toFixed4 r) < inject_Z 20001) as H.
      { change (inject_Z 20001) with 20001. lra. }
      rewrite <- Zlt_Qlt in H. lia.
Qed.

Lemma chain_stages_in_range_witness :
  Forall (fun stage => (10000 <= stage <= 20000)%Z) [20000; 20000; 13750]%Z.
Proof.
  apply (chain_stages_in_range (JS.Fin 5.5)). vm_compute. reflexivity.
Defined.

(** For a factor above one the chain is built and its overall tempo is
    the factor up to the rounding of the last stage: within one part in
    twenty thousand.  For a factor of at most one the chain is empty. *)
Theorem chain_tempo_accurate (q : Q) :
  (1 < q ->
   exists chain, Tts.atempoFilters (JS.Fin q) = Some chain /\
                 q * (1 - (1 # 20000)) <= tempo chain /\
                 tempo chain <= q * (1 + (1 # 20000))) /\
  (q <= 1 -> Tts.atempoFilters (JS.Fin q) = Some []).
Proof.
  unfold Tts.atempoFilters.
  destruct (halving_total (Z.to_nat (Qfloor q)) q) as [[stages r] Hhalving]; [lia|].
  rewrite Hhalving.
  destruct (halving_factor _ _ _ _ Hhalving) as (Hfac & Hpos & _ & Hle & Hgt).
  split.
  - intros Hq. specialize (Hgt Hq).
    assert (JS.ltb 1.0 r = true) as Hr.
    { apply ltb_lt. unfold Qlt in *. cbn in *. lia. }
    rewrite Hr. eexists. split; [done|].
    rewrite tempo_app. cbn [tempo foldr]. rewrite stage_as_Q.
    destruct (toFixed4_near r) as [Hlo Hhi].
    generalize dependent (inject_Z (JS.toFixed4 r)). intros n Hlo Hhi.
    generalize dependent (tempo stages). intros P Hfac Hpos.
    split; nra.
  - intros Hq.
    assert (JS.ltb 2.0 q = false) as Hq2.
    { apply ltb_ge. unfold Qle in *. cbn in *. lia. }
    destruct (Z.to_nat (Qfloor q)); cbn [Tts.halving] in Hhalving;
      rewrite Hq2 in Hhalving; injection Hhalving as <- <-.
    all: assert (JS.ltb 1.0 q = false) as ->
           by (apply ltb_ge; unfold Qle in *; cbn in *; lia); done.
Qed.

Lemma chain_tempo_accurate_witness :
  exists chain, Tts.atempoFilters (JS.Fin (7 # 3)) = Some chain /\
                (7 # 3) * (1 - (1 # 20000)) <= tempo chain /\
                tempo chain <= (7 # 3) * (1 + (1 # 20000)).
Proof.
  destruct (chain_tempo_accurate (7 # 3)) as [H _]. apply H.
  apply ltb_lt. vm_compute. reflexivity.
Defined.

(** ** Timing Resolver *)



Section ResolverLoop.
Context {A : Type} (E : External A).

(** The four ways the body of the timing loop can end. *)
Lemma resolveSegment_cases (sortedSegments : list Clip) (i : nat) (segment : Clip)
    (fs : gmap string (file A)) :
  Tts.resolveSegment E sortedSegments i segment fs = (Ok None, fs) \/
  Tts.resolveSegment E sortedSegments i segment fs
  = (Throw (ProbeFailed (audioPath segment)), fs) \/
  (exists e, Tts.resolveSegment E sortedSegments i segment fs = (Ok (Some e), fs) /\
             stands_for e segment) \/
  (exists e x, Tts.resolveSegment E sortedSegments i segment fs
               = (Ok (Some e), <[derived_name (audioPath segment) := Audio x]> fs) /\
               stands_for e segment).
Proof.
  destruct (fs !! audioPath segment) as [c|] eqn:Hfile.
  - destruct c as [a|delays|d].
    + destruct (Qlt_le_dec (Tts.availableTime sortedSegments i segment) (ffprobe E a))
        as [Hover|Hfits].
      * right. right. right.
        destruct (compression_chain (ffprobe E a) _ Hover) as (chain & Hchain & _).
        rewrite (resolveSegment_compresses E fs sortedSegments i segment a chain) by done.
        fold (derived_name (audioPath segment)).
        eexists _, _. split; [reflexivity|].
        unfold stands_for. cbn [source exactStart originalPath wasAdjusted adjustedPath].
        split; [done|]. split; [done|]. split; [done|].
        destruct (String.eqb_spec (derived_name (audioPath segment)) (audioPath segment))
          as [Heq|Hne]; cbn [negb]; [left | right]; done.
      * right. right. left. eexists. split.
        -- unfold Tts.resolveSegment, IO.bind.
           rewrite (existsSync_present _ _ _ Hfile). cbn [negb].
           rewrite (getAudioDuration_audio E _ _ _ Hfile).
           apply ltb_ge in Hfits. rewrite Hfits. unfold IO.ret. cbn [fst snd]. reflexivity.
        -- unfold stands_for. cbn [source exactStart originalPath wasAdjusted adjustedPath].
           rewrite String.eqb_refl. split; [done|]. split; [done|]. split; [done|]. by left.
    + right. left. unfold Tts.resolveSegment, IO.bind.
      rewrite (existsSync_present _ _ _ Hfile). cbn [negb].
      unfold Tts.getAudioDuration. by rewrite Hfile.
    + right. left. unfold Tts.resolveSegment, IO.bind.
      rewrite (existsSync_present _ _ _ Hfile). cbn [negb].
      unfold Tts.getAudioDuration. by rewrite Hfile.
  - left. unfold Tts.resolveSegment, IO.bind. by rewrite (existsSync_absent _ _ Hfile).
Qed.

Lemma resolveLoop_outcome (sortedSegments : list Clip) (i : nat) (todo : list Clip)
    (fs : gmap string (file A)) :
  exists (r : outcome (list Adjusted)) (fs' : gmap string (file A)),
    Tts.resolveLoop E sortedSegments i todo fs = (r, fs') /\
    (forall p, (forall c, In c todo -> p <> derived_name (audioPath c)) ->
               fs' !! p = fs !! p) /\
    match r with
    | Ok adjustedSegments =>
        (length adjustedSegments <= length todo)%nat /\
        Forall (fun e => exists c, In c todo /\ stands_for e c) adjustedSegments /\
        (StronglySorted (fun a b => start (unit_ a) <= start (unit_ b)) todo ->
         sorted_by_anchor adjustedSegments)
    | Throw error => exists c, In c todo /\ error = ProbeFailed (audioPath c)
    | Hang => False
    end.
Proof.
  revert i fs. induction todo as [|segment rest IH]; intros i fs.
  - exists (Ok []), fs. cbn. split; [done|]. split; [done|]. split; [lia|].
    split; constructor.
  - cbn [Tts.resolveLoop]. unfold IO.bind.
    assert (forall (fs1 : gmap string (file A)) p,
              (fs1 = fs \/ exists x, fs1 = <[derived_name (audioPath segment) := Audio x]> fs) ->
              (forall c, In c (segment :: rest) -> p <> derived_name (audioPath c)) ->
              fs1 !! p = fs !! p) as Hstep.
    { intros fs1 p [->|[x ->]] Hp; [done|]. apply lookup_insert_ne.
      intros Heq. apply (Hp segment); [by left | done]. }
    assert (forall (o : option Adjusted) (fs1 : gmap string (file A)),
              (fs1 = fs \/ exists x, fs1 = <[derived_name (audioPath segment) := Audio x]> fs) ->
              match o with Some e => stands_for e segment | None => True end ->
              exists r fs',
                (let (r0, fs2) := Tts.resolveLoop E sortedSegments (S i) rest fs1 in
                 match r0 with
                 | Ok adjustedSegments =>
                     (Ok (match o with
                          | Some a => a :: adjustedSegments
                          | None => adjustedSegments
                          end), fs2)
                 | Throw e => (Throw e, fs2)
                 | Hang => (Hang, fs2)
                 end) = (r, fs') /\
                (forall p, (forall c, In c (segment :: rest) -> p <> derived_name (audioPath c)) ->
                           fs' !! p = fs !! p) /\
                match r with
                | Ok adjustedSegments =>
                    (length adjustedSegments <= length (segment :: rest))%nat /\
                    Forall (fun e => exists c, In c (segment :: rest) /\ stands_for e c)
                      adjustedSegments /\
                    (StronglySorted (fun a b => start (unit_ a) <= start (unit_ b))
                       (segment :: rest) -> sorted_by_anchor adjustedSegments)
                | Throw error =>
                    exists c, In c (segment :: rest) /\ error = ProbeFailed (audioPath c)
                | Hang => False
                end) as Hrest.
    { intros o fs1 Hfs1 Ho.
      destruct (IH (S i) fs1) as (r0 & fs2 & -> & Hframe & Hr0).
      assert (forall p, (forall c, In c (segment :: rest) -> p <> derived_name (audioPath c)) ->
                        fs2 !! p = fs !! p) as Hframe2.
      { intros p Hp. rewrite Hframe by (intros c Hc; apply Hp; by right).
        by apply Hstep. }
      destruct r0 as [adjustedSegments|error|]; [| |done].
      - destruct Hr0 as (Hlen & Hall & Hsorted).
        assert (Forall (fun e => exists c, In c (segment :: rest) /\ stands_for e c)
                  adjustedSegments) as Hall'.
        { eapply Forall_impl; [exact Hall|]. intros e (c & Hc & He). exists c.
          split; [by right | done]. }
        eexists _, _. split; [reflexivity|]. split; [done|].
        destruct o as [e|]; cbn [length] in *.
        + split; [lia|]. split.
          * constructor; [|done]. exists segment. split; [by left | done].
          * intros Hs. apply StronglySorted_inv in Hs as [Hs Hhead].
            constructor; [by apply Hsorted|].
            destruct Ho as (_ & Hanchor & _). rewrite Hanchor.
            apply List.Forall_forall. intros e' He'.
            rewrite Forall_forall in Hall. apply list_elem_of_In in He'.
            destruct (Hall e' He') as (c & Hc & (_ & -> & _)).
            rewrite List.Forall_forall in Hhead. by apply Hhead.
        + split; [lia|]. split; [done|].
          intros Hs. apply StronglySorted_inv in Hs as [Hs _]. by apply Hsorted.
      - destruct Hr0 as (c & Hc & ->).
        eexists _, _. split; [reflexivity|]. split; [done|].
        exists c. split; [by right | done]. }
    destruct (resolveSegment_cases sortedSegments i segment fs)
      as [->|[->|[(e & -> & He)|(e & x & -> & He)]]].
    + apply (Hrest None fs); [by left | done].
    + exists (Throw (ProbeFailed (audioPath segment))), fs.
      split; [done|]. split; [done|]. exists segment. split; [by left | done].
    + apply (Hrest (Some e) fs); [by left | done].
    + apply (Hrest (Some e)); [right; by exists x | done].
Qed.

(** The Timing Resolver writes derived files and nothing else: every path
    that is not the derived name of one of the clips is left as it was,
    however the call ends. *)
Theorem resolver_touches_derived_only (segments : list Clip) (fs : gmap string (file A))
    (p : string) :
  (forall c, In c segments -> p <> derived_name (audioPath c)) ->
  (Tts.resolveTiming E segments fs).2 !! p = fs !! p.
Proof.
  intros Hp. unfold Tts.resolveTiming.
  set (sorted := JS.sort (fun c => start (unit_ c)) segments).
  destruct (resolveLoop_outcome sorted 0 sorted fs) as (r & fs' & -> & Hframe & _).
  cbn [snd]. apply Hframe. intros c Hc. apply Hp.
  apply list_elem_of_In. apply list_elem_of_In in Hc.
  by rewrite <- (sort_perm (fun c => start (unit_ c)) segments).
Qed.

(** What the Timing Resolver returns: at most one entry per clip, in the
    order of the anchors, each standing for one of the clips with the
    unit's own start as the anchor. *)
Theorem resolver_entries_anchored (segments : list Clip) (fs fs' : gmap string (file A))
    (adjustedSegments : list Adjusted) :
  Tts.resolveTiming E segments fs = (Ok adjustedSegments, fs') ->
  (length adjustedSegments <= length segments)%nat /\
  sorted_by_anchor adjustedSegments /\
  forall e, In e adjustedSegments -> exists c, In c segments /\ stands_for e c.
Proof.
  unfold Tts.resolveTiming.
  set (sorted := JS.sort (fun c => start (unit_ c)) segments).
  destruct (resolveLoop_outcome sorted 0 sorted fs) as (r & fs0 & -> & _ & Hr).
  intros [= -> ->]. destruct Hr as (Hlen & Hall & Hsorted).
  split; [by rewrite <- (sort_length (fun c => start (unit_ c)) segments)|].
  split; [apply Hsorted, sort_sorted|].
  intros e He. rewrite Forall_forall in Hall. apply list_elem_of_In in He.
  destruct (Hall e He) as (c & Hc & Hstands). exists c. split; [|done].
  apply list_elem_of_In. apply list_elem_of_In in Hc.
  by rewrite <- (sort_perm (fun c => start (unit_ c)) segments).
Qed.

End ResolverLoop.

Lemma resolver_touches_derived_only_witness :
  (Tts.resolveTiming Doubles.exact Scenario.tight Scenario.tight_files).2
    !! "d/V_segment_0.mp3" = Scenario.tight_files !! "d/V_segment_0.mp3".
Proof.
  apply (resolver_touches_derived_only Doubles.exact Scenario.tight Scenario.tight_files).
  intros c [<-|[<-|[]]]; discriminate.
Defined.

Lemma resolver_entries_anchored_witness :
  (2 <= length Scenario.tight)%nat /\
  sorted_by_anchor
    [mkAdjusted (mkSegment 0 1 "a") "d/V_segment_0_adjusted.mp3" "d/V_segment_0.mp3"
       true (4 # 3) 0;
     mkAdjusted (mkSegment 1.2 3 "b") "d/V_segment_1.mp3" "d/V_segment_1.mp3"
       false 1 1.2].
Proof.
  destruct (resolver_entries_anchored Doubles.exact Scenario.tight Scenario.tight_files
              (Tts.resolveTiming Doubles.exact Scenario.tight Scenario.tight_files).2
              [mkAdjusted (mkSegment 0 1 "a") "d/V_segment_0_adjusted.mp3"
                 "d/V_segment_0.mp3" true (4 # 3) 0;
               mkAdjusted (mkSegment 1.2 3 "b") "d/V_segment_1.mp3" "d/V_segment_1.mp3"
                 false 1 1.2])
    as (Hlen & Hsorted & _).
  - vm_compute. reflexivity.
  - split; [exact Hlen | exact Hsorted].
Defined.

(** ** Compositor *)

Section CompositorOutput.
Context {A : Type} (E : External A).

(** The two ways the Compositor ends for an output path with the
    extension, and what is then at the output path (unless it is itself one
    of the derived clips). *)
Lemma composite_result (adjustedSegments : list Adjusted) (outputPath : string)
    (totalDuration : Q) (fs : gmap string (file A)) :
  has_mp3 outputPath ->
  exists (r : outcome unit) (fs' : gmap string (file A)),
    Tts.composite E adjustedSegments outputPath totalDuration fs = (r, fs') /\
    ((r = Ok tt /\
      (~ In outputPath (derived_paths adjustedSegments) ->
       exists m, fs' !! outputPath = Some (Audio m))) \/
     (r = Throw FfmpegExit /\
      (~ In outputPath (derived_paths adjustedSegments) ->
       fs' !! outputPath = fs !! outputPath))).
Proof.
  intros Hmp3.
  destruct (output_names outputPath) as [[Hbad _]|(Hso & Hto & Hst)].
  { by apply derived_differs in Hbad. }
  unfold Tts.composite.
  set (script := JS.replace ".mp3" "_filter.txt" outputPath) in *.
  set (temp := JS.replace ".mp3" "_temp_norm.mp3" outputPath) in *.
  unfold IO.bind at 1. unfold IO.writeFileSync, IO.try_catch, IO.bind at 1.
  set (fs0 := <[script := _]> fs).
  destruct (ffmpeg_mix_cases E (map adjustedPath adjustedSegments) script totalDuration
              outputPath fs0) as [->|[mixed ->]]; cbn [negb].
  - unfold IO.throw at 1.
    destruct (composite_handler adjustedSegments script FfmpegExit fs0)
      as (fs' & -> & _ & _ & Hkept).
    exists (Throw FfmpegExit), fs'. split; [done|]. right. split; [done|]. intros Hout.
    rewrite (Hkept outputPath) by done. unfold fs0. by rewrite lookup_insert_ne.
  - unfold IO.bind at 1. unfold IO.unlinkSync at 1.
    rewrite lookup_insert_ne by done. unfold fs0 at 1. rewrite lookup_insert_eq.
    unfold IO.bind at 1.
    destruct (cleanupAdjusted_removes adjustedSegments
                (delete script (<[outputPath := Audio mixed]> fs0)))
      as (fs3 & -> & _ & Hkept).
    assert (~ In outputPath (derived_paths adjustedSegments) ->
            fs3 !! outputPath = Some (Audio mixed)) as Hout3.
    { intros Hout. rewrite (Hkept _ Hout). rewrite lookup_delete_ne by done.
      apply lookup_insert_eq. }
    destruct (normalizeAudio_cases E outputPath fs3)
      as [->|[(m' & _ & _ & ->)|(m' & Heq & _)]]; [| |done].
    + exists (Ok tt), fs3. split; [done|]. left. split; [done|].
      intros Hout. exists mixed. by apply Hout3.
    + eexists (Ok tt), _. split; [done|]. left. split; [done|].
      intros _. exists m'. apply lookup_insert_eq.
Qed.

End CompositorOutput.

(** ** The stitch and the run *)

Section RunOutcome.
Context {A : Type} (E : External A).

Lemma stitch_result (segments : list Clip) (outputPath : string) (totalDuration : Q)
    (fs : gmap string (file A)) :
  has_mp3 outputPath ->
  (forall c, In c segments -> derived_name (audioPath c) <> outputPath) ->
  exists (r : outcome unit) (fs' : gmap string (file A)),
    Tts.stitchAudioWithTiming E segments outputPath totalDuration fs = (r, fs') /\
    ((r = Ok tt /\ exists m, fs' !! outputPath = Some (Audio m)) \/
     r = Throw FfmpegExit \/
     exists c, In c segments /\ r = Throw (ProbeFailed (audioPath c))).
Proof.
  intros Hmp3 Hnames. unfold Tts.stitchAudioWithTiming, Tts.resolveTiming, IO.bind.
  set (sorted := JS.sort (fun c => start (unit_ c)) segments).
  assert (forall c, In c sorted -> In c segments) as Hsorted.
  { intros c Hc. apply list_elem_of_In. apply list_elem_of_In in Hc.
    by rewrite <- (sort_perm (fun c => start (unit_ c)) segments). }
  destruct (resolveLoop_outcome E sorted 0 sorted fs) as (r & fs1 & -> & _ & Hr).
  destruct r as [adjustedSegments|error|]; [| |done].
  - destruct Hr as (_ & Hall & _).
    assert (~ In outputPath (derived_paths adjustedSegments)) as Hout.
    { intros (e & He & Hadj & Hpath)%derived_paths_inv.
      rewrite Forall_forall in Hall. apply list_elem_of_In in He.
      destruct (Hall e He) as (c & Hc & (_ & _ & _ & [[Hno _]|(_ & Hd & _)])).
      - congruence.
      - apply (Hnames c (Hsorted c Hc)). congruence. }
    destruct (composite_result E adjustedSegments outputPath totalDuration fs1 Hmp3)
      as (r & fs' & -> & [[-> Hok]|[-> _]]).
    + exists (Ok tt), fs'. split; [done|]. left. split; [done | by apply Hok].
    + exists (Throw FfmpegExit), fs'. split; [done|]. right. by left.
  - destruct Hr as (c & Hc & ->).
    eexists _, _. split; [reflexivity|]. right. right. exists c. split; [by apply Hsorted | done].
Qed.

Lemma collectLoop_outcome (outputDir videoId : string) (i : nat)
    (translationSegments : list TranscriptSegment) (fs : gmap string (file A)) :
  exists clips : list Clip,
    Route.collectLoop outputDir videoId i translationSegments fs = (Ok clips, fs) /\
    forall c, In c clips -> exists k, audioPath c = clip_path outputDir videoId k.
Proof.
  revert i. induction translationSegments as [|segment rest IH]; intros i.
  - exists []. by split.
  - cbn [Route.collectLoop]. unfold IO.bind, IO.existsSync.
    destruct (IH (S i)) as (clips & -> & Hclips).
    destruct (bool_decide _).
    + eexists. split; [reflexivity|]. intros c [<-|Hc]; [by exists i | by apply Hclips].
    + by exists clips.
Qed.

Lemma clip_derived_not_dubtrack (outputDir videoId : string) (k : nat) :
  derived_name (clip_path outputDir videoId k) <> path_join outputDir (georgian_name videoId).
Proof.
  destruct (segment_path_has_mp3 outputDir videoId k) as (pre & post & Heq).
  pose proof (replace_length ".mp3" "_adjusted.mp3" pre post) as Hlen.
  rewrite <- Heq in Hlen. fold (clip_path outputDir videoId k) in Hlen.
  fold (derived_name (clip_path outputDir videoId k)) in Hlen.
  intros Hbad. rewrite Hbad in Hlen.
  unfold clip_path, path_join, segment_name, georgian_name in Hlen.
  rewrite !length_append in Hlen. cbn [String.length] in Hlen. lia.
Qed.

Lemma dubtrack_has_mp3 (outputDir videoId : string) :
  has_mp3 (path_join outputDir (georgian_name videoId)).
Proof.
  exists (outputDir +:+ "/" +:+ videoId +:+ "_georgian"), "".
  unfold path_join, georgian_name. by rewrite !append_assoc3.
Qed.

Lemma sidecar_not_dubtrack (outputDir videoId : string) :
  path_join outputDir (meta_name videoId) <> path_join outputDir (georgian_name videoId).
Proof.
  intros Heq. apply (f_equal String.length) in Heq.
  unfold path_join, meta_name, georgian_name in Heq.
  rewrite !length_append in Heq. cbn [String.length] in Heq. lia.
Qed.

(** How stages 3 and 4 end. *)
Lemma synthesizeAndStitch_outcome (translationSegments : list TranscriptSegment)
    (outputDir videoId : string) (duration : Q) (fs : gmap string (file A)) :
  exists (r : outcome string) (fs' : gmap string (file A)),
    Route.synthesizeAndStitch E translationSegments outputDir videoId duration fs = (r, fs') /\
    ((r = Ok ("/temp/" +:+ georgian_name videoId) /\
      (exists m, fs' !! path_join outputDir (georgian_name videoId) = Some (Audio m)) /\
      fs' !! path_join outputDir (meta_name videoId) = Some (Sidecar duration)) \/
     r = Throw NoAudioSegment \/ r = Throw FfmpegExit \/
     exists k, r = Throw (ProbeFailed (clip_path outputDir videoId k))).
Proof.
  unfold Route.synthesizeAndStitch, IO.bind.
  destruct (generateLoop_outcome E outputDir videoId 0 translationSegments fs)
    as (files & fs1 & Hgen & _). unfold Tts.generateGeorgianAudio. rewrite Hgen.
  destruct (collectLoop_outcome outputDir videoId 0 translationSegments fs1)
    as (clips & -> & Hclips).
  destruct (length clips =? 0)%nat.
  { eexists _, _. split; [reflexivity|]. right. by left. }
  destruct (stitch_result clips (path_join outputDir (georgian_name videoId)) duration fs1)
    as (r & fs2 & -> & Hcases).
  { apply dubtrack_has_mp3. }
  { intros c Hc. destruct (Hclips c Hc) as [k ->]. apply clip_derived_not_dubtrack. }
  destruct Hcases as [[-> [m Hm]]|[->|(c & Hc & ->)]].
  - unfold IO.writeFileSync, IO.ret. eexists _, _. split; [reflexivity|]. left.
    split; [done|]. split; [|apply lookup_insert_eq].
    exists m. rewrite lookup_insert_ne; [done|]. apply sidecar_not_dubtrack.
  - eexists _, _. split; [reflexivity|]. right. right. by left.
  - destruct (Hclips c Hc) as [k Hk]. rewrite Hk.
    eexists _, _. split; [reflexivity|]. right. right. right. by exists k.
Qed.

(** A run reports [done] only with its artifacts on disk: the DubTrack
    holds audio and the sidecar record holds the video's duration. *)
Theorem post_done_artifacts (translationSegments : list TranscriptSegment)
    (outputDir videoId : string) (duration : Q) (fs fs' : gmap string (file A))
    (url : string) :
  Route.POST E translationSegments outputDir videoId duration fs = (Ok (Route.Done url), fs') ->
  url = "/temp/" +:+ georgian_name videoId /\
  (exists m, fs' !! path_join outputDir (georgian_name videoId) = Some (Audio m)) /\
  fs' !! path_join outputDir (meta_name videoId) = Some (Sidecar duration).
Proof.
  unfold Route.POST, IO.try_catch, IO.bind.
  destruct (synthesizeAndStitch_outcome translationSegments outputDir videoId duration fs)
    as (r & fs0 & -> & [(-> & Hdub & Hmeta)|[->|[->|[k ->]]]]); try done.
  unfold IO.ret. by intros [= <- <-].
Qed.

End RunOutcome.

Lemma post_done_artifacts_witness :
  "/temp/V_georgian.mp3" = "/temp/" +:+ georgian_name "V" /\
  (exists m, (Route.POST Doubles.exact Scenario.three_units "d" "V" 6 ∅).2
             !! path_join "d" (georgian_name "V") = Some (Audio m)) /\
  (Route.POST Doubles.exact Scenario.three_units "d" "V" 6 ∅).2
    !! path_join "d" (meta_name "V") = Some (Sidecar 6).
Proof.
  apply (post_done_artifacts Doubles.exact Scenario.three_units "d" "V" 6 ∅).
  vm_compute. reflexivity.
Defined.

(** ** The history route *)

Lemma unlink_loop_keeps (videoId : string) (files : list string)
    (dir : gmap string History.entry) (deleted : list string) (name : string) :
  JS.startsWith name videoId = false \/ dir !! name <> Some History.RegularFile ->
  (foldl (History.unlink_step videoId) (dir, deleted) files).1 !! name = dir !! name.
Proof.
  revert dir deleted. induction files as [|file rest IH]; intros dir deleted Hkeep; [done|].
  cbn [foldl]. unfold History.unlink_step at 2. cbn [fst snd].
  destruct (JS.startsWith file videoId) eqn:Hstart; [|by apply IH].
  destruct (dir !! file) as [[|]|] eqn:Hfile; try by apply IH.
  assert (file <> name) as Hne.
  { intros ->. destruct Hkeep as [Hk|Hk]; [congruence | done]. }
  rewrite IH; [by rewrite lookup_delete_ne|].
  rewrite lookup_delete_ne by done. exact Hkeep.
Qed.

Lemma rmdir_loop_keeps (videoId : string) (files : list string)
    (dir : gmap string History.entry) (deleted : list string) (name : string) :
  JS.startsWith name ("temp_" +:+ videoId) = false \/ dir !! name <> Some History.Directory ->
  (foldl (History.rmdir_step videoId) (dir, deleted) files).1 !! name = dir !! name.
Proof.
  revert dir deleted. induction files as [|file rest IH]; intros dir deleted Hkeep; [done|].
  cbn [foldl]. unfold History.rmdir_step at 2. cbn [fst snd].
  destruct (JS.startsWith file _) eqn:Hstart; [|by apply IH].
  destruct (dir !! file) as [[|]|] eqn:Hfile; try by apply IH.
  assert (file <> name) as Hne.
  { intros ->. destruct Hkeep as [Hk|Hk]; [congruence | done]. }
  rewrite IH; [by rewrite lookup_delete_ne|].
  rewrite lookup_delete_ne by done. exact Hkeep.
Qed.

Lemma rmdir_loop_removes (videoId : string) (files : list string)
    (dir : gmap string History.entry) (deleted : list string) (name : string) :
  name ∈ files ->
  JS.startsWith name ("temp_" +:+ videoId) = true ->
  dir !! name = Some History.Directory ->
  (foldl (History.rmdir_step videoId) (dir, deleted) files).1 !! name = None.
Proof.
  revert dir deleted.
  induction files as [|file rest IH]; intros dir deleted Hin Hstart Hfile.
  - by apply elem_of_nil in Hin.
  - cbn [foldl]. unfold History.rmdir_step at 2. cbn [fst snd].
    destruct (decide (name = file)) as [<-|Hne].
    + rewrite Hstart, Hfile. apply rmdir_loop_keeps_absent, lookup_delete_eq.
    + apply elem_of_cons in Hin as [?|Hin]; [done|].
      destruct (JS.startsWith file _); [|by apply IH].
      destruct (dir !! file) as [[|]|]; try by apply IH.
      apply IH; [done..|]. by rewrite lookup_delete_ne.
Qed.

Lemma listed (dir : gmap string History.entry) (name : string) (e : History.entry) :
  dir !! name = Some e -> name ∈ History.readdirSync dir.
Proof.
  intros H. unfold History.readdirSync. apply list_elem_of_fmap.
  exists (name, e). split; [done|]. by apply elem_of_map_to_list.
Qed.

(** The two loops of [DELETE], entry by entry. *)
Lemma delete_loops_lookup (videoId : string) (dir : gmap string History.entry)
    (name : string) :
  (foldl (History.rmdir_step videoId)
     (foldl (History.unlink_step videoId) (dir, []) (History.readdirSync dir))
     (History.readdirSync dir)).1 !! name
  = after_delete videoId name (dir !! name).
Proof.
  destruct (foldl (History.unlink_step videoId) (dir, []) (History.readdirSync dir))
    as [dir1 deleted1] eqn:Hloop.
  assert (dir1 = (foldl (History.unlink_step videoId) (dir, [])
                    (History.readdirSync dir)).1) as Hdir1 by (by rewrite Hloop).
  unfold after_delete.
  destruct (dir !! name) as [[|]|] eqn:Hfile.
  - destruct (JS.startsWith name videoId) eqn:Hstart.
    + apply rmdir_loop_keeps_absent. rewrite Hdir1.
      apply unlink_loop_removes; [by eapply listed | done..].
    + rewrite rmdir_loop_keeps.
      * rewrite Hdir1, unlink_loop_keeps; [done | by left].
      * right. rewrite Hdir1, unlink_loop_keeps; [by rewrite Hfile | by left].
  - assert (dir1 !! name = Some History.Directory) as Hdir.
    { rewrite Hdir1, unlink_loop_keeps; [done|]. right. by rewrite Hfile. }
    destruct (JS.startsWith name ("temp_" +:+ videoId)) eqn:Hstart.
    + apply rmdir_loop_removes; [by eapply listed | done..].
    + rewrite rmdir_loop_keeps; [done | by left].
  - apply rmdir_loop_keeps_absent. rewrite Hdir1. by apply unlink_loop_keeps_absent.
Qed.



Lemma unlink_loop_deleted (videoId : string) (files : list string)
    (dir : gmap string History.entry) (deleted : list string) (name : string) :
  name ∈ (foldl (History.unlink_step videoId) (dir, deleted) files).2 <->
  name ∈ deleted \/
  (name ∈ files /\ JS.startsWith name videoId = true /\
   dir !! name = Some History.RegularFile).
Proof.
  revert dir deleted. induction files as [|file rest IH]; intros dir deleted.
  - cbn. split; [by left|]. intros [?|[?%elem_of_nil _]]; done.
  - cbn [foldl]. unfold History.unlink_step at 2. cbn [fst snd].
    assert (name ∈ deleted \/
            (name ∈ rest /\ JS.startsWith name videoId = true /\
             dir !! name = Some History.RegularFile) ->
            name ∈ deleted \/
            (name ∈ file :: rest /\ JS.startsWith name videoId = true /\
             dir !! name = Some History.RegularFile)) as Hweaken.
    { intros [?|(? & ? & ?)]; [by left|]. right. split; [by right | done]. }
    destruct (JS.startsWith file videoId) eqn:Hstart.
    + destruct (dir !! file) as [[|]|] eqn:Hfile.
      * rewrite IH. rewrite elem_of_app, list_elem_of_singleton. split.
        -- intros [[? | ->] | (Hin & Hs & Hd)]; [by left| |].
           ++ right. split; [by left | done].
           ++ right. split; [by right|]. split; [done|].
              destruct (decide (file = name)) as [->|Hne];
                [by rewrite lookup_delete_eq in Hd | by rewrite lookup_delete_ne in Hd].
        -- intros [?|(Hin & Hs & Hd)]; [left; by left|].
           destruct (decide (name = file)) as [->|Hne]; [left; by right|].
           right. apply elem_of_cons in Hin as [?|Hin]; [done|].
           split; [done|]. split; [done|]. by rewrite lookup_delete_ne.
      * rewrite IH. split; [exact Hweaken|].
        intros [?|(Hin & Hs & Hd)]; [by left|]. right.
        apply elem_of_cons in Hin as [->|Hin]; [congruence | done].
      * rewrite IH. split; [exact Hweaken|].
        intros [?|(Hin & Hs & Hd)]; [by left|]. right.
        apply elem_of_cons in Hin as [->|Hin]; [congruence | done].
    + rewrite IH. split; [exact Hweaken|].
      intros [?|(Hin & Hs & Hd)]; [by left|]. right.
      apply elem_of_cons in Hin as [->|Hin]; [congruence | done].
Qed.

Lemma rmdir_loop_deleted (videoId : string) (files : list string)
    (dir : gmap string History.entry) (deleted : list string) (name : string) :
  name ∈ (foldl (History.rmdir_step videoId) (dir, deleted) files).2 <->
  name ∈ deleted \/
  (name ∈ files /\ JS.startsWith name ("temp_" +:+ videoId) = true /\
   dir !! name = Some History.Directory).
Proof.
  revert dir deleted. induction files as [|file rest IH]; intros dir deleted.
  - cbn. split; [by left|]. intros [?|[?%elem_of_nil _]]; done.
  - cbn [foldl]. unfold History.rmdir_step at 2. cbn [fst snd].
    assert (name ∈ deleted \/
            (name ∈ rest /\ JS.startsWith name ("temp_" +:+ videoId) = true /\
             dir !! name = Some History.Directory) ->
            name ∈ deleted \/
            (name ∈ file :: rest /\ JS.startsWith name ("temp_" +:+ videoId) = true /\
             dir !! name = Some History.Directory)) as Hweaken.
    { intros [?|(? & ? & ?)]; [by left|]. right. split; [by right | done]. }
    destruct (JS.startsWith file ("temp_" +:+ videoId)) eqn:Hstart.
    + destruct (dir !! file) as [[|]|] eqn:Hfile.
      * rewrite IH. split; [exact Hweaken|].
        intros [?|(Hin & Hs & Hd)]; [by left|]. right.
        apply elem_of_cons in Hin as [->|Hin]; [congruence | done].
      * rewrite IH. rewrite elem_of_app, list_elem_of_singleton. split.
        -- intros [[? | ->] | (Hin & Hs & Hd)]; [by left| |].
           ++ right. split; [by left | done].
           ++ right. split; [by right|]. split; [done|].
              destruct (decide (file = name)) as [->|Hne];
                [by rewrite lookup_delete_eq in Hd | by rewrite lookup_delete_ne in Hd].
        -- intros [?|(Hin & Hs & Hd)]; [left; by left|].
           destruct (decide (name = file)) as [->|Hne]; [left; by right|].
           right. apply elem_of_cons in Hin as [?|Hin]; [done|].
           split; [done|]. split; [done|]. by rewrite lookup_delete_ne.
      * rewrite IH. split; [exact Hweaken|].
        intros [?|(Hin & Hs & Hd)]; [by left|]. right.
        apply elem_of_cons in Hin as [->|Hin]; [congruence | done].
    + rewrite IH. split; [exact Hweaken|].
      intros [?|(Hin & Hs & Hd)]; [by left|]. right.
      apply elem_of_cons in Hin as [->|Hin]; [congruence | done].
Qed.

(** The response of [DELETE] is truthful: [deletedFiles] names exactly
    the entries that were there before and are gone afterwards. *)
Theorem delete_reports_what_it_removed (videoId : string)
    (dir dir' : gmap string History.entry) (deletedFiles : list string) (name : string) :
  History.DELETE videoId (Some dir) = (History.Success videoId deletedFiles, Some dir') ->
  (name ∈ deletedFiles <-> is_Some (dir !! name) /\ dir' !! name = None).
Proof.
  unfold History.DELETE. destruct (String.eqb videoId ""); [done|].
  intros [= <- <-]. rewrite delete_loops_lookup.
  destruct (foldl (History.unlink_step videoId) (dir, []) (History.readdirSync dir))
    as [dir1 deleted1] eqn:Hloop.
  rewrite rmdir_loop_deleted.
  assert (deleted1 = (foldl (History.unlink_step videoId) (dir, [])
                        (History.readdirSync dir)).2) as Hdel by (by rewrite Hloop).
  assert (dir1 = (foldl (History.unlink_step videoId) (dir, [])
                    (History.readdirSync dir)).1) as Hdir1 by (by rewrite Hloop).
  rewrite Hdel, unlink_loop_deleted. unfold after_delete.
  destruct (dir !! name) as [[|]|] eqn:Hfile.
  - assert (dir1 !! name <> Some History.Directory) as Hnodir.
    { rewrite Hdir1. destruct (JS.startsWith name videoId) eqn:Hs.
      - rewrite unlink_loop_removes; [done | by eapply listed | done..].
      - rewrite unlink_loop_keeps; [by rewrite Hfile | by left]. }
    destruct (JS.startsWith name videoId) eqn:Hs.
    + split; [by intros _|]. intros _. left. right.
      split; [by eapply listed | done].
    + split; [|by intros [_ ?]].
      intros [[?%elem_of_nil|(_ & ? & _)]|(_ & _ & ?)]; done.
  - assert (dir1 !! name = Some History.Directory) as Hdir.
    { rewrite Hdir1, unlink_loop_keeps; [done|]. right. by rewrite Hfile. }
    destruct (JS.startsWith name ("temp_" +:+ videoId)) eqn:Hs.
    + split; [by intros _|]. intros _. right. split; [by eapply listed | done].
    + split; [|by intros [_ ?]].
      intros [[?%elem_of_nil|(_ & _ & ?)]|(_ & ? & _)]; done.
  - split; [|by intros [[? ?] _]].
    assert (dir1 !! name = None) as Hnone.
    { rewrite Hdir1. by apply unlink_loop_keeps_absent. }
    intros [[?%elem_of_nil|(_ & _ & ?)]|(_ & _ & ?)]; [done|done|congruence].
Qed.

Lemma delete_reports_what_it_removed_witness :
  "temp_abc_segment_3" ∈ ["abc_georgian.mp3"; "abc.mp3"; "temp_abc_segment_3"] <->
  is_Some (Scenario.cluttered !! "temp_abc_segment_3") /\
  default ∅ (History.DELETE "abc" (Some Scenario.cluttered)).2 !! "temp_abc_segment_3" = None.
Proof.
  apply (delete_reports_what_it_removed "abc" Scenario.cluttered).
  vm_compute. reflexivity.
Defined.

Lemma unlink_loop_noop (videoId : string) (files : list string)
    (dir : gmap string History.entry) (deleted : list string) :
  (forall name, JS.startsWith name videoId = true ->
                dir !! name <> Some History.RegularFile) ->
  foldl (History.unlink_step videoId) (dir, deleted) files = (dir, deleted).
Proof.
  intros Hnone. induction files as [|file rest IH]; [done|].
  cbn [foldl]. unfold History.unlink_step at 2. cbn [fst snd].
  destruct (JS.startsWith file videoId) eqn:Hs; [|exact IH].
  specialize (Hnone file Hs). by destruct (dir !! file) as [[|]|].
Qed.

Lemma rmdir_loop_noop (videoId : string) (files : list string)
    (dir : gmap string History.entry) (deleted : list string) :
  (forall name, JS.startsWith name ("temp_" +:+ videoId) = true ->
                dir !! name <> Some History.Directory) ->
  foldl (History.rmdir_step videoId) (dir, deleted) files = (dir, deleted).
Proof.
  intros Hnone. induction files as [|file rest IH]; [done|].
  cbn [foldl]. unfold History.rmdir_step at 2. cbn [fst snd].
  destruct (JS.startsWith file _) eqn:Hs; [|exact IH].
  specialize (Hnone file Hs). by destruct (dir !! file) as [[|]|].
Qed.

(** Deleting the same video again finds nothing: the second [DELETE]
    reports an empty list and leaves the directory as the first one left
    it. *)
Theorem delete_twice_finds_nothing (videoId : string)
    (dir dir' : gmap string History.entry) (deletedFiles : list string) :
  History.DELETE videoId (Some dir) = (History.Success videoId deletedFiles, Some dir') ->
  History.DELETE videoId (Some dir') = (History.Success videoId [], Some dir').
Proof.
  unfold History.DELETE. destruct (String.eqb videoId ""); [done|].
  intros [= _ <-].
  set (dir' := (foldl (History.rmdir_step videoId)
                  (foldl (History.unlink_step videoId) (dir, []) (History.readdirSync dir))
                  (History.readdirSync dir)).1).
  assert (forall name, dir' !! name = after_delete videoId name (dir !! name)) as Hlookup
    by (intros name; apply delete_loops_lookup).
  rewrite unlink_loop_noop, rmdir_loop_noop; [done| |].
  - intros name Hs. rewrite Hlookup. unfold after_delete.
    destruct (dir !! name) as [[|]|]; [| | done].
    + by destruct (JS.startsWith name videoId).
    + by rewrite Hs.
  - intros name Hs. rewrite Hlookup. unfold after_delete.
    destruct (dir !! name) as [[|]|]; [| | done].
    + by rewrite Hs.
    + by destruct (JS.startsWith name ("temp_" +:+ videoId)).
Qed.

Lemma delete_twice_finds_nothing_witness :
  History.DELETE "abc" (Some (default ∅ (History.DELETE "abc" (Some Scenario.cluttered)).2))
  = (History.Success "abc" [],
     Some (default ∅ (History.DELETE "abc" (Some Scenario.cluttered)).2)).
Proof.
  apply (delete_twice_finds_nothing "abc" Scenario.cluttered _
           ["abc_georgian.mp3"; "abc.mp3"; "temp_abc_segment_3"]).
  vm_compute. reflexivity.
Defined.

(** * Properties of the code as the engine runs it *)

(** ** Doubles *)


Lemma number_leb_not_ltb (a b : JS.number) :
  F64.number_leb a b = true -> F64.number_ltb b a = false.
Proof.
  destruct a as [x| | |], b as [y| | |]; cbn; try done.
  intros H. apply leb_le in H. apply ltb_ge. exact H.
Qed.


Lemma leb_not_ltb (x y : float) : F64.leb x y = true -> F64.ltb y x = false.
Proof. apply number_leb_not_ltb. Qed.

(** *** The comparisons of the processor

    A double is canonical: its mantissa has 53 binary digits, or fewer at
    the smallest exponent.  So the order of two finite doubles of the same
    sign is the order of their exponents and, for equal exponents, of their
    mantissas, which is how the processor compares them. *)

Lemma digits2_pos_bounds (m : positive) :
  (2 ^ (Z.pos (digits2_pos m) - 1) <= Z.pos m < 2 ^ Z.pos (digits2_pos m))%Z.
Proof.
  induction m as [m IH|m IH|]; cbn [digits2_pos].
  - rewrite Pos2Z.inj_succ. replace (Z.succ (Z.pos (digits2_pos m)) - 1)%Z
      with (Z.succ (Z.pos (digits2_pos m) - 1))%Z by lia.
    rewrite !Z.pow_succ_r by lia. lia.
  - rewrite Pos2Z.inj_succ. replace (Z.succ (Z.pos (digits2_pos m)) - 1)%Z
      with (Z.succ (Z.pos (digits2_pos m) - 1))%Z by lia.
    rewrite !Z.pow_succ_r by lia. lia.
  - cbn. lia.
Qed.

Lemma canonical_bounds (m : positive) (e : Z) :
  canonical_mantissa prec emax m e = true ->
  (-1074 <= e)%Z /\ (Z.pos m < 2 ^ 53)%Z /\ (-1074 < e -> 2 ^ 52 <= Z.pos m)%Z.
Proof.
  unfold canonical_mantissa, fexp, emin, prec, emax. intros H. apply Z.eqb_eq in H.
  pose proof (digits2_pos_bounds m) as [Hlo Hhi].
  set (d := Z.pos (digits2_pos m)) in *.
  assert (0 < d)%Z as Hd by (unfold d; lia).
  split; [lia|]. split.
  - assert (d <= 53)%Z as Hle by lia.
    apply (Z.lt_le_trans _ _ _ Hhi). apply Z.pow_le_mono_r; lia.
  - intros He. assert (d = 53)%Z as -> by lia. exact Hlo.
Qed.

Lemma finite_value_scaled (s : bool) (m : positive) (e : Z) :
  (-1074 <= e)%Z ->
  F64.finite_value s m e == F64.scaled s m e # 2 ^ 1074.
Proof.
  intros He. unfold F64.finite_value, F64.scaled, Qeq.
  destruct (Z.leb_spec 0 e) as [Hpos|Hneg]; cbn [Qnum Qden inject_Z].
  - rewrite Z.pow_add_r by lia. rewrite Pos2Z.inj_pow. lia.
  - rewrite !Pos2Z.inj_pow. rewrite Z2Pos.id by lia.
    rewrite <- Z.mul_assoc, <- Z.pow_add_r by lia.
    replace (e + 1074 + - e)%Z with (Z.pos 1074) by lia. reflexivity.
Qed.

Lemma magnitude_lt (m1 m2 : positive) (e1 e2 : Z) :
  canonical_mantissa prec emax m1 e1 = true ->
  canonical_mantissa prec emax m2 e2 = true ->
  (e1 < e2)%Z ->
  (Z.pos m1 * 2 ^ (e1 + 1074) < Z.pos m2 * 2 ^ (e2 + 1074))%Z.
Proof.
  intros H1 H2 Hlt.
  apply canonical_bounds in H1 as (He1 & Hm1 & _).
  apply canonical_bounds in H2 as (He2 & _ & Hm2). specialize (Hm2 ltac:(lia)).
  replace (e2 + 1074)%Z with ((e1 + 1074) + (e2 - e1))%Z by lia.
  rewrite (Z.pow_add_r 2 (e1 + 1074) (e2 - e1)) by lia.
  assert (0 < 2 ^ (e1 + 1074))%Z as Hp by (apply Z.pow_pos_nonneg; lia).
  assert (2 ^ 1 <= 2 ^ (e2 - e1))%Z as Hq by (apply Z.pow_le_mono_r; lia).
  change (2 ^ 1)%Z with 2%Z in Hq.
  change (2 ^ 53)%Z with (2 * 2 ^ 52)%Z in Hm1.
  set (a := (2 ^ (e1 + 1074))%Z) in *. set (b := (2 ^ (e2 - e1))%Z) in *.
  set (c := (2 ^ 52)%Z) in *. clearbody a b c.
  apply Z.lt_le_trans with (2 * c * a)%Z; [nia|].
  apply Z.le_trans with (Z.pos m2 * a * 2)%Z; [nia|].
  rewrite Z.mul_assoc. apply Z.mul_le_mono_nonneg_l; [nia|lia].
Qed.

Lemma finite_compare (s1 s2 : bool) (m1 m2 : positive) (e1 e2 : Z) :
  canonical_mantissa prec emax m1 e1 = true ->
  canonical_mantissa prec emax m2 e2 = true ->
  SFcompare (S754_finite s1 m1 e1) (S754_finite s2 m2 e2)
  = Some (F64.finite_value s1 m1 e1 ?= F64.finite_value s2 m2 e2)%Q.
Proof.
  intros H1 H2.
  pose proof (canonical_bounds _ _ H1) as (He1 & _).
  pose proof (canonical_bounds _ _ H2) as (He2 & _).
  rewrite (Qcompare_comp _ _ (finite_value_scaled s1 m1 e1 He1)
             _ _ (finite_value_scaled s2 m2 e2 He2)).
  unfold Qcompare. cbn [Qnum Qden SFcompare].
  rewrite <- Zmult_compare_compat_r by lia. f_equal. unfold F64.scaled.
  assert (0 < 2 ^ (e1 + 1074))%Z as Hp1 by (apply Z.pow_pos_nonneg; lia).
  assert (0 < 2 ^ (e2 + 1074))%Z as Hp2 by (apply Z.pow_pos_nonneg; lia).
  change (PosDef.Pos.compare_cont Eq m1 m2) with (m1 ?= m2)%positive.
  pose proof (magnitude_lt m1 m2 e1 e2 H1 H2) as Hlt12.
  pose proof (magnitude_lt m2 m1 e2 e1 H2 H1) as Hlt21.
  symmetry. destruct s1, s2; cbn [cond_Zopp Z.opp].
  - destruct (Z.compare_spec e1 e2) as [->|Hlt|Hgt].
    + rewrite <- Zmult_compare_compat_r by lia. reflexivity.
    + apply Z.compare_gt_iff. specialize (Hlt12 Hlt). lia.
    + apply Z.compare_lt_iff. specialize (Hlt21 Hgt). lia.
  - apply Z.compare_lt_iff. lia.
  - apply Z.compare_gt_iff. lia.
  - destruct (Z.compare_spec e1 e2) as [->|Hlt|Hgt].
    + rewrite <- Zmult_compare_compat_r by lia. reflexivity.
    + apply Z.compare_lt_iff. exact (Hlt12 Hlt).
    + apply Z.compare_gt_iff. exact (Hlt21 Hgt).
Qed.

Lemma finite_sign (s : bool) (m : positive) (e : Z) :
  (0 ?= F64.finite_value s m e)%Q = (if s then Gt else Lt) /\
  (F64.finite_value s m e ?= 0)%Q = (if s then Lt else Gt).
Proof.
  unfold F64.finite_value, Qcompare.
  destruct (Z.leb_spec 0 e) as [Hpos|Hneg]; cbn [Qnum Qden inject_Z].
  - assert (0 < 2 ^ e)%Z as Hp by (apply Z.pow_pos_nonneg; lia).
    rewrite !Z.mul_1_r. cbn [Z.mul].
    destruct s.
    + change (cond_Zopp true (Z.pos m)) with (Z.neg m).
      split; [rewrite Z.compare_gt_iff | rewrite Z.compare_lt_iff];
        (apply Z.mul_neg_pos; [apply Pos2Z.neg_is_neg | exact Hp]).
    + change (cond_Zopp false (Z.pos m)) with (Z.pos m).
      split; [rewrite Z.compare_lt_iff | rewrite Z.compare_gt_iff];
        (apply Z.mul_pos_pos; [apply Pos2Z.pos_is_pos | exact Hp]).
  - destruct s; split; reflexivity.
Qed.

Lemma ltb_compare (x y : Q) :
  JS.ltb x y = match (x ?= y)%Q with Lt => true | _ => false end.
Proof. reflexivity. Qed.

Lemma leb_compare (x y : Q) :
  JS.leb x y = match (x ?= y)%Q with Gt => false | _ => true end.
Proof. reflexivity. Qed.

Lemma finite_valid (s : bool) (m : positive) (e : Z) :
  valid_binary (S754_finite s m e) = true -> canonical_mantissa prec emax m e = true.
Proof. cbn [SpecFloat.valid_binary]. unfold bounded. by intros [H _]%andb_prop. Qed.

(** The comparisons on values are the comparisons of the processor. *)
Lemma ltb_native (x y : float) : F64.ltb x y = PrimFloat.ltb x y.
Proof.
  rewrite ltb_spec. unfold F64.ltb, F64.value, SFltb.
  pose proof (Prim2SF_valid x) as Hx. pose proof (Prim2SF_valid y) as Hy.
  destruct (Prim2SF x) as [s1|s1| |s1 m1 e1], (Prim2SF y) as [s2|s2| |s2 m2 e2];
    try done; try (by destruct s1); try (by destruct s2); try (by destruct s1, s2).
  - cbn [F64.number_ltb SFcompare]. rewrite ltb_compare.
    fold (F64.finite_value s2 m2 e2). rewrite (proj1 (finite_sign s2 m2 e2)). by destruct s2.
  - cbn [F64.number_ltb SFcompare]. rewrite ltb_compare.
    fold (F64.finite_value s1 m1 e1). rewrite (proj2 (finite_sign s1 m1 e1)). by destruct s1.
  - cbn [F64.number_ltb]. rewrite ltb_compare.
    fold (F64.finite_value s1 m1 e1). fold (F64.finite_value s2 m2 e2).
    by rewrite (finite_compare s1 s2 m1 m2 e1 e2 (finite_valid _ _ _ Hx) (finite_valid _ _ _ Hy)).
Qed.

Lemma leb_native (x y : float) : F64.leb x y = PrimFloat.leb x y.
Proof.
  rewrite leb_spec. unfold F64.leb, F64.value, SFleb.
  pose proof (Prim2SF_valid x) as Hx. pose proof (Prim2SF_valid y) as Hy.
  destruct (Prim2SF x) as [s1|s1| |s1 m1 e1], (Prim2SF y) as [s2|s2| |s2 m2 e2];
    try done; try (by destruct s1); try (by destruct s2); try (by destruct s1, s2).
  - cbn [F64.number_leb SFcompare]. rewrite leb_compare.
    fold (F64.finite_value s2 m2 e2). rewrite (proj1 (finite_sign s2 m2 e2)). by destruct s2.
  - cbn [F64.number_leb SFcompare]. rewrite leb_compare.
    fold (F64.finite_value s1 m1 e1). rewrite (proj2 (finite_sign s1 m1 e1)). by destruct s1.
  - cbn [F64.number_leb]. rewrite leb_compare.
    fold (F64.finite_value s1 m1 e1). fold (F64.finite_value s2 m2 e2).
    rewrite (finite_compare s1 s2 m1 m2 e1 e2 (finite_valid _ _ _ Hx) (finite_valid _ _ _ Hy)).
    by destruct (_ ?= _)%Q.
Qed.

(** For instance at the edge of the merge threshold. *)
Example comparison_at_the_edge :
  F64.ltb (2.3 - 2)%float 0.3 = PrimFloat.ltb (2.3 - 2)%float 0.3 /\
  F64.leb 0.3 (2.3 - 2)%float = PrimFloat.leb 0.3 (2.3 - 2)%float /\
  F64.ltb PrimFloat.nan 0.3 = PrimFloat.ltb PrimFloat.nan 0.3 /\
  F64.leb PrimFloat.neg_zero 0 = PrimFloat.leb PrimFloat.neg_zero 0 /\
  F64.ltb PrimFloat.neg_infinity PrimFloat.infinity
  = PrimFloat.ltb PrimFloat.neg_infinity PrimFloat.infinity.
Proof. vm_compute. repeat split. Qed.

(** ** Timing Resolver: the available time *)

(** C1: the available time is the window [end - start] for the last
    position and [max(min(end - start, nextStart - start), 0.5)] otherwise,
    each difference being the double the subtraction gives. *)
Theorem available_time_rule (sortedSegments : list Runtime.Clip) (i : nat)
    (segment : Runtime.Clip) :
  let window := (Runtime.end_ (Runtime.unit_ segment)
                 - Runtime.start (Runtime.unit_ segment))%float in
  (S i = length sortedSegments ->
   Runtime.Tts.availableTime sortedSegments i segment = window) /\
  (forall next : Runtime.Clip,
     sortedSegments !! S i = Some next ->
     Runtime.Tts.availableTime sortedSegments i segment
     = F64.max (F64.min window
                  (Runtime.start (Runtime.unit_ next)
                   - Runtime.start (Runtime.unit_ segment))%float) 0.5).
Proof.
  intros window. unfold Runtime.Tts.availableTime. fold window. split.
  - intros Hlast. rewrite Hlast.
    by rewrite (proj2 (Nat.ltb_ge _ _)) by lia.
  - intros next Hnext.
    pose proof (lookup_lt_Some _ _ _ Hnext) as Hlt.
    rewrite (proj2 (Nat.ltb_lt _ _)) by exact Hlt.
    by rewrite Hnext.
Qed.

Lemma available_time_rule_witness :
  Runtime.Tts.availableTime Rt.tight 0
    (Runtime.mkClip (Runtime.mkSegment 0 1 "a") "d/V_segment_0.mp3") = 1%float /\
  Runtime.Tts.availableTime Rt.tight 1
    (Runtime.mkClip (Runtime.mkSegment 1.2 3 "b") "d/V_segment_1.mp3") = (3 - 1.2)%float /\
  Runtime.Tts.availableTime Rt.brim 0
    (Runtime.mkClip (Runtime.mkSegment 2 2.3 "c") "d/V_segment_0.mp3")
  = 0.29999999999999982%float.
Proof.
  destruct (available_time_rule Rt.tight 0
              (Runtime.mkClip (Runtime.mkSegment 0 1 "a") "d/V_segment_0.mp3")) as [_ H0].
  destruct (available_time_rule Rt.tight 1
              (Runtime.mkClip (Runtime.mkSegment 1.2 3 "b") "d/V_segment_1.mp3")) as [H1 _].
  destruct (available_time_rule Rt.brim 0
              (Runtime.mkClip (Runtime.mkSegment 2 2.3 "c") "d/V_segment_0.mp3")) as [H2 _].
  split; [|split].
  - rewrite (H0 _ eq_refl). vm_compute. reflexivity.
  - rewrite (H1 eq_refl). reflexivity.
  - rewrite (H2 eq_refl). vm_compute. reflexivity.
Defined.

(** ** Timing Resolver: one clip *)

Lemma parent_shorter (p d : string) :
  Runtime.parent p = Some d -> (String.length d < String.length p)%nat.
Proof.
  revert d. induction p as [|c p IH]; intros d; cbn [Runtime.parent]; [done|].
  destruct (Runtime.parent p) as [d'|].
  - intros [= <-]. specialize (IH d' eq_refl). cbn [String.length]. lia.
  - destruct (Ascii.eqb c "/"); [|done]. intros [= <-]. cbn [String.length]. lia.
Qed.

Lemma writable_insert {A : Type} (fs : gmap string (Runtime.node A)) (p : string) (c : A) :
  Runtime.writable fs p = true -> Runtime.writable (<[p := Runtime.File c]> fs) p = true.
Proof.
  unfold Runtime.writable. rewrite lookup_insert_eq.
  destruct (Runtime.parent p) as [d|] eqn:Hd; [|done].
  destruct d as [|x d]; [done|].
  assert (p <> String x d) as Hne.
  { intros Heq. apply parent_shorter in Hd. rewrite <- Heq in Hd. lia. }
  rewrite (lookup_insert_ne fs p (String x d) (Runtime.File c) Hne).
  rewrite andb_true_r. intros H. by apply andb_true_iff in H as [-> _].
Qed.




Section RuntimeResolver.
Context {A : Type} (E : Runtime.Tools A).

Lemma getAudioDuration_file (fs : gmap string (Runtime.node A)) (p : string) (a : A)
    (duration : option float) :
  fs !! p = Some (Runtime.File a) ->
  Runtime.ffprobe E a = Runtime.Returns duration ->
  Runtime.Tts.getAudioDuration E p fs = (Ok (F64.or_zero duration), fs).
Proof. intros Hfile Hprobe. unfold Runtime.Tts.getAudioDuration. by rewrite Hfile, Hprobe. Qed.

Lemma copyFileSync_file (fs : gmap string (Runtime.node A)) (src dst : string) (a : A) :
  fs !! src = Some (Runtime.File a) ->
  Runtime.writable fs dst = true ->
  Runtime.IO.copyFileSync src dst fs = (Ok tt, <[dst := Runtime.File a]> fs).
Proof. intros Hfile Hw. unfold Runtime.IO.copyFileSync. by rewrite Hfile, Hw. Qed.

(** [adjustAudioSpeed] when the clip is longer than the target and the
    chain gets built. *)
Lemma adjustAudioSpeed_leaves (fs : gmap string (Runtime.node A))
    (inputPath outputPath : string) (targetDuration : float) (a a' : A)
    (duration : option float) (chain : list Z) :
  fs !! inputPath = Some (Runtime.File a) ->
  Runtime.ffprobe E a = Runtime.Returns duration ->
  inputPath <> outputPath ->
  Runtime.writable fs outputPath = true ->
  F64.leb (F64.or_zero duration) targetDuration = false ->
  Tts.atempoFilters (F64.value (F64.or_zero duration / targetDuration)%float) = Some chain ->
  Rt.compressed E chain a = Some a' ->
  Runtime.Tts.adjustAudioSpeed E inputPath outputPath targetDuration fs
  = (Ok tt, <[outputPath := Runtime.File a']> fs).
Proof.
  intros Hfile Hprobe Hne Hw Hlong Hchain Hout.
  unfold Runtime.Tts.adjustAudioSpeed, Runtime.IO.bind.
  rewrite (getAudioDuration_file _ _ _ _ Hfile Hprobe), Hlong, Hchain.
  destruct chain as [|stage chain].
  - injection Hout as <-. by apply copyFileSync_file.
  - unfold Runtime.Tts.ffmpeg_atempo. rewrite Hfile.
    apply String.eqb_neq in Hne as Hneb. rewrite Hneb, Hw. cbn [orb negb].
    cbn [Rt.compressed] in Hout.
    destruct (Runtime.atempo E (stage :: chain) a) as [out|[junk|]|]; cbn [negb].
    + by injection Hout as <-.
    + injection Hout as <-.
      rewrite (copyFileSync_file _ _ _ a).
      * by rewrite insert_insert_eq.
      * by rewrite lookup_insert_ne.
      * by apply writable_insert.
    + injection Hout as <-. by apply copyFileSync_file.
    + done.
Qed.

(** The timing loop on a clip that is longer than its available time:
    what [adjustAudioSpeed] and the second probe give is what the entry
    records. *)
Lemma resolveSegment_adjusts (fs fs' : gmap string (Runtime.node A))
    (sortedSegments : list Runtime.Clip) (i : nat) (segment : Runtime.Clip) (a : A)
    (duration : option float) (finalDuration : float) :
  fs !! Runtime.audioPath segment = Some (Runtime.File a) ->
  Runtime.ffprobe E a = Runtime.Returns duration ->
  let ttsDuration := F64.or_zero duration in
  let availableTime := Runtime.Tts.availableTime sortedSegments i segment in
  let derived := JS.replace ".mp3" "_adjusted.mp3" (Runtime.audioPath segment) in
  let target := if F64.leb (ttsDuration / availableTime)%float 3.0
                then availableTime else (ttsDuration / 3.0)%float in
  F64.ltb availableTime ttsDuration = true ->
  Runtime.Tts.adjustAudioSpeed E (Runtime.audioPath segment) derived target fs = (Ok tt, fs') ->
  Runtime.Tts.getAudioDuration E derived fs' = (Ok finalDuration, fs') ->
  Runtime.Tts.resolveSegment E sortedSegments i segment fs =
  (Ok (Some {| Runtime.source := Runtime.unit_ segment;
               Runtime.adjustedPath := derived;
               Runtime.originalPath := Runtime.audioPath segment;
               Runtime.wasAdjusted := negb (String.eqb derived (Runtime.audioPath segment));
               Runtime.audioDuration := finalDuration;
               Runtime.exactStart := Runtime.start (Runtime.unit_ segment) |}), fs').
Proof.
  intros Hfile Hprobe ttsDuration availableTime derived target Hover Hadjust Hfinal.
  unfold Runtime.Tts.resolveSegment, Runtime.IO.bind, Runtime.IO.existsSync.
  rewrite bool_decide_eq_true_2 by (rewrite Hfile; eauto). cbn [negb].
  rewrite (getAudioDuration_file _ _ _ _ Hfile Hprobe).
  fold ttsDuration availableTime. rewrite Hover. fold derived.
  subst target. destruct (F64.leb (ttsDuration / availableTime)%float 3.0);
    rewrite Hadjust, Hfinal; reflexivity.
Qed.

(** C4: a clip whose measured duration is at most its available time is
    left alone: the entry names the original path, carries the measured
    duration and is not marked as adjusted, and no file is written. *)
Theorem natural_speed_untouched (fs : gmap string (Runtime.node A))
    (sortedSegments : list Runtime.Clip) (i : nat) (segment : Runtime.Clip) (a : A)
    (duration : option float) :
  fs !! Runtime.audioPath segment = Some (Runtime.File a) ->
  Runtime.ffprobe E a = Runtime.Returns duration ->
  F64.leb (F64.or_zero duration) (Runtime.Tts.availableTime sortedSegments i segment) = true ->
  Runtime.Tts.resolveSegment E sortedSegments i segment fs =
  (Ok (Some {| Runtime.source := Runtime.unit_ segment;
               Runtime.adjustedPath := Runtime.audioPath segment;
               Runtime.originalPath := Runtime.audioPath segment;
               Runtime.wasAdjusted := false;
               Runtime.audioDuration := F64.or_zero duration;
               Runtime.exactStart := Runtime.start (Runtime.unit_ segment) |}), fs).
Proof.
  intros Hfile Hprobe Hfits.
  unfold Runtime.Tts.resolveSegment, Runtime.IO.bind, Runtime.IO.existsSync.
  rewrite bool_decide_eq_true_2 by (rewrite Hfile; eauto). cbn [negb].
  rewrite (getAudioDuration_file _ _ _ _ Hfile Hprobe).
  rewrite (leb_not_ltb _ _ Hfits).
  unfold Runtime.IO.ret. cbn [fst snd]. by rewrite String.eqb_refl.
Qed.

End RuntimeResolver.

Lemma natural_speed_untouched_witness :
  Runtime.Tts.resolveSegment Rt.exact Rt.tight 1
    (Runtime.mkClip (Runtime.mkSegment 1.2 3 "b") "d/V_segment_1.mp3") Rt.tight_files =
  (Ok (Some {| Runtime.source := Runtime.mkSegment 1.2 3 "b";
               Runtime.adjustedPath := "d/V_segment_1.mp3";
               Runtime.originalPath := "d/V_segment_1.mp3";
               Runtime.wasAdjusted := false;
               Runtime.audioDuration := F64.or_zero (Some 1%float);
               Runtime.exactStart := 1.2 |}), Rt.tight_files).
Proof.
  apply (natural_speed_untouched Rt.exact Rt.tight_files Rt.tight 1
           (Runtime.mkClip (Runtime.mkSegment 1.2 3 "b") "d/V_segment_1.mp3") 1%float
           (Some 1%float)).
  - vm_compute. reflexivity.
  - reflexivity.
  - vm_compute. reflexivity.
Defined.

Section RuntimeCompression.
Context {A : Type} (E : Runtime.Tools A).


Lemma attempt_unlink_file (fs : gmap string (Runtime.node A)) (p : string) (a : A) :
  fs !! p = Some (Runtime.File a) ->
  Runtime.IO.attempt (Runtime.IO.unlinkSync p) fs = (Ok tt, delete p fs).
Proof. intros H. unfold Runtime.IO.attempt, Runtime.IO.unlinkSync. by rewrite H. Qed.

(** C9: when the compressor is run and exits with a non-zero status,
    whatever it left at the derived path is replaced by a copy of the
    original clip; the entry is still marked as adjusted, its probed
    duration is the original one, and the cleanup unlinks the copy, not the
    original.  The clip's path holds the extension the derived name is
    built from, as the path of every synthesized clip does, and a file can
    be created at the derived path. *)
Theorem compression_failure_keeps_flag (fs : gmap string (Runtime.node A))
    (sortedSegments : list Runtime.Clip) (i : nat) (segment : Runtime.Clip) (a : A)
    (duration : option float) (chain : list Z) (left : option A) :
  fs !! Runtime.audioPath segment = Some (Runtime.File a) ->
  Runtime.ffprobe E a = Runtime.Returns duration ->
  has_mp3 (Runtime.audioPath segment) ->
  let ttsDuration := F64.or_zero duration in
  let availableTime := Runtime.Tts.availableTime sortedSegments i segment in
  let derived := JS.replace ".mp3" "_adjusted.mp3" (Runtime.audioPath segment) in
  Runtime.writable fs derived = true ->
  F64.ltb availableTime ttsDuration = true ->
  let target := if F64.leb (ttsDuration / availableTime)%float 3.0
                then availableTime else (ttsDuration / 3.0)%float in
  F64.leb ttsDuration target = false ->
  Tts.atempoFilters (F64.value (ttsDuration / target)%float) = Some chain ->
  chain <> [] ->
  Runtime.atempo E chain a = Runtime.ExitN left ->
  exists entry : Runtime.Adjusted,
    Runtime.Tts.resolveSegment E sortedSegments i segment fs
    = (Ok (Some entry), <[derived := Runtime.File a]> fs) /\
    Runtime.adjustedPath entry = derived /\
    Runtime.originalPath entry = Runtime.audioPath segment /\
    derived <> Runtime.audioPath segment /\
    Runtime.wasAdjusted entry = true /\
    Runtime.audioDuration entry = ttsDuration /\
    Runtime.Tts.cleanupAdjusted [entry] (<[derived := Runtime.File a]> fs)
    = (Ok tt, delete derived (<[derived := Runtime.File a]> fs)) /\
    delete derived (<[derived := Runtime.File a]> fs) !! Runtime.audioPath segment
    = Some (Runtime.File a).
Proof.
  intros Hfile Hprobe Hmp3 ttsDuration availableTime derived Hw Hover target Hlong Hchain
    Hrun Hexit.
  assert (Runtime.audioPath segment <> derived) as Hne.
  { intros Heq. by apply (derived_differs "_adjusted.mp3" _ Hmp3). }
  assert (String.eqb derived (Runtime.audioPath segment) = false) as Hneb.
  { apply String.eqb_neq. intros Heq. by apply Hne. }
  assert (Rt.compressed E chain a = Some a) as Hcopy.
  { destruct chain; [done|]. cbn [Rt.compressed]. by rewrite Hexit. }
  pose proof (adjustAudioSpeed_leaves E fs _ derived target a a duration chain
                Hfile Hprobe Hne Hw Hlong Hchain Hcopy) as Hadjust.
  pose proof (resolveSegment_adjusts E fs _ sortedSegments i segment a duration
                ttsDuration Hfile Hprobe Hover Hadjust) as Hres.
  fold derived in Hres. rewrite Hneb in Hres. cbn [negb] in Hres.
  eexists. split.
  { apply Hres. apply (getAudioDuration_file E _ _ a); [apply lookup_insert_eq | exact Hprobe]. }
  cbn [Runtime.adjustedPath Runtime.originalPath Runtime.wasAdjusted Runtime.audioDuration].
  repeat (split; [done|]).
  split.
  - cbn [Runtime.Tts.cleanupAdjusted Runtime.wasAdjusted Runtime.adjustedPath].
    unfold Runtime.IO.bind.
    rewrite (attempt_unlink_file _ _ a) by apply lookup_insert_eq. reflexivity.
  - rewrite lookup_delete_ne by (intros Heq; by apply Hne).
    rewrite lookup_insert_ne by (intros Heq; by apply Hne). exact Hfile.
Qed.

End RuntimeCompression.


Lemma compression_failure_keeps_flag_witness :
  exists entry : Runtime.Adjusted,
    Runtime.Tts.resolveSegment Rt.stuck Rt.tight 0
      (Runtime.mkClip (Runtime.mkSegment 0 1 "a") "d/V_segment_0.mp3") Rt.tight_files
    = (Ok (Some entry),
       <["d/V_segment_0_adjusted.mp3" := Runtime.File 4%float]> Rt.tight_files) /\
    Runtime.wasAdjusted entry = true /\
    Runtime.audioDuration entry = 4%float.
Proof.
  destruct (compression_failure_keeps_flag Rt.stuck Rt.tight_files Rt.tight 0
              (Runtime.mkClip (Runtime.mkSegment 0 1 "a") "d/V_segment_0.mp3")
              4%float (Some 4%float) [20000; 15000]%Z (Some 0%float))
    as (entry & Hres & _ & _ & _ & Hflag & Hdur & _).
  - vm_compute. reflexivity.
  - reflexivity.
  - exists "d/V_segment_0", "". reflexivity.
  - vm_compute. reflexivity.
  - vm_compute. reflexivity.
  - vm_compute. reflexivity.
  - vm_compute. reflexivity.
  - done.
  - reflexivity.
  - exists entry. split; [exact Hres|]. split; [exact Hflag | exact Hdur].
Defined.

(** ** Speed adjustment of one clip *)

Section RuntimeAdjust.
Context {A : Type} (E : Runtime.Tools A).

Lemma copyFileSync_cases (fs : gmap string (Runtime.node A)) (src dst : string) (a : A) :
  fs !! src = Some (Runtime.File a) ->
  Runtime.IO.copyFileSync src dst fs = (Ok tt, <[dst := Runtime.File a]> fs) \/
  Runtime.IO.copyFileSync src dst fs = (Throw (ENOENT dst), fs) \/
  Runtime.IO.copyFileSync src dst fs = (Throw (EISDIR dst), fs).
Proof.
  intros Hfile. unfold Runtime.IO.copyFileSync. rewrite Hfile.
  destruct (Runtime.writable fs dst); [by left|].
  right. destruct (fs !! dst) as [[|]|]; auto.
Qed.

(** How [adjustAudioSpeed] can end on an existing file that ffprobe
    measures. *)
Lemma adjustAudioSpeed_cases (fs : gmap string (Runtime.node A))
    (inputPath outputPath : string) (targetDuration : float) (a : A)
    (duration : option float) :
  fs !! inputPath = Some (Runtime.File a) ->
  Runtime.ffprobe E a = Runtime.Returns duration ->
  let speedFactor := F64.value (F64.or_zero duration / targetDuration)%float in
  let run := Runtime.Tts.adjustAudioSpeed E inputPath outputPath targetDuration fs in
  (run = (Throw RangeError, fs) /\
   F64.leb (F64.or_zero duration) targetDuration = false /\ speedFactor = JS.PosInf) \/
  ((F64.leb (F64.or_zero duration) targetDuration = true \/ speedFactor <> JS.PosInf) /\
   ((exists a', run = (Ok tt, <[outputPath := Runtime.File a']> fs)) \/
    run = (Throw (ENOENT outputPath), fs) \/
    run = (Throw (EISDIR outputPath), fs) \/
    run = (Hang, fs))).
Proof.
  intros Hfile Hprobe speedFactor run. subst run speedFactor.
  unfold Runtime.Tts.adjustAudioSpeed, Runtime.IO.bind.
  rewrite (getAudioDuration_file E _ _ _ _ Hfile Hprobe).
  assert (forall fs0 : gmap string (Runtime.node A),
            fs0 = fs ->
            (exists a', Runtime.IO.copyFileSync inputPath outputPath fs0
                        = (Ok tt, <[outputPath := Runtime.File a']> fs)) \/
            Runtime.IO.copyFileSync inputPath outputPath fs0 = (Throw (ENOENT outputPath), fs) \/
            Runtime.IO.copyFileSync inputPath outputPath fs0 = (Throw (EISDIR outputPath), fs) \/
            Runtime.IO.copyFileSync inputPath outputPath fs0 = (@Hang unit, fs)) as Hcopy.
  { intros fs0 ->. destruct (copyFileSync_cases fs inputPath outputPath a Hfile)
      as [H|[H|H]]; rewrite H; eauto. }
  destruct (F64.leb (F64.or_zero duration) targetDuration) eqn:Hfits.
  { right. split; [by left|]. by apply Hcopy. }
  destruct (F64.value (F64.or_zero duration / targetDuration)%float) as [q| | |] eqn:Hvalue.
  - right. split; [by right|].
    destruct (atempoFilters_finite q) as [chain Hchain]. rewrite Hchain.
    destruct chain as [|stage chain]; [by apply Hcopy|].
    unfold Runtime.Tts.ffmpeg_atempo. rewrite Hfile.
    destruct (String.eqb inputPath outputPath || negb (Runtime.writable fs outputPath))
      eqn:Hblocked; cbn [negb]; [by apply Hcopy|].
    apply orb_false_iff in Hblocked as [Hne Hw].
    apply String.eqb_neq in Hne. apply negb_false_iff in Hw.
    destruct (Runtime.atempo E (stage :: chain) a) as [out|[junk|]|]; cbn [negb].
    + left. by exists out.
    + left. exists a. rewrite (copyFileSync_file _ _ _ a).
      * by rewrite insert_insert_eq.
      * by rewrite lookup_insert_ne.
      * by apply writable_insert.
    + by apply Hcopy.
    + by right; right; right.
  - by left.
  - right. split; [by right|]. cbn [Tts.atempoFilters]. by apply Hcopy.
  - right. split; [by right|]. cbn [Tts.atempoFilters]. by apply Hcopy.
Qed.

(** [adjustAudioSpeed] on a file that ffprobe measures throws the
    RangeError of the array that cannot grow in exactly one case: the clip
    is not within the target and the double [actual / target] is
    [+Infinity], as for a target of zero. *)
Theorem adjust_throws_on_infinite_factor (fs : gmap string (Runtime.node A))
    (inputPath outputPath : string) (targetDuration : float) (a : A)
    (duration : option float) :
  fs !! inputPath = Some (Runtime.File a) ->
  Runtime.ffprobe E a = Runtime.Returns duration ->
  ((Runtime.Tts.adjustAudioSpeed E inputPath outputPath targetDuration fs).1 = Throw RangeError
   <-> F64.leb (F64.or_zero duration) targetDuration = false /\
       F64.value (F64.or_zero duration / targetDuration)%float = JS.PosInf).
Proof.
  intros Hfile Hprobe.
  destruct (adjustAudioSpeed_cases fs inputPath outputPath targetDuration a duration
              Hfile Hprobe) as [(Hrun & Hlong & Hinf)|(Hnot & Hrun)].
  - rewrite Hrun. by split.
  - split.
    + intros Hthrow. exfalso.
      destruct Hrun as [(a' & H)|[H|[H|H]]]; rewrite H in Hthrow; discriminate Hthrow.
    + intros [Hlong Hinf]. exfalso. destruct Hnot as [Hfits|Hfinite].
      * by rewrite Hfits in Hlong.
      * by apply Hfinite.
Qed.

(** [adjustAudioSpeed] changes no path other than the output path; when
    it returns the output path holds a file; when it throws, the file system
    is as before and the error is the one of ffprobe on the input, the
    RangeError of the chain, or the failure to create the output. *)
Theorem adjust_writes_output_only (fs : gmap string (Runtime.node A))
    (inputPath outputPath : string) (targetDuration : float) :
  exists (r : outcome unit) (fs' : gmap string (Runtime.node A)),
    Runtime.Tts.adjustAudioSpeed E inputPath outputPath targetDuration fs = (r, fs') /\
    (forall p, p <> outputPath -> fs' !! p = fs !! p) /\
    (r = Ok tt -> exists a', fs' !! outputPath = Some (Runtime.File a')) /\
    (forall e, r = Throw e ->
               fs' = fs /\
               (e = ProbeFailed inputPath \/ e = RangeError \/
                e = ENOENT outputPath \/ e = EISDIR outputPath)).
Proof.
  destruct (fs !! inputPath) as [[a|]|] eqn:Hfile.
  1: destruct (Runtime.ffprobe E a) as [duration| |] eqn:Hprobe.
  1: destruct (adjustAudioSpeed_cases fs inputPath outputPath targetDuration a duration
                 Hfile Hprobe) as [(Hrun & _)|(_ & [(a' & Hrun)|[Hrun|[Hrun|Hrun]]])].
  all: try (rewrite Hrun; eexists _, _; split; [reflexivity|]).
  all: try (unfold Runtime.Tts.adjustAudioSpeed, Runtime.IO.bind, Runtime.Tts.getAudioDuration;
            rewrite Hfile, ?Hprobe; eexists _, _; split; [reflexivity|]).
  all: split; [|split].
  all: try (intros p Hp; by rewrite ?lookup_insert_ne).
  all: try (intros Hok; first [discriminate Hok | eexists; apply lookup_insert_eq]).
  all: intros e He; first [discriminate He | injection He as <-; split; [done | eauto 6]].
Qed.

End RuntimeAdjust.

Lemma adjust_throws_on_infinite_factor_witness :
  (Runtime.Tts.adjustAudioSpeed Rt.exact "d/V_segment_0.mp3" "d/out.mp3" 0 Rt.tight_files).1
  = Throw RangeError
  <-> F64.leb (F64.or_zero (Some 4%float)) 0 = false /\
      F64.value (F64.or_zero (Some 4%float) / 0)%float = JS.PosInf.
Proof.
  apply (adjust_throws_on_infinite_factor Rt.exact Rt.tight_files "d/V_segment_0.mp3"
           "d/out.mp3" 0%float 4%float (Some 4%float)).
  - vm_compute. reflexivity.
  - reflexivity.
Defined.

(** ** Caption events *)

Lemma trimEnd_not_white (s : string) : Utf8.is_white_space (Utf8.trimEnd s) = false.
Proof.
  destruct s as [|a s']; [reflexivity|]. cbn [Utf8.trimEnd].
  destruct (Utf8.is_white_space (String a (Utf8.trimEnd s'))) eqn:H; [reflexivity | exact H].
Qed.

Lemma trim_not_line_feed (s : string) : Utf8.trim s <> String "010" "".
Proof.
  intros H. pose proof (trimEnd_not_white (Utf8.trimStart s)) as Hw.
  unfold Utf8.trim in H. rewrite H in Hw. discriminate Hw.
Qed.

(** The test [text === '\n'] of the caption loop never decides: the
    trimmed text of an event is not a line feed, nor any other single
    character that [trim] removes.  So an event that has [segs] and
    [tStartMs] is skipped exactly when its trimmed text is empty, and
    otherwise yields the fragment with that text and the times divided by
    1000. *)
Theorem line_feed_test_dead (segments : list Runtime.TranscriptSegment)
    (event : Runtime.Youtube.Event) (eventSegs : list Youtube.Seg) (startMs : float) :
  Runtime.Youtube.segs event = Some eventSegs ->
  Runtime.Youtube.tStartMs event = Some startMs ->
  let text := Utf8.trim (Youtube.eventText eventSegs) in
  text <> String "010" "" /\
  Utf8.is_white_space text = false /\
  (text = "" -> Runtime.Youtube.parse_step segments event = segments) /\
  (text <> "" ->
   Runtime.Youtube.parse_step segments event
   = segments ++
     [Runtime.mkSegment (startMs / 1000)%float
        ((startMs + F64.or_zero (Runtime.Youtube.dDurationMs event)) / 1000)%float text]).
Proof.
  intros Hsegs Hstart text. unfold Runtime.Youtube.parse_step. rewrite Hsegs, Hstart.
  fold text. split; [apply trim_not_line_feed|]. split; [apply trimEnd_not_white|]. split.
  - intros ->. reflexivity.
  - intros Hne.
    rewrite (proj2 (String.eqb_neq text "")) by exact Hne.
    rewrite (proj2 (String.eqb_neq text (String "010" ""))) by apply trim_not_line_feed.
    reflexivity.
Qed.

Lemma line_feed_test_dead_witness :
  Runtime.Youtube.parse_step []
    (Runtime.Youtube.mkEvent (Some [Youtube.mkSeg (Some (String "010" ""))])
       (Some 1000%float) (Some 500%float)) = [] /\
  Runtime.Youtube.parse_step []
    (Runtime.Youtube.mkEvent
       (Some [Youtube.mkSeg (Some (String "010" " hi")); Youtube.mkSeg None;
              Youtube.mkSeg (Some (String "194" (String "160" (String "010" ""))))])
       (Some 1900%float) None)
  = [Runtime.mkSegment 1.9 1.9 "hi"].
Proof.
  split.
  - destruct (line_feed_test_dead []
                (Runtime.Youtube.mkEvent (Some [Youtube.mkSeg (Some (String "010" ""))])
                   (Some 1000%float) (Some 500%float))
                _ _ eq_refl eq_refl) as (_ & _ & H & _).
    apply H. reflexivity.
  - destruct (line_feed_test_dead []
                (Runtime.Youtube.mkEvent
                   (Some [Youtube.mkSeg (Some (String "010" " hi")); Youtube.mkSeg None;
                          Youtube.mkSeg (Some (String "194" (String "160" (String "010" ""))))])
                   (Some 1900%float) None)
                _ _ eq_refl eq_refl) as (_ & _ & _ & H).
    rewrite H; [vm_compute; reflexivity | vm_compute; discriminate].
Defined.

(** ** Segment Merger *)

Lemma closing_snoc64 (h s : Runtime.TranscriptSegment) (t : list Runtime.TranscriptSegment) :
  Rt.closing (h, t ++ [s]) = s.
Proof. unfold Rt.closing. simpl. apply last_last. Qed.

Lemma merged_unit_snoc64 (h s : Runtime.TranscriptSegment)
    (t : list Runtime.TranscriptSegment) :
  Rt.merged_unit (h, t ++ [s]) =
  {| Runtime.start := Runtime.start (Rt.merged_unit (h, t));
     Runtime.end_ := Runtime.end_ s;
     Runtime.text := Runtime.text (Rt.merged_unit (h, t)) +:+ " " +:+ Runtime.text s |}.
Proof.
  unfold Rt.merged_unit, Rt.fragments. rewrite closing_snoc64.
  cbn [fst snd Runtime.start Runtime.end_ Runtime.text].
  f_equal. rewrite app_comm_cons, map_app. by apply concat_snoc.
Qed.

Lemma merged_unit_single64 (s : Runtime.TranscriptSegment) : Rt.merged_unit (s, []) = s.
Proof. by destruct s. Qed.

(** [merge_step] on an open group is the merge test of the vocabulary. *)
Lemma merge_step_group64 (merged : list Runtime.TranscriptSegment)
    (h s : Runtime.TranscriptSegment) (t : list Runtime.TranscriptSegment) :
  Runtime.Youtube.merge_step (merged, Some (Rt.merged_unit (h, t))) s =
  if Rt.joins h (Rt.closing (h, t)) s
  then (merged, Some (Rt.merged_unit (h, t ++ [s])))
  else (merged ++ [Rt.merged_unit (h, t)], Some (Rt.merged_unit (s, []))).
Proof.
  unfold Runtime.Youtube.merge_step, Rt.joins. cbn [fst snd].
  change (Runtime.end_ (Rt.merged_unit (h, t))) with (Runtime.end_ (Rt.closing (h, t))).
  change (Runtime.start (Rt.merged_unit (h, t))) with (Runtime.start h).
  destruct (_ && _).
  - by rewrite merged_unit_snoc64.
  - by rewrite merged_unit_single64.
Qed.

Lemma merge_loop_groups64 (segments merged : list Runtime.TranscriptSegment)
    (h : Runtime.TranscriptSegment) (t : list Runtime.TranscriptSegment) :
  let st := foldl Runtime.Youtube.merge_step (merged, Some (Rt.merged_unit (h, t))) segments in
  match st.2 with
  | Some currentSegment => st.1 ++ [currentSegment]
  | None => st.1
  end = merged ++ map Rt.merged_unit (Rt.group_from h t segments).
Proof.
  revert merged h t. induction segments as [|s rest IH]; intros merged h t; [done|].
  cbn [foldl Rt.group_from]. rewrite merge_step_group64.
  destruct (Rt.joins h (Rt.closing (h, t)) s).
  - apply IH.
  - cbn zeta in IH. rewrite IH. by rewrite <- app_assoc.
Qed.

Lemma mergeSegments_groups64 (s : Runtime.TranscriptSegment)
    (rest : list Runtime.TranscriptSegment) :
  Runtime.Youtube.mergeSegments (s :: rest) = map Rt.merged_unit (Rt.group_from s [] rest).
Proof.
  unfold Runtime.Youtube.mergeSegments. cbn [foldl].
  change (Runtime.Youtube.merge_step ([], None) s)
    with (@nil Runtime.TranscriptSegment, Some s).
  pose proof (merge_loop_groups64 rest [] s []) as H.
  rewrite merged_unit_single64 in H. exact H.
Qed.

Lemma group_from_fragments64 (segments : list Runtime.TranscriptSegment)
    (h : Runtime.TranscriptSegment) (t : list Runtime.TranscriptSegment) :
  concat (map Rt.fragments (Rt.group_from h t segments)) = h :: t ++ segments.
Proof.
  revert h t. induction segments as [|s rest IH]; intros h t; cbn [Rt.group_from].
  - cbn. by rewrite app_nil_r.
  - destruct (Rt.joins _ _ _).
    + rewrite IH. by rewrite <- app_assoc.
    + cbn [map concat]. rewrite IH. done.
Qed.

Lemma joined_from_snoc64 (h a s : Runtime.TranscriptSegment)
    (t : list Runtime.TranscriptSegment) :
  Rt.joined_from h a t -> Rt.joins h (List.last t a) s = true -> Rt.joined_from h a (t ++ [s]).
Proof.
  revert a. induction t as [|b t IH]; intros a Ht Hs; [by split|].
  destruct Ht as [Hab Ht]. split; [done|]. apply IH; [done|].
  destruct t as [|c t]; [exact Hs|]. by rewrite (last_default t c b a).
Qed.

Lemma group_from_joined64 (segments : list Runtime.TranscriptSegment)
    (h : Runtime.TranscriptSegment) (t : list Runtime.TranscriptSegment) :
  Rt.joined (h, t) -> Forall Rt.joined (Rt.group_from h t segments).
Proof.
  revert h t. induction segments as [|s rest IH]; intros h t Hg; simpl.
  - by constructor.
  - destruct (Rt.joins _ _ _) eqn:Hj.
    + apply IH. by apply joined_from_snoc64.
    + constructor; [done|]. by apply IH.
Qed.

Lemma group_from_head64 (segments : list Runtime.TranscriptSegment)
    (h : Runtime.TranscriptSegment) (t : list Runtime.TranscriptSegment) :
  exists t' gs, Rt.group_from h t segments = (h, t') :: gs.
Proof.
  revert t. induction segments as [|s rest IH]; intros t; simpl; [by eauto|].
  destruct (Rt.joins _ _ _); eauto.
Qed.

Lemma group_from_split64 (segments : list Runtime.TranscriptSegment)
    (h : Runtime.TranscriptSegment) (t : list Runtime.TranscriptSegment) :
  Rt.split_between (Rt.group_from h t segments).
Proof.
  revert h t. induction segments as [|s rest IH]; intros h t; [done|].
  cbn [Rt.group_from]. destruct (Rt.joins _ _ _) eqn:Hj; [apply IH|].
  destruct (group_from_head64 rest s []) as (t' & gs & Heq).
  specialize (IH s []). rewrite Heq in IH |- *. by split.
Qed.

Lemma group_from_heads64 (segments : list Runtime.TranscriptSegment)
    (h : Runtime.TranscriptSegment) (t : list Runtime.TranscriptSegment) (g : Rt.group) :
  In g (Rt.group_from h t segments) -> In g.1 (h :: t ++ segments).
Proof.
  intros Hg. rewrite <- group_from_fragments64.
  apply in_concat. exists (Rt.fragments g). split; [by apply in_map | by left].
Qed.

Lemma sorted_by_start_drop64 (t rest : list Runtime.TranscriptSegment) :
  Rt.sorted_by_start (t ++ rest) -> Rt.sorted_by_start rest.
Proof.
  induction t as [|x t IHt]; [done|]. intros H.
  apply IHt. by apply StronglySorted_inv in H as [? _].
Qed.

Lemma group_from_sorted64 (segments : list Runtime.TranscriptSegment)
    (h : Runtime.TranscriptSegment) (t : list Runtime.TranscriptSegment) :
  Rt.sorted_by_start (h :: t ++ segments) ->
  Rt.sorted_by_start (map Rt.merged_unit (Rt.group_from h t segments)).
Proof.
  revert h t. induction segments as [|s rest IH]; intros h t Hs; cbn [Rt.group_from].
  - repeat constructor.
  - destruct (Rt.joins _ _ _).
    + apply IH. by rewrite <- app_assoc.
    + cbn [map]. apply StronglySorted_inv in Hs as [Htail Hh].
      constructor.
      * apply (IH s []). by apply sorted_by_start_drop64 in Htail.
      * apply List.Forall_forall. intros u Hu.
        apply List.in_map_iff in Hu as (g & <- & Hg).
        apply group_from_heads64 in Hg.
        rewrite List.Forall_forall in Hh. apply (Hh g.1).
        apply in_or_app. by right.
Qed.

(** C5, as the code has it: the fragments are cut, in order, into
    consecutive groups, one per output unit; a unit runs from its first
    fragment's start to its last fragment's end and carries the texts joined
    by single spaces; two adjacent fragments share a unit exactly when the
    gap between them, as the double the code subtracts, is below the double
    0.3 and the span from the unit's start to the second's end, again as
    subtracted, is below 10; the units are ordered by start.  Nothing keeps
    the units from overlapping. *)
Theorem merge_units_grouping (segments : list Runtime.TranscriptSegment) :
  Rt.sorted_by_start segments ->
  exists gs : list Rt.group,
    concat (map Rt.fragments gs) = segments /\
    Runtime.Youtube.mergeSegments segments = map Rt.merged_unit gs /\
    Forall Rt.joined gs /\
    Rt.split_between gs /\
    Rt.sorted_by_start (Runtime.Youtube.mergeSegments segments).
Proof.
  intros Hs. destruct segments as [|s rest].
  - exists []. repeat split; constructor.
  - exists (Rt.group_from s [] rest). rewrite mergeSegments_groups64.
    split; [apply group_from_fragments64|]. split; [done|].
    split; [by apply group_from_joined64|]. split; [apply group_from_split64|].
    by apply group_from_sorted64.
Qed.

Lemma rolling_sorted64 : Rt.sorted_by_start Rt.rolling.
Proof. repeat constructor; vm_compute; reflexivity. Qed.

Lemma merge_units_grouping_witness :
  Rt.sorted_by_start Rt.rolling /\
  exists gs : list Rt.group,
    concat (map Rt.fragments gs) = Rt.rolling /\
    Runtime.Youtube.mergeSegments Rt.rolling = map Rt.merged_unit gs /\
    Forall Rt.joined gs /\
    Rt.split_between gs /\
    Rt.sorted_by_start (Runtime.Youtube.mergeSegments Rt.rolling).
Proof.
  split; [exact rolling_sorted64|].
  apply (merge_units_grouping Rt.rolling).
  repeat constructor; vm_compute; reflexivity.
Defined.

(** C5 as stated fails: the fragments below are ordered by start, the
    third one is cut off by the 10s cap, and the second unit starts (7.5s)
    before the first one ends (8s). *)
Lemma merged_units_overlap :
  Rt.sorted_by_start Rt.rolling /\
  Runtime.Youtube.mergeSegments Rt.rolling =
    [Runtime.mkSegment 0 8 "a b"; Runtime.mkSegment 7.5 11 "c"] /\
  ~ Rt.non_overlapping (Runtime.Youtube.mergeSegments Rt.rolling).
Proof.
  split; [exact rolling_sorted64|]. split; [vm_compute; reflexivity|].
  intros [H _]. vm_compute in H. discriminate H.
Qed.

(** The threshold is met in doubles: two fragments exactly 300 ms apart
    (2.0s and 2.3s) are merged, since [2.3 - 2] is 0.29999999999999982. *)
Example gap_of_300ms_merges :
  (2.3 - 2)%float = 0.29999999999999982%float /\
  Runtime.Youtube.mergeSegments Rt.apart = [Runtime.mkSegment 1 3 "a b"].
Proof. split; vm_compute; reflexivity. Qed.

Lemma joined_last64 (h a : Runtime.TranscriptSegment) (t : list Runtime.TranscriptSegment)
    (s : Runtime.TranscriptSegment) :
  Rt.joined_from h a (t ++ [s]) -> Rt.joins h (List.last t a) s = true.
Proof.
  revert a. induction t as [|b t IH]; intros a; cbn [app Rt.joined_from].
  - by intros [H _].
  - intros [_ H]. specialize (IH b H).
    destruct t as [|c t]; [exact IH|].
    change (List.last (b :: c :: t) a) with (List.last (c :: t) a).
    by rewrite (last_default t c a b).
Qed.

(** A unit made of several fragments spans less than ten seconds, as the
    code measures the span (the double [end - start] is below 10); only a
    fragment passed on alone can be longer. *)
Theorem merged_span_capped (segments : list Runtime.TranscriptSegment)
    (u : Runtime.TranscriptSegment) :
  In u (Runtime.Youtube.mergeSegments segments) ->
  In u segments \/ F64.ltb (Runtime.end_ u - Runtime.start u)%float 10 = true.
Proof.
  destruct segments as [|s rest]; [done|].
  rewrite mergeSegments_groups64. intros Hu.
  apply List.in_map_iff in Hu as ([h t] & <- & Hg).
  pose proof (group_from_heads64 _ _ _ _ Hg) as Hh. cbn [fst app] in Hh.
  pose proof (group_from_joined64 rest s [] I) as Hj.
  rewrite List.Forall_forall in Hj. specialize (Hj _ Hg).
  destruct t as [|b t] using rev_ind.
  - left. by rewrite merged_unit_single64.
  - right. unfold Rt.joined in Hj. cbn [fst snd] in Hj.
    apply joined_last64 in Hj. unfold Rt.joins in Hj.
    apply andb_true_iff in Hj as [_ Hspan].
    rewrite merged_unit_snoc64. cbn [Runtime.start Runtime.end_].
    exact Hspan.
Qed.

Lemma merged_span_capped_witness :
  In (Runtime.mkSegment 0 8 "a b") Rt.rolling \/
  F64.ltb (Runtime.end_ (Runtime.mkSegment 0 8 "a b")
           - Runtime.start (Runtime.mkSegment 0 8 "a b"))%float 10 = true.
Proof.
  apply (merged_span_capped Rt.rolling (Runtime.mkSegment 0 8 "a b")).
  vm_compute. left. reflexivity.
Defined.

(** ** Translation Mapper *)

Lemma ltb_integers (a b : Z) : JS.ltb (inject_Z a) (inject_Z b) = (a <? b)%Z.
Proof. unfold JS.ltb, inject_Z. cbn. by rewrite !Z.mul_1_r. Qed.

(** What the mapper sees of a natural number. *)
Lemma natural_number_seen (StringToNumber : string -> JS.number)
    (segments : list TranscriptSegment) (q : Q) :
  inject_Z (Qfloor q) == q -> 0 <= q ->
  let v := Runtime.Gemini.Number (JS.Fin q) in
  let k := Z.to_nat (Qfloor q) in
  Runtime.Gemini.elementIndex v = Some k /\
  Z.of_nat k = Qfloor q /\
  F64.number_ltb (Runtime.Gemini.toNumber StringToNumber v)
    (JS.Fin (inject_Z (Z.of_nat (length segments))))
  = (Z.of_nat k <? Z.of_nat (length segments))%Z.
Proof.
  intros Hint Hpos v k. subst v k.
  assert (0 <= Qfloor q)%Z as Hfloor.
  { exact (Qfloor_resp_le _ _ Hpos). }
  split; [|split].
  - cbn [Runtime.Gemini.elementIndex].
    rewrite (proj2 (Qeq_bool_iff _ _) Hint), (proj2 (Z.leb_le _ _) Hfloor). done.
  - lia.
  - cbn [Runtime.Gemini.toNumber F64.number_ltb].
    rewrite (ltb_proper q (inject_Z (Qfloor q)) _ _ (Qeq_sym _ _ Hint) (Qeq_refl _)).
    rewrite ltb_integers. by rewrite Z2Nat.id.
Qed.

Lemma sameValueZero_natural (q q' : Q) :
  inject_Z (Qfloor q) == q -> inject_Z (Qfloor q') == q' ->
  Runtime.Gemini.sameValueZero (Runtime.Gemini.Number (JS.Fin q))
    (Runtime.Gemini.Number (JS.Fin q'))
  = bool_decide (Qfloor q = Qfloor q').
Proof.
  intros Hq Hq'. cbn [Runtime.Gemini.sameValueZero Runtime.Gemini.sameNumber].
  destruct (Qeq_bool q q') eqn:Heq.
  - apply Qeq_bool_iff in Heq. rewrite bool_decide_eq_true_2; [done|].
    by rewrite Heq.
  - rewrite bool_decide_eq_false_2; [done|]. intros Hfloor.
    apply Qeq_bool_neq in Heq. apply Heq. by rewrite <- Hq, <- Hq', Hfloor.
Qed.

Lemma denoted_set_cons (v : Runtime.Gemini.value) (usedIndices : list Runtime.Gemini.value)
    (k : nat) :
  Runtime.Gemini.elementIndex v = Some k ->
  Rt.denoted_set (v :: usedIndices) = {[Z.of_nat k]} ∪ Rt.denoted_set usedIndices.
Proof. intros H. unfold Rt.denoted_set. simpl. by rewrite H. Qed.

(** The values the loop has put into [usedIndices]. *)
Lemma used_natural (usedIndices : list Runtime.Gemini.value) (q : Q) :
  Forall (fun u => Rt.natural_index u /\ u <> Runtime.Gemini.Undefined) usedIndices ->
  inject_Z (Qfloor q) == q -> 0 <= q ->
  existsb (Runtime.Gemini.sameValueZero (Runtime.Gemini.Number (JS.Fin q))) usedIndices
  = bool_decide (Qfloor q ∈ Rt.denoted_set usedIndices).
Proof.
  intros Hused Hint Hpos. induction Hused as [|u used [Hu Hdef] _ IH].
  - cbn. by rewrite bool_decide_eq_false_2 by set_solver.
  - destruct Hu as [->|(q' & -> & Hint' & Hpos')]; [done|].
    destruct (natural_number_seen (fun _ => JS.NaN) [] q' Hint' Hpos') as (Hidx & Hk & _).
    cbn [existsb]. rewrite IH, (sameValueZero_natural _ _ Hint Hint').
    rewrite (denoted_set_cons _ _ _ Hidx), Hk.
    destruct (decide (Qfloor q = Qfloor q')) as [Heq|Hne].
    + rewrite (bool_decide_eq_true_2 (Qfloor q = Qfloor q') Heq). cbn [orb].
      symmetry. apply bool_decide_eq_true_2. rewrite Heq. set_solver.
    + rewrite (bool_decide_eq_false_2 (Qfloor q = Qfloor q') Hne). cbn [orb].
      apply bool_decide_ext. rewrite elem_of_union, elem_of_singleton. tauto.
Qed.

(** On a reply whose indices are natural numbers the loop is the loop
    over the array indices. *)
Lemma mapLoop_natural (StringToNumber : string -> JS.number)
    (segments : list TranscriptSegment)
    (translations : list (option Runtime.Gemini.Translation))
    (usedIndices : list Runtime.Gemini.value) (result : list TranscriptSegment) :
  Rt.natural_indices translations ->
  Forall (fun u => Rt.natural_index u /\ u <> Runtime.Gemini.Undefined) usedIndices ->
  Runtime.Gemini.mapLoop StringToNumber segments translations usedIndices result
  = Gemini.mapLoop segments (map Rt.denoted translations) (Rt.denoted_set usedIndices) result.
Proof.
  intros Hnat. revert usedIndices result.
  induction Hnat as [|t rest (trans & -> & Hidx) _ IH]; intros used result Hused; [done|].
  cbn [map Runtime.Gemini.mapLoop Gemini.mapLoop Rt.denoted Gemini.index Gemini.translated].
  destruct Hidx as [Hundef|(q & Hq & Hint & Hpos)].
  - rewrite Hundef. cbn. by apply IH.
  - rewrite Hq.
    destruct (natural_number_seen StringToNumber segments q Hint Hpos) as (Hk & Hfloor & Hlt).
    cbn zeta in Hk, Hfloor, Hlt.
    unfold Runtime.Gemini.accepted, Runtime.Gemini.at_index. rewrite Hlt, Hk.
    cbn [fmap option_fmap option_map].
    rewrite (used_natural used q Hused Hint Hpos), Hfloor.
    destruct (_ && _); [|by apply IH].
    unfold Gemini.at_index. rewrite <- Hfloor at 1 2.
    rewrite (proj2 (Z.leb_le _ _)) by lia. rewrite Nat2Z.id.
    destruct (segments !! Z.to_nat (Qfloor q)) as [original|]; [|done].
    rewrite IH.
    + by rewrite (denoted_set_cons _ _ _ Hk), Hfloor.
    + constructor; [|done]. split; [|done]. right. by exists q.
Qed.

Lemma denoted_non_negative (translations : list (option Runtime.Gemini.Translation)) :
  non_negative_indices (map Rt.denoted translations).
Proof.
  intros t k Ht Hk. apply List.in_map_iff in Ht as ([trans|] & <- & _); cbn in Hk; [|done].
  destruct (Runtime.Gemini.elementIndex _); [|done]. injection Hk as <-. lia.
Qed.

Lemma first_text_denoted (translations : list (option Runtime.Gemini.Translation)) (k : Z) :
  (0 <= k)%Z ->
  first_text (map Rt.denoted translations) k = Rt.first_text translations (Z.to_nat k).
Proof.
  intros Hk. unfold first_text, Rt.first_text.
  induction translations as [|[trans|] rest IH]; [done| |exact IH].
  cbn [map List.find Rt.denoted Gemini.index].
  destruct (Runtime.Gemini.elementIndex (Runtime.Gemini.index trans)) as [j|]
    eqn:Hj; cbn [fmap option_fmap option_map].
  - destruct (decide (Z.of_nat j = k)) as [<-|Hne].
    + rewrite Nat2Z.id. by rewrite !bool_decide_eq_true_2.
    + rewrite (bool_decide_eq_false_2 (Some (Z.of_nat j) = Some k)) by congruence.
      rewrite (bool_decide_eq_false_2 (Some j = Some (Z.to_nat k)));
        [exact IH | intros [= ->]; lia].
  - by rewrite !bool_decide_eq_false_2.
Qed.

Lemma translates_denoted (segments : list TranscriptSegment)
    (translations : list (option Runtime.Gemini.Translation))
    (kept : list Z) (units : list TranscriptSegment) :
  Forall (fun k => (0 <= k)%Z) kept ->
  Forall2 (translates segments (map Rt.denoted translations)) kept units ->
  Forall2 (Rt.translates segments translations) (Z.to_nat <$> kept) units.
Proof.
  intros Hpos H. induction H as [|k u kept units (o & txt & Ho & Htxt & ->) _ IH];
    [constructor|].
  apply Forall_cons in Hpos as [Hk Hpos]. rewrite fmap_cons. constructor; [|by apply IH].
  exists o, txt. split; [done|]. split; [|done]. by rewrite <- first_text_denoted.
Qed.

Lemma denoted_occurs (translations : list (option Runtime.Gemini.Translation)) (k : Z) :
  (0 <= k)%Z ->
  (exists t, t ∈ map Rt.denoted translations /\ Gemini.index t = Some k) <->
  (exists trans, Some trans ∈ translations /\
                 Runtime.Gemini.elementIndex (Runtime.Gemini.index trans)
                 = Some (Z.to_nat k)).
Proof.
  intros Hk. split.
  - intros (t & Ht & Hidx). apply list_elem_of_In, List.in_map_iff in Ht as ([trans|] & <- & Hin);
      cbn in Hidx; [|done].
    exists trans. split; [by apply list_elem_of_In|].
    destruct (Runtime.Gemini.elementIndex _) as [j|]; [|done].
    injection Hidx as <-. by rewrite Nat2Z.id.
  - intros (trans & Hin & Hidx). exists (Rt.denoted (Some trans)). split.
    + apply list_elem_of_In, List.in_map. by apply list_elem_of_In.
    + cbn. rewrite Hidx. cbn. f_equal. lia.
Qed.

Section MapperProperties.
Variable StringToNumber : string -> JS.number.


(** When every element of the reply is an object whose index is absent
    or a natural number, the result holds exactly one unit for every index
    of [0, N) that occurs in the reply, with the text of its first
    occurrence and the start and end of the input unit, and is sorted by
    start. *)
Theorem mapping_first_wins (segments : list TranscriptSegment)
    (translations : list (option Runtime.Gemini.Translation)) :
  Rt.natural_indices translations ->
  exists (kept : list nat) (units result : list TranscriptSegment),
    Runtime.Gemini.translateTranscript StringToNumber segments (Some translations)
    = Ok result /\
    NoDup kept /\
    (forall k, k ∈ kept <->
       (k < length segments)%nat /\
       exists trans, Some trans ∈ translations /\
                     Runtime.Gemini.elementIndex (Runtime.Gemini.index trans) = Some k) /\
    Forall2 (Rt.translates segments translations) kept units /\
    result ≡ₚ units /\
    sorted_by_start result.
Proof.
  intros Hnat.
  destruct (mapLoop_first_wins segments (map Rt.denoted translations) ∅ []
              (denoted_non_negative translations))
    as (kept & units & Hloop & Hnd & Hkept & Hunits).
  assert (Forall (fun k => (0 <= k)%Z) kept) as Hpos.
  { apply List.Forall_forall. intros k Hk.
    apply list_elem_of_In, Hkept in Hk as [? _]. lia. }
  exists (Z.to_nat <$> kept), units, (JS.sort start units).
  unfold Runtime.Gemini.translateTranscript, Runtime.Gemini.mapTranslations.
  rewrite (mapLoop_natural StringToNumber segments translations [] [] Hnat) by constructor.
  change (Rt.denoted_set []) with (∅ : gset Z). rewrite Hloop. cbn [app].
  split; [done|]. split; [|split; [|split; [|split]]].
  - apply NoDup_fmap_2_strong; [|done]. intros x y Hx Hy Hxy.
    apply Hkept in Hx as [? _]. apply Hkept in Hy as [? _]. lia.
  - intros k. rewrite list_elem_of_fmap. split.
    + intros (z & -> & Hz). apply Hkept in Hz as (Hr & _ & Hocc).
      split; [lia|]. apply denoted_occurs; [lia | done].
    + intros (Hk & Hocc). exists (Z.of_nat k). split; [by rewrite Nat2Z.id|].
      apply Hkept. split; [lia|]. split; [apply not_elem_of_empty|].
      apply denoted_occurs; [lia|]. by rewrite Nat2Z.id.
  - by apply translates_denoted.
  - apply sort_perm.
  - apply sort_sorted.
Qed.

(** A reply of objects with natural indices that names every index of
    [0, N) at least once, in any order and with whatever else, yields
    exactly N units, and every input unit's start and end are those of one
    of them. *)
Theorem complete_reply_covers (segments : list TranscriptSegment)
    (translations : list (option Runtime.Gemini.Translation)) :
  Rt.natural_indices translations ->
  (forall i, (i < length segments)%nat ->
             exists trans, Some trans ∈ translations /\
                           Runtime.Gemini.elementIndex (Runtime.Gemini.index trans) = Some i) ->
  exists result : list TranscriptSegment,
    Runtime.Gemini.translateTranscript StringToNumber segments (Some translations)
    = Ok result /\
    length result = length segments /\
    forall i original, segments !! i = Some original ->
      exists u, In u result /\ start u = start original /\ end_ u = end_ original.
Proof.
  intros Hnat Hall.
  destruct (mapLoop_first_wins segments (map Rt.denoted translations) ∅ []
              (denoted_non_negative translations))
    as (kept & units & Hloop & Hnd & Hkept & Hunits).
  exists (JS.sort start units).
  unfold Runtime.Gemini.translateTranscript, Runtime.Gemini.mapTranslations.
  rewrite (mapLoop_natural StringToNumber segments translations [] [] Hnat) by constructor.
  change (Rt.denoted_set []) with (∅ : gset Z). rewrite Hloop. cbn [app].
  split; [done|].
  assert (forall i, (i < length segments)%nat -> Z.of_nat i ∈ kept) as Hin.
  { intros i Hi. apply Hkept. split; [lia|]. split; [apply not_elem_of_empty|].
    apply denoted_occurs; [lia|]. rewrite Nat2Z.id. by apply Hall. }
  split.
  - rewrite sort_length, <- (Forall2_length _ _ _ Hunits).
    assert (kept ≡ₚ seqZ 0 (Z.of_nat (length segments))) as Hperm.
    { apply NoDup_Permutation; [done | apply NoDup_seqZ|].
      intros k. rewrite elem_of_seqZ. split.
      - intros Hk. apply Hkept in Hk as [? _]. lia.
      - intros Hk. replace k with (Z.of_nat (Z.to_nat k)) by lia. apply Hin. lia. }
    rewrite Hperm, length_seqZ. lia.
  - intros i original Hi.
    assert (Z.of_nat i ∈ kept) as Hk by (apply Hin; by apply lookup_lt_Some in Hi).
    apply list_elem_of_lookup in Hk as [j Hj].
    destruct (Forall2_lookup_l _ _ _ _ _ Hunits Hj) as (u & Hu & (o & txt & Ho & _ & ->)).
    rewrite Nat2Z.id, Hi in Ho. injection Ho as <-.
    exists {| start := start original; end_ := end_ original; text := txt |}.
    split; [|done].
    apply list_elem_of_In. rewrite sort_perm. by apply list_elem_of_lookup_2 in Hu.
Qed.

End MapperProperties.



(** Indices that are not natural numbers.  A negative or fractional
    number, [null] and [true] pass the guard and read no element, which
    throws; so does reading the index of a [null] element.  The string "0"
    passes the guard, is no duplicate of the number 0 and reads element 0:
    one input unit comes back twice. *)
Example loose_indices :
  let run reply := Runtime.Gemini.translateTranscript Rt.numeral Scenario.three_units
                     (Some reply) in
  let item v text := Some (Runtime.Gemini.mkTranslation v text) in
  run [Rt.entry 0 "A"; Rt.entry (-1) "X"] = Throw (GeminiTranslationFailed TypeError) /\
  run [item (Runtime.Gemini.Number (JS.Fin 0.5)) "X"]
  = Throw (GeminiTranslationFailed TypeError) /\
  run [item Runtime.Gemini.Null "X"] = Throw (GeminiTranslationFailed TypeError) /\
  run [item (Runtime.Gemini.Boolean true) "X"] = Throw (GeminiTranslationFailed TypeError) /\
  run [None] = Throw (GeminiTranslationFailed TypeError) /\
  run [Rt.entry 3 "X"; item (Runtime.Gemini.Str "abc") "Y"; item Runtime.Gemini.Undefined "Z"]
  = Ok [] /\
  run [Rt.entry 0 "A"; item (Runtime.Gemini.Str "0") "B"]
  = Ok [mkSegment 0 2 "A"; mkSegment 0 2 "B"].
Proof. repeat split; reflexivity. Qed.

Lemma mapping_first_wins_witness :
  exists (kept : list nat) (units result : list TranscriptSegment),
    Runtime.Gemini.translateTranscript Rt.numeral Scenario.three_units (Some Rt.reply_C)
    = Ok result /\
    NoDup kept /\
    (forall k, k ∈ kept <->
       (k < length Scenario.three_units)%nat /\
       exists trans, Some trans ∈ Rt.reply_C /\
                     Runtime.Gemini.elementIndex (Runtime.Gemini.index trans) = Some k) /\
    Forall2 (Rt.translates Scenario.three_units Rt.reply_C) kept units /\
    result ≡ₚ units /\
    sorted_by_start result.
Proof.
  apply (mapping_first_wins Rt.numeral Scenario.three_units Rt.reply_C).
  repeat constructor; (eexists; split; [reflexivity|]; right; eexists;
    split; [reflexivity|]; split; [reflexivity | discriminate]).
Defined.

Lemma complete_reply_covers_witness :
  exists result : list TranscriptSegment,
    Runtime.Gemini.translateTranscript Rt.numeral Scenario.three_units (Some Rt.reply_full)
    = Ok result /\
    length result = 3%nat /\
    forall i original, Scenario.three_units !! i = Some original ->
      exists u, In u result /\ start u = start original /\ end_ u = end_ original.
Proof.
  apply (complete_reply_covers Rt.numeral Scenario.three_units Rt.reply_full).
  - repeat constructor; (eexists; split; [reflexivity|]; right; eexists;
      split; [reflexivity|]; split; [reflexivity | discriminate]).
  - intros [|[|[|i]]] Hi; cbn in Hi; [| | |lia].
    + exists (Runtime.Gemini.mkTranslation (Runtime.Gemini.Number (JS.Fin (inject_Z 0))) "A").
      split; [|reflexivity]. apply list_elem_of_In. do 3 right. left. reflexivity.
    + exists (Runtime.Gemini.mkTranslation (Runtime.Gemini.Number (JS.Fin (inject_Z 1))) "B").
      split; [|reflexivity]. apply list_elem_of_In. left. reflexivity.
    + exists (Runtime.Gemini.mkTranslation (Runtime.Gemini.Number (JS.Fin (inject_Z 2))) "C").
      split; [|reflexivity]. apply list_elem_of_In. right. left. reflexivity.
Defined.
